(** * multiPumpAutomation2: the serial pump backend (backend.py)

    A shallow embedding of [PumpLink] (one serial link to one Arduino) and
    of [QBackend] (the QML-facing controller that routes nine global pump
    ids onto two links), followed by the properties of the wave command
    construction, of the link life cycle, of routing, of pause/resume and
    of the error notifications.

    Conventions of the embedding.
    - A Python float ([pyfloat]) is a finite value, kept as an exact
      rational, one of the two infinities, or NaN.  The comparisons
      [<], [<=], [>], [>=] are boolean and false as soon as one side is
      NaN, as in Python.  The only float arithmetic of the program is
      [duty_fraction * 100.0]; on finite values it is exact (rounding is
      not modelled).
    - Python ints are [Z]; the [int(...)]/[float(...)]/[str(...)]
      conversions at the slot boundaries are the identity on these types.
    - A dict is a [gmap]; the JSON objects handed to [_send] are the
      constructors of [Cmd].
    - [print] calls (diagnostics only) are not modelled, except for the
      lines the reader thread prints: one pass of its loop is the function
      [PumpLink._rx_loop_pass] from the buffer and the chunk read to the
      lines printed and the new buffer.  Slots run one after the other, so
      the write lock never contends.
    - The blocking retry loop of [PumpLink.open] consumes a list of
      outcomes of the successive [serial.Serial(...)] calls, carried by the
      link as [line]; a loop that is still retrying when the outcomes run
      out yields [None].
    - A link keeps two logs: [sends], every object handed to [_send] (what
      the controller sends), and [wire], the frames written to the port.
      A write on an open port is taken to succeed; the I/O error branch of
      [_send] is outside the model. *)

From Stdlib Require Import QArith Lqa.
From stdpp Require Import gmap strings list fin_maps pretty.
From Stdlib.Strings Require Byte.

Local Open Scope Z_scope.

(** ** Python floats *)

Inductive pyfloat :=
  | Fin (q : Q)       (* a finite value *)
  | PInf              (* float("inf") *)
  | NInf              (* float("-inf") *)
  | NaN.              (* float("nan") *)

Definition Qlt_bool (x y : Q) : bool :=
  if Qlt_le_dec x y then true else false.

(** [a < b] *)
Definition flt (a b : pyfloat) : bool :=
  match a, b with
  | NaN, _ | _, NaN => false
  | Fin x, Fin y => Qlt_bool x y
  | NInf, (Fin _ | PInf) => true
  | Fin _, PInf => true
  | _, _ => false
  end.

(** [a <= b] *)
Definition fle (a b : pyfloat) : bool :=
  match a, b with
  | NaN, _ | _, NaN => false
  | Fin x, Fin y => negb (Qlt_bool y x)
  | NInf, _ => true
  | _, PInf => true
  | _, _ => false
  end.

(** [a == b] *)
Definition feq (a b : pyfloat) : bool :=
  match a, b with
  | Fin x, Fin y => Qeq_bool x y
  | PInf, PInf | NInf, NInf => true
  | _, _ => false
  end.

(** [a > b] and [a >= b] *)
Definition fgt (a b : pyfloat) : bool := flt b a.
Definition fge (a b : pyfloat) : bool := fle b a.

(** [x * 100.0] *)
Definition times100 (x : pyfloat) : pyfloat :=
  match x with
  | Fin q => Fin (q * 100)
  | PInf => PInf
  | NInf => NInf
  | NaN => NaN
  end.

Definition is_nan (x : pyfloat) : bool :=
  match x with NaN => true | _ => false end.

(** ** Wire commands *)

(** The inner object of [{"wave": {...}}]. *)
Record Wave := mkWave {
  wave_pump : Z;
  wave_shape : string;
  wave_period : pyfloat;
  wave_duty : pyfloat;
  wave_min_flow : pyfloat;
  wave_max_flow : pyfloat
}.

(** The objects passed to [PumpLink._send]. *)
Inductive Cmd :=
  | CmdFlow (pump : Z) (flow : pyfloat)   (* {"pump": N, "flow": F} *)
  | CmdPrime (pump : Z)             (* {"prime": N} *)
  | CmdStop (pump : Z)              (* {"stop": N} *)
  | CmdStopAll                      (* {"stop_all": true} *)
  | CmdWave (w : Wave).             (* {"wave": {...}} *)

(** The local pump a command addresses, if any. *)
Definition cmd_pump (c : Cmd) : option Z :=
  match c with
  | CmdFlow p _ | CmdPrime p | CmdStop p => Some p
  | CmdStopAll => None
  | CmdWave w => Some (wave_pump w)
  end.


(** [max(0.0, x)]: Python returns the first argument unless the second is
    strictly greater. *)
Definition max0 (x : pyfloat) : pyfloat := if fgt x (Fin 0) then x else Fin 0.

Module PumpLink.

(** The fields of a [PumpLink] object, the environment of its port and the
    two observation logs. *)
Record t := mk {
  port : string;
  baud : Z;
  ser_open : bool;      (* [self.ser and self.ser.is_open] *)
  _stop : bool;
  rx_thread : bool;     (* a reader thread has been started *)
  line : list bool;     (* outcomes of the coming [serial.Serial(...)] calls *)
  wire : list Cmd;      (* frames written to the port, oldest first *)
  sends : list Cmd      (* ghost: every object handed to [_send], oldest first *)
}.

Definition create (port : string) (baud : Z) (line : list bool) : t :=
  mk port baud false false false line [] [].

(** One pass of [while not self._stop: try: ... except: sleep]. *)
Fixpoint open_loop (attempts : list bool) (l : t) : option (bool * t) :=
  if _stop l then
    Some (false, mk (port l) (baud l) (ser_open l) (_stop l) (rx_thread l)
                    attempts (wire l) (sends l))
  else
    match attempts with
    | [] => None
    | true :: rest =>
        Some (true, mk (port l) (baud l) true (_stop l) true
                       rest (wire l) (sends l))
    | false :: rest => open_loop rest l
    end.

Definition open (l : t) : option (bool * t) :=
  if ser_open l then Some (true, l) else open_loop (line l) l.

Definition close (l : t) : t :=
  mk (port l) (baud l) false true (rx_thread l) (line l) (wire l) (sends l).

(** [self.ser.write(data)] on an open port. *)
Definition write (obj : Cmd) (l : t) : t :=
  mk (port l) (baud l) (ser_open l) (_stop l) (rx_thread l) (line l)
     (wire l ++ [obj]) (sends l).

Definition log_send (obj : Cmd) (l : t) : t :=
  mk (port l) (baud l) (ser_open l) (_stop l) (rx_thread l) (line l)
     (wire l) (sends l ++ [obj]).

Definition _send (obj : Cmd) (l : t) : option t :=
  let l := log_send obj l in
  if ser_open l then Some (write obj l)
  else
    '(ok, l') ← open l;
    if ok : bool then Some (write obj l')
    else Some l'.                       (* write skipped *)

Definition set_flow (pump : Z) (ul_per_min : pyfloat) : t → option t :=
  _send (CmdFlow pump ul_per_min).

Definition prime (pump : Z) : t → option t := _send (CmdPrime pump).

Definition stop (pump : Z) : t → option t := _send (CmdStop pump).

Definition stop_all : t → option t := _send CmdStopAll.

(** [period_sec = float(period_sec) if period_sec > 0 else 1.0] *)
Definition wave_period_of (period_sec : pyfloat) : pyfloat :=
  if fgt period_sec (Fin 0) then period_sec else Fin 1.

(** The two [if]s on [duty_fraction], one after the other. *)
Definition wave_duty_fraction (duty_fraction : pyfloat) : pyfloat :=
  let duty_fraction :=
    if fle duty_fraction (Fin 0) then Fin (1 # 2) else duty_fraction in
  if fge duty_fraction (Fin 1) then Fin (99 # 100) else duty_fraction.

(** From "Derive min/max if only base_flow was given" to the swap. *)
Definition wave_bounds
    (min_flow_ul_min max_flow_ul_min base_flow_ul_min : option pyfloat)
    : pyfloat * pyfloat :=
  let '(min_flow_ul_min, max_flow_ul_min) :=
    match min_flow_ul_min, max_flow_ul_min, base_flow_ul_min with
    | None, None, Some base => (Some (Fin 0), Some base)
    | _, _, _ => (min_flow_ul_min, max_flow_ul_min)
    end in
  let min_flow_ul_min := default (Fin 0) min_flow_ul_min in
  let max_flow_ul_min := default min_flow_ul_min max_flow_ul_min in
  let min_flow_ul_min := max0 min_flow_ul_min in
  let max_flow_ul_min := max0 max_flow_ul_min in
  if flt max_flow_ul_min min_flow_ul_min
  then (max_flow_ul_min, min_flow_ul_min)
  else (min_flow_ul_min, max_flow_ul_min).

(** The inner dict of the [cmd] built by [start_wave]. *)
Definition start_wave_frame (pump : Z) (shape : string)
    (period_sec duty_fraction : pyfloat)
    (min_flow_ul_min max_flow_ul_min base_flow_ul_min : option pyfloat)
    : Wave :=
  let period_sec := wave_period_of period_sec in
  let duty_percent := times100 (wave_duty_fraction duty_fraction) in
  let '(min_flow_ul_min, max_flow_ul_min) :=
    wave_bounds min_flow_ul_min max_flow_ul_min base_flow_ul_min in
  mkWave pump shape period_sec duty_percent min_flow_ul_min max_flow_ul_min.

Definition start_wave (pump : Z) (shape : string)
    (period_sec duty_fraction : pyfloat)
    (min_flow_ul_min max_flow_ul_min base_flow_ul_min : option pyfloat)
    : t → option t :=
  _send (CmdWave (start_wave_frame pump shape period_sec duty_fraction
                    min_flow_ul_min max_flow_ul_min base_flow_ul_min)).

Definition wave_off (pump : Z) (fallback_flow : pyfloat) : t → option t :=
  start_wave pump "off" (Fin 1) (Fin (1 # 2)) (Some (Fin 0))
    (Some fallback_flow) None.

(** [open] cannot block on this link: the port is open, a shutdown was
    requested, or one of the coming connection attempts succeeds. *)
Definition responsive (l : t) : bool :=
  ser_open l || _stop l || bool_decide (true ∈ line l).

(** No call of [_send] will try to connect any more. *)
Definition settled (l : t) : bool := ser_open l || _stop l.

(** What a sequence of [_send] calls with the objects [cs] does to a
    link: all of [cs] are logged, and they reach the wire exactly when the
    port is open afterwards. *)
Record sent (l l' : t) (cs : list Cmd) : Prop := mk_sent {
  sent_sends : sends l' = sends l ++ cs;
  sent_wire : wire l' = wire l ++ (if ser_open l' then cs else []);
  sent_stop : _stop l' = _stop l;
  sent_settles : cs ≠ [] → settled l' = true;
  sent_settled : settled l = true → ser_open l' = ser_open l;
  sent_responsive : responsive l = true → responsive l' = true
}.

(** *** The reader thread *)

(** The whitespace of [bytes.strip()]: tab, line feed, vertical tab, form
    feed, carriage return and space. *)
Definition is_space (b : Byte.byte) : bool :=
  match b with
  | Byte.x09 | Byte.x0a | Byte.x0b | Byte.x0c | Byte.x0d | Byte.x20 => true
  | _ => false
  end.

Fixpoint lstrip (bs : list Byte.byte) : list Byte.byte :=
  match bs with
  | [] => []
  | b :: rest => if is_space b then lstrip rest else bs
  end.

(** [line.strip()] *)
Definition strip (bs : list Byte.byte) : list Byte.byte :=
  reverse (lstrip (reverse (lstrip bs))).

(** [buf.split(b"\n", 1)]: the bytes before the first line feed and those
    after it; [None] when [b"\n" in buf] is false. *)
Fixpoint split_newline (buf : list Byte.byte)
    : option (list Byte.byte * list Byte.byte) :=
  match buf with
  | [] => None
  | b :: rest =>
      if Byte.eqb b Byte.x0a then Some ([], rest)
      else '(line, rest) ← split_newline rest; Some (b :: line, rest)
  end.

(** The loop [while b"\n" in buf] of [_rx_loop]: the lines it prints (as
    bytes, before decoding) and the buffer it leaves; [None] when [fuel]
    iterations were not enough. *)
Fixpoint rx_lines (fuel : nat) (buf : list Byte.byte)
    : option (list (list Byte.byte) * list Byte.byte) :=
  match split_newline buf with
  | None => Some ([], buf)
  | Some (line, buf) =>
      match fuel with
      | O => None
      | S fuel =>
          let line := strip line in
          '(printed, buf) ← rx_lines fuel buf;
          Some (if bool_decide (line = []) then printed else line :: printed,
                buf)
      end
  end.

(** One pass of [while not self._stop] in [_rx_loop] in which
    [self.ser.read(256)] returned [chunk]: an empty chunk is skipped,
    otherwise the chunk is appended to the buffer and the complete lines
    are printed. *)
Definition _rx_loop_pass (buf chunk : list Byte.byte)
    : option (list (list Byte.byte) * list Byte.byte) :=
  match chunk with
  | [] => Some ([], buf)
  | _ => rx_lines (length (buf ++ chunk)) (buf ++ chunk)
  end.

End PumpLink.

(** ** The controller *)

Inductive LinkId := LinkA | LinkB.

Global Instance LinkId_eq_dec : EqDecision LinkId.
Proof. solve_decision. Defined.

(** Qt signals of [QBackend], in emission order. *)
Inductive Signal :=
  | connectionChanged (ok : bool)
  | lastErrorChanged (msg : string).

(** The texts carried by the [lastErrorChanged] emissions of a signal log. *)
Definition error_texts (sigs : list Signal) : list string :=
  omap (λ s, match s with lastErrorChanged m => Some m | _ => None end) sigs.

(** [str.lower()] on the ASCII range. *)
Definition lower_ascii (c : Ascii.ascii) : Ascii.ascii :=
  let n := Ascii.N_of_ascii c in
  if ((65 <=? n) && (n <=? 90))%N then Ascii.ascii_of_N (n + 32) else c.

Fixpoint lower (s : string) : string :=
  match s with
  | EmptyString => EmptyString
  | String c s => String (lower_ascii c) (lower s)
  end.

(** [s.startswith(p)] *)
Definition startswith (s p : string) : bool := String.prefix p s.

Module QBackend.

Definition BAUD : Z := 115200.

Definition PUMP_MAP_A : gmap Z Z :=
  list_to_map [(1, 1); (4, 2); (5, 3); (7, 4); (8, 5)].
Definition PUMP_MAP_B : gmap Z Z :=
  list_to_map [(2, 1); (3, 2); (6, 3); (9, 4)].

Record t := mk {
  linkA : PumpLink.t;
  linkB : PumpLink.t;
  last_flows : gmap Z pyfloat;
  paused_flows : gmap Z pyfloat;
  _last_error : string;
  emitted : list Signal      (* signals emitted so far, oldest first *)
}.

(** [__init__]; the two port names come from the process environment and
    the two [line]s are the behaviour of the ports. *)
Definition create (portA portB : string) (lineA lineB : list bool) : t :=
  mk (PumpLink.create portA BAUD lineA) (PumpLink.create portB BAUD lineB)
     ∅ ∅ "" [].

Definition link (which : LinkId) (st : t) : PumpLink.t :=
  match which with LinkA => linkA st | LinkB => linkB st end.

Definition set_link (which : LinkId) (l : PumpLink.t) (st : t) : t :=
  match which with
  | LinkA => mk l (linkB st) (last_flows st) (paused_flows st)
                (_last_error st) (emitted st)
  | LinkB => mk (linkA st) l (last_flows st) (paused_flows st)
                (_last_error st) (emitted st)
  end.

Definition set_last_flows (m : gmap Z pyfloat) (st : t) : t :=
  mk (linkA st) (linkB st) m (paused_flows st) (_last_error st) (emitted st).

Definition set_paused_flows (m : gmap Z pyfloat) (st : t) : t :=
  mk (linkA st) (linkB st) (last_flows st) m (_last_error st) (emitted st).

Definition emit (s : Signal) (st : t) : t :=
  mk (linkA st) (linkB st) (last_flows st) (paused_flows st)
     (_last_error st) (emitted st ++ [s]).

(** A method call on one of the two links. *)
Definition on_link (which : LinkId) (f : PumpLink.t → option PumpLink.t)
    (st : t) : option t :=
  l ← f (link which st); Some (set_link which l st).

(** [for x in xs: body] *)
Fixpoint for_each {A} (body : A → t → option t) (xs : list A) (st : t)
    : option t :=
  match xs with
  | [] => Some st
  | x :: xs => st ← body x st; for_each body xs st
  end.

Definition _set_error (msg : string) (st : t) : t :=
  if decide (msg = _last_error st) then st
  else emit (lastErrorChanged msg)
         (mk (linkA st) (linkB st) (last_flows st) (paused_flows st)
             msg (emitted st)).

Definition _route_pump (p : Z) (st : t) : option (LinkId * Z) * t :=
  match PUMP_MAP_A !! p with
  | Some local => (Some (LinkA, local), st)
  | None =>
      match PUMP_MAP_B !! p with
      | Some local => (Some (LinkB, local), st)
      | None => (None, _set_error ("Invalid pump id " +:+ pretty p) st)
      end
  end.

(** The two lookups of [_route_pump], without the error report. *)
Definition route (p : Z) : option (LinkId * Z) :=
  match PUMP_MAP_A !! p with
  | Some local => Some (LinkA, local)
  | None =>
      match PUMP_MAP_B !! p with
      | Some local => Some (LinkB, local)
      | None => None
      end
  end.

Definition _all_links : list LinkId := [LinkA; LinkB].

Definition open (st : t) : option (bool * t) :=
  '(okA, la) ← PumpLink.open (linkA st);
  let st := set_link LinkA la st in
  '(okB, lb) ← PumpLink.open (linkB st);
  let st := set_link LinkB lb st in
  let ok := okA && okB in
  let st := emit (connectionChanged ok) st in
  if ok then Some (ok, _set_error "" st)
  else Some (ok, _set_error "Failed to open one or both serial ports" st).

Definition close (st : t) : t :=
  let st := foldl (λ st which, set_link which (PumpLink.close (link which st)) st)
              st _all_links in
  emit (connectionChanged false) st.

Definition refreshPorts (st : t) : t := st.

Definition prime (pump : Z) (st : t) : option t :=
  let '(r, st) := _route_pump pump st in
  match r with
  | None => Some st
  | Some (which, local) => on_link which (PumpLink.prime local) st
  end.

Definition stop (pump : Z) (st : t) : option t :=
  let '(r, st) := _route_pump pump st in
  match r with
  | None => Some st
  | Some (which, local) =>
      st ← on_link which (PumpLink.stop local) st;
      on_link which (PumpLink.wave_off local (Fin 0)) st
  end.

Definition stopAll (st : t) : option t :=
  for_each (λ which, on_link which PumpLink.stop_all) _all_links st.

Definition stop_all : t → option t := stopAll.

Definition set_flow (pump : Z) (ul_per_min : pyfloat) (st : t) : option t :=
  let '(r, st) := _route_pump pump st in
  match r with
  | None => Some st
  | Some (which, local) =>
      let st := set_last_flows (<[pump := ul_per_min]> (last_flows st)) st in
      on_link which (PumpLink.set_flow local ul_per_min) st
  end.

Definition pauseAll (st : t) : option t :=
  let st := set_paused_flows (last_flows st) st in
  for_each (λ which, on_link which PumpLink.stop_all) _all_links st.

Definition pause_all : t → option t := pauseAll.

(** The body of the loop of [pausePumps]. *)
Definition pausePumps_body (p : Z) (st : t) : option t :=
  let st := match last_flows st !! p with
            | Some f => set_paused_flows (<[p := f]> (paused_flows st)) st
            | None => st
            end in
  let '(r, st) := _route_pump p st in
  match r with
  | Some (which, local) => on_link which (PumpLink.stop local) st
  | None => Some st
  end.

Definition pausePumps (ids : list Z) (st : t) : option t :=
  for_each pausePumps_body ids st.

(** [self.paused_flows.get(p, self.last_flows.get(p, 0.0))] *)
Definition restore_flow (st : t) (p : Z) : pyfloat :=
  default (default (Fin 0) (last_flows st !! p)) (paused_flows st !! p).

(** The body of the first loop of [resumePumps]. *)
Definition resumePumps_restore (p : Z) (st : t) : option t :=
  let flow := restore_flow st p in
  if fgt flow (Fin 0) then
    let '(r, st) := _route_pump p st in
    match r with
    | None => Some st
    | Some (which, local) =>
        st ← on_link which (PumpLink.set_flow local flow) st;
        Some (set_last_flows (<[p := flow]> (last_flows st)) st)
    end
  else Some st.

(** The body of its second loop: [self.paused_flows.pop(p, None)]. *)
Definition resumePumps_clear (p : Z) (st : t) : option t :=
  Some (set_paused_flows (delete p (paused_flows st)) st).

Definition resumePumps (ids : list Z) (st : t) : option t :=
  st ← for_each resumePumps_restore ids st;
  for_each resumePumps_clear ids st.

(** The body of the loop of [startAutomation]. *)
Definition startAutomation_body (shape : string)
    (period dutyFraction : pyfloat) (p : Z) (st : t) : option t :=
  let base := default (Fin 0) (last_flows st !! p) in
  if fle base (Fin 0) then Some st      (* continue *)
  else
    let '(r, st) := _route_pump p st in
    match r with
    | None => Some st
    | Some (which, local) =>
        on_link which
          (PumpLink.start_wave local shape period dutyFraction
             (Some (Fin 0)) (Some base) None) st
    end.

Definition startAutomation (pumps : list Z) (mode shape : string)
    (minutes period dutyFraction : pyfloat) (st : t) : option t :=
  if startswith (lower mode) "constant" then Some st
  else if negb (startswith (lower mode) "pulsatile") then Some st
  else for_each (startAutomation_body shape period dutyFraction) pumps st.

Definition startWaveForPump (pump : Z) (shape : string)
    (period_sec dutyFraction minFlow maxFlow : pyfloat) (st : t)
    : option t :=
  let '(r, st) := _route_pump pump st in
  match r with
  | None => Some st
  | Some (which, local) =>
      let st := if fgt maxFlow (Fin 0)
                then set_last_flows (<[pump := maxFlow]> (last_flows st)) st
                else st in
      on_link which
        (PumpLink.start_wave local shape period_sec dutyFraction
           (Some minFlow) (Some maxFlow) None) st
  end.

Definition set_calibration (pump : Z) (ul_per_rev : pyfloat) (st : t)
    : option t :=
  let '(r, st) := _route_pump pump st in
  match r with
  | None => Some st
  | Some _ => Some st
  end.

Definition responsive (st : t) : bool :=
  PumpLink.responsive (linkA st) && PumpLink.responsive (linkB st).

(** The slots of the controller, as the UI may invoke them. *)
Inductive Call :=
  | call_open
  | call_close
  | call_refreshPorts
  | call_prime (pump : Z)
  | call_stop (pump : Z)
  | call_stopAll
  | call_stop_all
  | call_set_flow (pump : Z) (ul_per_min : pyfloat)
  | call_pauseAll
  | call_pause_all
  | call_pausePumps (ids : list Z)
  | call_resumePumps (ids : list Z)
  | call_startAutomation (pumps : list Z) (mode shape : string)
      (minutes period dutyFraction : pyfloat)
  | call_startWaveForPump (pump : Z) (shape : string)
      (period_sec dutyFraction minFlow maxFlow : pyfloat)
  | call_set_calibration (pump : Z) (ul_per_rev : pyfloat).

Definition exec (c : Call) (st : t) : option t :=
  match c with
  | call_open => snd <$> open st
  | call_close => Some (close st)
  | call_refreshPorts => Some (refreshPorts st)
  | call_prime p => prime p st
  | call_stop p => stop p st
  | call_stopAll => stopAll st
  | call_stop_all => stop_all st
  | call_set_flow p f => set_flow p f st
  | call_pauseAll => pauseAll st
  | call_pause_all => pause_all st
  | call_pausePumps ids => pausePumps ids st
  | call_resumePumps ids => resumePumps ids st
  | call_startAutomation ps m s mi pe d => startAutomation ps m s mi pe d st
  | call_startWaveForPump p s pe d mn mx => startWaveForPump p s pe d mn mx st
  | call_set_calibration p v => set_calibration p v st
  end.

(** A session: the calls of [cs] one after the other. *)
Fixpoint run (cs : list Call) (st : t) : option t :=
  match cs with
  | [] => Some st
  | c :: cs => st ← exec c st; run cs st
  end.

(** The states a controller can be in: some session from a fresh object. *)
Definition reachable (st : t) : Prop :=
  ∃ portA portB lineA lineB cs,
    run cs (create portA portB lineA lineB) = Some st.

End QBackend.

(** ** The derivation rule in the words of the specification *)

(** Section 4.5: both supplied, use them; else only base supplied, 0..base;
    else any missing bound is 0; clamp both to >= 0; swap if max < min.
    To be compared with [PumpLink.wave_bounds]. *)
Definition spec_wave_bounds (min_flow max_flow base_flow : option pyfloat)
    : pyfloat * pyfloat :=
  let '(mn, mx) :=
    match min_flow, max_flow, base_flow with
    | Some mn, Some mx, _ => (mn, mx)
    | None, None, Some base => (Fin 0, base)
    | _, _, _ => (default (Fin 0) min_flow, default (Fin 0) max_flow)
    end in
  let mn := max0 mn in
  let mx := max0 mx in
  if flt mx mn then (mx, mn) else (mn, mx).

Definition frame_bounds (w : Wave) : pyfloat * pyfloat :=
  (wave_min_flow w, wave_max_flow w).

(** ** Notions used by the statements *)

(** A wave command whose period is usable by the firmware. *)
Definition wave_ok (c : Cmd) : Prop :=
  match c with
  | CmdWave w => fgt (wave_period w) (Fin 0) = true
  | _ => True
  end.

(** Both logs of both links hold only usable waves. *)
Definition logs_ok (st : QBackend.t) : Prop :=
  ∀ which, Forall wave_ok (PumpLink.sends (QBackend.link which st))
           ∧ Forall wave_ok (PumpLink.wire (QBackend.link which st)).

(** A command as the link methods build it: every wave comes out of
    [start_wave]. *)
Definition link_built (c : Cmd) : Prop :=
  match c with
  | CmdWave w =>
      ∃ pump shape period duty mn mx base,
        w = PumpLink.start_wave_frame pump shape period duty mn mx base
  | _ => True
  end.

(** No text occurs twice in a row. *)
Definition no_consecutive_repeat (texts : list string) : Prop :=
  ∀ i a b, texts !! i = Some a → texts !! S i = Some b → a ≠ b.

(** The error notifications so far never repeat a text, and the stored
    error is the text of the latest one. *)
Definition errors_ok (st : QBackend.t) : Prop :=
  no_consecutive_repeat (error_texts (QBackend.emitted st))
  ∧ ∀ m, last (error_texts (QBackend.emitted st)) = Some m →
         m = QBackend._last_error st.

(** A controller on which [open] returns false at once and reports
    nothing new. *)
Definition failing (st : QBackend.t) : Prop :=
  ∃ okA okB,
    PumpLink.open (QBackend.linkA st) = Some (okA, QBackend.linkA st)
    ∧ PumpLink.open (QBackend.linkB st) = Some (okB, QBackend.linkB st)
    ∧ okA && okB = false
    ∧ QBackend._last_error st = "Failed to open one or both serial ports".

(** The elementary state changes out of which every slot is composed. *)
Inductive prim : QBackend.t → QBackend.t → Prop :=
  | prim_last_flows m st : prim st (QBackend.set_last_flows m st)
  | prim_paused_flows m st : prim st (QBackend.set_paused_flows m st)
  | prim_set_error msg st : prim st (QBackend._set_error msg st)
  | prim_connection ok st : prim st (QBackend.emit (connectionChanged ok) st)
  | prim_send which c l' st :
      link_built c →
      PumpLink._send c (QBackend.link which st) = Some l' →
      prim st (QBackend.set_link which l' st)
  | prim_open which ok l' st :
      PumpLink.open (QBackend.link which st) = Some (ok, l') →
      prim st (QBackend.set_link which l' st)
  | prim_close which st :
      prim st (QBackend.set_link which
                 (PumpLink.close (QBackend.link which st)) st).

(** Between two states of the controller, link [w] was handed exactly the
    commands [cs w]. *)
Definition sent_on (st st' : QBackend.t) (cs : LinkId → list Cmd) : Prop :=
  ∀ w, PumpLink.sent (QBackend.link w st) (QBackend.link w st') (cs w).

(** The commands a batch slot hands to link [w] for the entry [p] of its
    list: those of [g] if [p] is routed to [w], none otherwise. *)
Definition routed (g : Z → Z → list Cmd) (w : LinkId) (p : Z) : list Cmd :=
  match QBackend.route p with
  | Some (w', local) => if decide (w' = w) then g p local else []
  | None => []
  end.

Definition pause_cmds : LinkId → Z → list Cmd :=
  routed (λ p local, [CmdStop local]).

(** [resumePumps]: one flow command for a pump whose flow to restore
    passes the test [flow > 0]. *)
Definition restore_cmds (flow : Z → pyfloat) : LinkId → Z → list Cmd :=
  routed (λ p local,
    if fgt (flow p) (Fin 0) then [CmdFlow local (flow p)] else []).

(** [startAutomation]: no wave for a pump whose base passes the test
    [base <= 0], one wave from 0 to the base otherwise. *)
Definition automation_cmds (shape : string) (period duty : pyfloat)
    (base : Z → pyfloat) : LinkId → Z → list Cmd :=
  routed (λ p local,
    if fle (base p) (Fin 0) then []
    else [CmdWave (PumpLink.start_wave_frame local shape period duty
                     (Some (Fin 0)) (Some (base p)) None)]).

(** The global pump ids of the rig, 1 to 9. *)
Definition all_pumps : list Z := [1; 2; 3; 4; 5; 6; 7; 8; 9].

(** A call that pauses pump [p] (snapshotting its recorded flow), and one that
    resumes it (consuming the snapshot). *)
Definition pauses (p : Z) (c : QBackend.Call) : Prop :=
  match c with
  | QBackend.call_pauseAll | QBackend.call_pause_all => True
  | QBackend.call_pausePumps ids => p ∈ ids
  | _ => False
  end.

Definition resumes (p : Z) (c : QBackend.Call) : Prop :=
  match c with
  | QBackend.call_resumePumps ids => p ∈ ids
  | _ => False
  end.

(** ** Further notions: what the slots do to the logs and the flows *)

Global Instance byte_eq_decision : EqDecision Byte.byte := Byte.byte_eq_dec.

(** The command addresses a local pump that the routing tables give to
    link [w], or no pump at all. *)
Definition local_of (w : LinkId) (c : Cmd) : Prop :=
  match cmd_pump c with
  | Some local => ∃ p, QBackend.route p = Some (w, local)
  | None => True
  end.

(** What any slot may do between two states: hand commands for their own
    local pumps to the links, record flows for routed pumps, keep every
    recorded flow recorded, and snapshot only recorded flows. *)
Definition effect (st st' : QBackend.t) : Prop :=
  (∀ w, ∃ cs, PumpLink.sends (QBackend.link w st')
               = PumpLink.sends (QBackend.link w st) ++ cs
              ∧ Forall (local_of w) cs)
  ∧ (∀ q, is_Some (QBackend.last_flows st' !! q) →
          is_Some (QBackend.last_flows st !! q) ∨ is_Some (QBackend.route q))
  ∧ (∀ q, is_Some (QBackend.last_flows st !! q) →
          is_Some (QBackend.last_flows st' !! q))
  ∧ (∀ q, is_Some (QBackend.paused_flows st' !! q) →
          is_Some (QBackend.paused_flows st !! q)
          ∨ is_Some (QBackend.last_flows st' !! q)).

(** Flows are recorded for routed pumps only, and paused only when
    recorded. *)
Definition flows_routed (st : QBackend.t) : Prop :=
  (∀ q, is_Some (QBackend.last_flows st !! q) → 1 ≤ q ≤ 9)
  ∧ (∀ q, is_Some (QBackend.paused_flows st !! q) →
          is_Some (QBackend.last_flows st !! q)).

(** Every command ever handed to a link addresses one of its own pumps. *)
Definition sends_local (st : QBackend.t) : Prop :=
  ∀ w, Forall (local_of w) (PumpLink.sends (QBackend.link w st)).

(** A link with the stop flag set is closed, and an open link has had its
    reader thread started. *)
Definition link_consistent (l : PumpLink.t) : Prop :=
  (PumpLink._stop l = true → PumpLink.ser_open l = false)
  ∧ (PumpLink.ser_open l = true → PumpLink.rx_thread l = true).

(** The frames written are among the commands handed over, in order. *)
Definition wire_requested (l : PumpLink.t) : Prop :=
  (PumpLink.wire l) `sublist_of` (PumpLink.sends l).

(** A wave command with ordered, non-negative flow bounds (so neither is
    NaN) and a duty percentage that is strictly between 0 and 100 unless
    it is NaN. *)
Definition wave_well_formed (c : Cmd) : Prop :=
  match c with
  | CmdWave w =>
      fle (Fin 0) (wave_min_flow w) = true
      ∧ fle (wave_min_flow w) (wave_max_flow w) = true
      ∧ (wave_duty w = NaN
         ∨ flt (Fin 0) (wave_duty w) = true
           ∧ flt (wave_duty w) (Fin 100) = true)
  | _ => True
  end.

(** A line as the reader prints it: not empty, free of line feeds, and
    with no whitespace at either end. *)
Definition printable_line (line : list Byte.byte) : Prop :=
  line ≠ []
  ∧ (Byte.x0a ∉ line)
  ∧ (∀ b, head line = Some b → PumpLink.is_space b = false)
  ∧ (∀ b, last line = Some b → PumpLink.is_space b = false).

(** Both links are shut down. *)
Definition closed_down (st : QBackend.t) : Prop :=
  ∀ w, PumpLink._stop (QBackend.link w st) = true
       ∧ PumpLink.ser_open (QBackend.link w st) = false.

(** * Properties *)

(** ** Comparisons of floats *)

Lemma Qlt_bool_true x y : Qlt_bool x y = true ↔ (x < y)%Q.
Proof.
  unfold Qlt_bool. destruct (Qlt_le_dec x y) as [H|H]; split; try done.
  intros H'. exfalso. apply (Qlt_irrefl x). by apply Qlt_le_trans with y.
Qed.

Lemma Qlt_bool_false x y : Qlt_bool x y = false ↔ (y <= x)%Q.
Proof.
  unfold Qlt_bool. destruct (Qlt_le_dec x y) as [H|H]; split; try done.
  intros H'. exfalso. apply (Qlt_irrefl x). by apply Qlt_le_trans with y.
Qed.

Lemma flt_Fin x y : flt (Fin x) (Fin y) = true ↔ (x < y)%Q.
Proof. apply Qlt_bool_true. Qed.

Lemma fle_Fin x y : fle (Fin x) (Fin y) = true ↔ (x <= y)%Q.
Proof. simpl. rewrite negb_true_iff. apply Qlt_bool_false. Qed.

Lemma fgt_Fin x y : fgt (Fin x) (Fin y) = true ↔ (y < x)%Q.
Proof. apply flt_Fin. Qed.

Lemma fge_Fin x y : fge (Fin x) (Fin y) = true ↔ (y <= x)%Q.
Proof. apply fle_Fin. Qed.

Lemma flt_not_nan a b : flt a b = true → is_nan a = false ∧ is_nan b = false.
Proof. by destruct a, b. Qed.

Lemma fle_not_nan a b : fle a b = true → is_nan a = false ∧ is_nan b = false.
Proof. by destruct a, b. Qed.

Lemma flt_fle a b : flt a b = true → fle a b = true.
Proof.
  destruct a as [x| | |], b as [y| | |]; try done.
  rewrite flt_Fin, fle_Fin. apply Qlt_le_weak.
Qed.

Lemma flt_false_fle a b :
  is_nan a = false → is_nan b = false → flt a b = false → fle b a = true.
Proof.
  destruct a as [x| | |], b as [y| | |]; try done.
  intros _ _ H. simpl in *. by rewrite H.
Qed.

Lemma fle_false_flt a b :
  is_nan a = false → is_nan b = false → fle a b = false → flt b a = true.
Proof.
  destruct a as [x| | |], b as [y| | |]; try done.
  simpl. by rewrite negb_false_iff.
Qed.

Lemma fle_flt_false a b : fle a b = true → flt b a = false.
Proof.
  destruct a as [x| | |], b as [y| | |]; try done.
  simpl. by rewrite negb_true_iff.
Qed.

Lemma flt_fle_false a b : flt a b = true → fle b a = false.
Proof.
  destruct a as [x| | |], b as [y| | |]; try done.
  simpl. intros ->. done.
Qed.


Lemma flt_irrefl a : flt a a = false.
Proof.
  destruct a as [x| | |]; try done.
  apply Qlt_bool_false, Qle_refl.
Qed.

Lemma max0_pos x : fgt x (Fin 0) = true → max0 x = x.
Proof. unfold max0. by intros ->. Qed.

Lemma max0_not_pos x : fgt x (Fin 0) = false → max0 x = Fin 0.
Proof. unfold max0. by intros ->. Qed.

Lemma max0_nonneg x : fle (Fin 0) (max0 x) = true.
Proof.
  unfold max0. destruct (fgt x (Fin 0)) eqn:E; [|done].
  by apply flt_fle.
Qed.

Lemma max0_not_nan x : is_nan (max0 x) = false.
Proof. by destruct (fle_not_nan _ _ (max0_nonneg x)). Qed.

(** From here on the comparisons are only unfolded on demand. *)
Global Arguments flt : simpl never.
Global Arguments fle : simpl never.
Global Arguments fgt : simpl never.
Global Arguments fge : simpl never.
Global Arguments feq : simpl never.

(** ** Construction of the wave command *)

Section wave_frame.
Context (pump : Z) (shape : string).

Lemma ordered_pair a b :
  let r := if flt (max0 b) (max0 a)
           then (max0 b, max0 a) else (max0 a, max0 b) in
  fle (Fin 0) r.1 = true ∧ fle r.1 r.2 = true.
Proof.
  destruct (flt (max0 b) (max0 a)) eqn:E; simpl;
    (split; [by apply max0_nonneg|]).
  - by apply flt_fle.
  - apply flt_false_fle; auto using max0_not_nan.
Qed.

Lemma wave_bounds_ordered mn mx base :
  fle (Fin 0) (PumpLink.wave_bounds mn mx base).1 = true
  ∧ fle (PumpLink.wave_bounds mn mx base).1
        (PumpLink.wave_bounds mn mx base).2 = true.
Proof.
  unfold PumpLink.wave_bounds.
  destruct mn as [m|], mx as [x|], base as [b|];
    cbv beta iota zeta delta [default]; apply ordered_pair.
Qed.

Lemma frame_bounds_start_wave period duty mn mx base :
  frame_bounds (PumpLink.start_wave_frame pump shape period duty mn mx base)
  = PumpLink.wave_bounds mn mx base.
Proof.
  unfold PumpLink.start_wave_frame, frame_bounds.
  by destruct (PumpLink.wave_bounds mn mx base).
Qed.

(** C1 (as stated, refuted): with min_flow = 5 and max_flow missing the
    command does not carry min = 0 and max = 5; the missing max takes the
    value of min, so both bounds are 5. *)
Lemma start_wave_missing_max_counterexample :
  ¬ (feq (wave_min_flow
            (PumpLink.start_wave_frame 1 "Square" (Fin 10) (Fin (1 # 2))
               (Some (Fin 5)) None None)) (Fin 0) = true
     ∧ feq (wave_max_flow
              (PumpLink.start_wave_frame 1 "Square" (Fin 10) (Fin (1 # 2))
                 (Some (Fin 5)) None None)) (Fin 5) = true).
Proof. intros [H _]. vm_compute in H. discriminate. Qed.

(** C1 (amended): the bounds of the command built by [start_wave] follow
    the rule of section 4.5 of the specification, except that a missing
    max_flow next to a supplied min_flow takes the value of min_flow (both
    bounds are then the clamped min_flow); in every case the bounds are
    non-negative and ordered. *)
Theorem start_wave_bounds_rule period duty (mn mx base : option pyfloat) :
  frame_bounds (PumpLink.start_wave_frame pump shape period duty mn mx base)
  = match mn, mx with
    | Some m, None => (max0 m, max0 m)
    | _, _ => spec_wave_bounds mn mx base
    end
  ∧ fle (Fin 0)
        (wave_min_flow
           (PumpLink.start_wave_frame pump shape period duty mn mx base))
    = true
  ∧ fle (wave_min_flow
           (PumpLink.start_wave_frame pump shape period duty mn mx base))
        (wave_max_flow
           (PumpLink.start_wave_frame pump shape period duty mn mx base))
    = true.
Proof.
  split.
  - rewrite frame_bounds_start_wave.
    unfold PumpLink.wave_bounds, spec_wave_bounds.
    destruct mn as [m|], mx as [x|], base as [b|]; simpl; try reflexivity;
      by rewrite flt_irrefl.
  - pose proof (wave_bounds_ordered mn mx base) as H.
    rewrite <- (frame_bounds_start_wave period duty) in H. exact H.
Qed.

End wave_frame.

Section wave_duty.
Context (pump : Z) (shape : string).

Lemma wave_duty_fraction_low d :
  fle d (Fin 0) = true → PumpLink.wave_duty_fraction d = Fin (1 # 2).
Proof. intros Hd. unfold PumpLink.wave_duty_fraction. by rewrite Hd. Qed.

Lemma wave_duty_fraction_high d :
  fge d (Fin 1) = true → PumpLink.wave_duty_fraction d = Fin (99 # 100).
Proof.
  intros Hd. unfold PumpLink.wave_duty_fraction.
  assert (fle d (Fin 0) = false) as ->; [|by rewrite Hd].
  destruct d as [q| | |]; try done.
  apply fge_Fin in Hd. simpl. apply negb_false_iff, Qlt_bool_true.
  by apply Qlt_le_trans with 1%Q.
Qed.

Lemma wave_duty_fraction_mid d :
  fgt d (Fin 0) = true → flt d (Fin 1) = true →
  PumpLink.wave_duty_fraction d = d.
Proof.
  intros H0 H1. unfold PumpLink.wave_duty_fraction, fge.
  by rewrite (flt_fle_false _ _ H0), (flt_fle_false _ _ H1).
Qed.

Lemma wave_duty_fraction_open d :
  is_nan d = false →
  flt (Fin 0) (PumpLink.wave_duty_fraction d) = true
  ∧ flt (PumpLink.wave_duty_fraction d) (Fin 1) = true.
Proof.
  intros Hd.
  destruct (fle d (Fin 0)) eqn:H0.
  { by rewrite wave_duty_fraction_low. }
  destruct (fge d (Fin 1)) eqn:H1.
  { by rewrite wave_duty_fraction_high. }
  apply fle_false_flt in H0; [|done..].
  unfold fge in H1. apply fle_false_flt in H1; [|done..].
  by rewrite wave_duty_fraction_mid.
Qed.

Lemma wave_duty_start_wave period d mn mx base :
  wave_duty (PumpLink.start_wave_frame pump shape period d mn mx base)
  = times100 (PumpLink.wave_duty_fraction d).
Proof.
  unfold PumpLink.start_wave_frame.
  by destruct (PumpLink.wave_bounds mn mx base).
Qed.


End wave_duty.



(** ** The link: open, close and _send *)

Section link.
Implicit Types (l : PumpLink.t) (c : Cmd) (cs : list Cmd).

Lemma open_loop_stopped attempts l :
  PumpLink._stop l = true →
  PumpLink.open_loop attempts l
  = Some (false, PumpLink.mk (PumpLink.port l) (PumpLink.baud l)
                   (PumpLink.ser_open l) true (PumpLink.rx_thread l)
                   attempts (PumpLink.wire l) (PumpLink.sends l)).
Proof. intros Hs. destruct attempts; simpl; by rewrite Hs. Qed.

Lemma open_loop_connects fails rest l :
  PumpLink._stop l = false →
  PumpLink.open_loop (replicate fails false ++ true :: rest) l
  = Some (true, PumpLink.mk (PumpLink.port l) (PumpLink.baud l) true false true
                  rest (PumpLink.wire l) (PumpLink.sends l)).
Proof.
  intros Hs. induction fails as [|n IH]; simpl; rewrite Hs; [done | exact IH].
Qed.

(** What a returning retry loop has done. *)
Lemma open_loop_inv attempts l ok l' :
  PumpLink.open_loop attempts l = Some (ok, l') →
  ok = negb (PumpLink._stop l)
  ∧ PumpLink._stop l' = PumpLink._stop l
  ∧ PumpLink.ser_open l' = ok || PumpLink.ser_open l
  ∧ PumpLink.wire l' = PumpLink.wire l
  ∧ PumpLink.sends l' = PumpLink.sends l
  ∧ (ok = true → ∃ fails, attempts = replicate fails false ++ true :: PumpLink.line l')
  ∧ (ok = false → PumpLink.line l' = attempts).
Proof.
  induction attempts as [|a rest IH]; simpl.
  - destruct (PumpLink._stop l) eqn:Hs; [|done].
    intros [= <- <-]; simpl. by repeat split.
  - destruct (PumpLink._stop l) eqn:Hs.
    + intros [= <- <-]; simpl. by repeat split.
    + destruct a.
      * intros [= <- <-]; simpl. do 5 (split; [done|]). split; [|done].
        intros _. by exists 0%nat.
      * intros H. destruct (IH H) as (-> & ? & ? & ? & ? & Hok & Hno).
        do 5 (split; [done|]). split; [|done].
        intros _. destruct (Hok eq_refl) as [n ->]. by exists (S n).
Qed.

Lemma open_loop_returns attempts l :
  PumpLink._stop l || bool_decide (true ∈ attempts) = true →
  is_Some (PumpLink.open_loop attempts l).
Proof.
  destruct (PumpLink._stop l) eqn:Hs.
  - intros _. rewrite open_loop_stopped; eauto.
  - simpl. intros Hin%bool_decide_eq_true.
    induction attempts as [|a rest IH]; [by apply elem_of_nil in Hin|].
    simpl. rewrite Hs. destruct a; [eauto|].
    apply IH. by apply elem_of_cons in Hin as [|].
Qed.

Lemma open_returns l :
  PumpLink.responsive l = true → is_Some (PumpLink.open l).
Proof.
  unfold PumpLink.responsive, PumpLink.open.
  destruct (PumpLink.ser_open l); [eauto|]. simpl. apply open_loop_returns.
Qed.

Lemma open_false_only_if_stopped l l' :
  PumpLink.open l = Some (false, l') → PumpLink._stop l = true.
Proof.
  unfold PumpLink.open. destruct (PumpLink.ser_open l); [done|].
  intros (E & _)%open_loop_inv. by destruct (PumpLink._stop l).
Qed.

Lemma open_closed_stopped l :
  PumpLink._stop l = true → PumpLink.ser_open l = false →
  PumpLink.open l = Some (false, l).
Proof.
  intros Hs Ho. unfold PumpLink.open. rewrite Ho, open_loop_stopped by done.
  destruct l; simpl in *; by subst.
Qed.

Lemma sent_refl l : PumpLink.sent l l [].
Proof.
  split; try done; [by rewrite app_nil_r | ].
  destruct (PumpLink.ser_open l); by rewrite app_nil_r.
Qed.

Lemma settled_responsive l :
  PumpLink.settled l = true → PumpLink.responsive l = true.
Proof.
  unfold PumpLink.settled, PumpLink.responsive. intros ->. done.
Qed.

Lemma sent_trans l1 l2 l3 cs1 cs2 :
  PumpLink.sent l1 l2 cs1 → PumpLink.sent l2 l3 cs2 →
  PumpLink.sent l1 l3 (cs1 ++ cs2).
Proof.
  intros [S1 W1 St1 Se1 Sd1 R1] [S2 W2 St2 Se2 Sd2 R2].
  assert (PumpLink.settled l1 = true → PumpLink.settled l2 = true) as Hk.
  { unfold PumpLink.settled. intros H. by rewrite Sd1, St1. }
  split.
  - by rewrite S2, S1, app_assoc.
  - rewrite W2, W1, <- app_assoc. f_equal.
    destruct cs1 as [|c cs1].
    + simpl. by destruct (PumpLink.ser_open l2).
    + rewrite <- (Sd2 (Se1 ltac:(done))).
      by destruct (PumpLink.ser_open l3).
  - by rewrite St2.
  - intros Hne. destruct cs2 as [|c cs2].
    + rewrite app_nil_r in Hne. specialize (Se1 Hne).
      unfold PumpLink.settled in *. by rewrite (Sd2 Se1), St2.
    + by apply Se2.
  - intros H. by rewrite (Sd2 (Hk H)), Sd1.
  - eauto.
Qed.

(** One call of [_send]. *)
Lemma _send_sent c l l' :
  PumpLink._send c l = Some l' → PumpLink.sent l l' [c].
Proof.
  unfold PumpLink._send, PumpLink.open. simpl.
  destruct (PumpLink.ser_open l) eqn:Ho.
  - intros [= <-].
    split; unfold PumpLink.settled, PumpLink.responsive; simpl;
      rewrite ?Ho; done.
  - destruct (PumpLink.open_loop _ _) as [[ok l1]|] eqn:E; [|done]. simpl.
    apply open_loop_inv in E as (Hok & Hs & Hser & Hw & Hsd & Hl1 & Hl0).
    simpl in *. rewrite Ho, orb_false_r in Hser.
    destruct (PumpLink._stop l) eqn:Hst; simpl in Hok; subst ok;
      intros [= <-];
      split; unfold PumpLink.settled, PumpLink.responsive; simpl;
      rewrite ?Hser, ?Hs, ?Ho, ?Hw, ?Hsd, ?Hst, ?app_nil_r; done.
Qed.

Lemma _send_returns c l :
  PumpLink.responsive l = true → is_Some (PumpLink._send c l).
Proof.
  intros Hr. unfold PumpLink._send. simpl.
  destruct (PumpLink.ser_open l) eqn:Ho; [eauto|].
  assert (is_Some (PumpLink.open (PumpLink.log_send c l))) as [[ok l1] E].
  { apply open_returns. by unfold PumpLink.responsive in *. }
  rewrite E. simpl. destruct ok; eauto.
Qed.

Lemma close_stops l :
  PumpLink._stop (PumpLink.close l) = true
  ∧ PumpLink.ser_open (PumpLink.close l) = false.
Proof. done. Qed.

End link.

(** C2 (as stated, refuted): on a port whose next connection attempt would
    succeed, [open] connects and returns true, but once [close] has been
    called the same [open] returns false. *)
Lemma open_after_close_counterexample :
  (∃ l', PumpLink.open (PumpLink.create "COM4" 115200 [true]) = Some (true, l'))
  ∧ ¬ (∃ l', PumpLink.open
               (PumpLink.close (PumpLink.create "COM4" 115200 [true]))
             = Some (true, l')).
Proof.
  split; [by eexists|]. intros [l' H]. vm_compute in H. discriminate.
Qed.

(** C2 (amended): [open] on an open link returns true at once; on a link
    that was never closed it returns true as soon as a connection attempt
    succeeds, however many failed before; [close] sets the stop flag, no
    call of [open] or [_send] clears it, and on a closed link with the stop
    flag set [open] makes no connection attempt and returns false; [open]
    returns false only when the stop flag is set. *)
Theorem open_close_lifecycle (l : PumpLink.t) :
  (PumpLink.ser_open l = true → PumpLink.open l = Some (true, l))
  ∧ (∀ fails rest,
       PumpLink.ser_open l = false → PumpLink._stop l = false →
       PumpLink.line l = replicate fails false ++ true :: rest →
       ∃ l', PumpLink.open l = Some (true, l')
             ∧ PumpLink.ser_open l' = true ∧ PumpLink._stop l' = false
             ∧ PumpLink.line l' = rest)
  ∧ (PumpLink._stop (PumpLink.close l) = true
     ∧ PumpLink.ser_open (PumpLink.close l) = false
     ∧ PumpLink.open (PumpLink.close l) = Some (false, PumpLink.close l))
  ∧ (PumpLink._stop l = true →
       (PumpLink.ser_open l = false → PumpLink.open l = Some (false, l))
       ∧ (∀ ok l', PumpLink.open l = Some (ok, l') →
                   PumpLink._stop l' = true
                   ∧ PumpLink.ser_open l' = PumpLink.ser_open l)
       ∧ (∀ c l', PumpLink._send c l = Some l' →
                  PumpLink._stop l' = true
                  ∧ PumpLink.ser_open l' = PumpLink.ser_open l))
  ∧ (∀ l', PumpLink.open l = Some (false, l') → PumpLink._stop l = true).
Proof.
  split; [|split; [|split; [|split]]].
  - intros Ho. unfold PumpLink.open. by rewrite Ho.
  - intros fails rest Ho Hs Hl. unfold PumpLink.open.
    rewrite Ho, Hl, open_loop_connects by done. by eexists.
  - repeat split. by apply open_closed_stopped.
  - intros Hs. split; [by apply open_closed_stopped|]. split.
    + intros ok l'. unfold PumpLink.open.
      destruct (PumpLink.ser_open l) eqn:Ho; [by intros [= <- <-]|].
      intros (-> & E1 & E2 & _)%open_loop_inv.
      by rewrite E1, E2, Hs, Ho.
    + intros c l' H. apply _send_sent in H as [_ _ St _ Sd _].
      split; [congruence|].
      apply Sd. unfold PumpLink.settled. by rewrite Hs, orb_true_r.
  - apply open_false_only_if_stopped.
Qed.

(** A port that fails twice and then connects, and the same link after
    [close]. *)
Lemma open_close_lifecycle_witness :
  (∃ l', PumpLink.open (PumpLink.create "COM4" 115200 [false; false; true])
         = Some (true, l')
         ∧ PumpLink.ser_open l' = true ∧ PumpLink._stop l' = false
         ∧ PumpLink.line l' = [])
  ∧ PumpLink.open (PumpLink.close (PumpLink.create "COM4" 115200 [true]))
    = Some (false, PumpLink.close (PumpLink.create "COM4" 115200 [true])).
Proof.
  split.
  - apply (proj1 (proj2 (open_close_lifecycle
             (PumpLink.create "COM4" 115200 [false; false; true]))) 2%nat []);
      reflexivity.
  - apply (proj1 (proj2 (proj2 (proj2 (open_close_lifecycle
             (PumpLink.close (PumpLink.create "COM4" 115200 [true]))))))).
    + reflexivity.
    + reflexivity.
Defined.

(** ** Routing *)

Section routing.
Implicit Types (st : QBackend.t) (p local : Z) (which : LinkId).

Local Ltac pick_route :=
  first [ left; split; [reflexivity | vm_compute; reflexivity]
        | right; pick_route ].

Lemma route_cases p :
  (p = 1 ∧ QBackend.route p = Some (LinkA, 1))
  ∨ (p = 2 ∧ QBackend.route p = Some (LinkB, 1))
  ∨ (p = 3 ∧ QBackend.route p = Some (LinkB, 2))
  ∨ (p = 4 ∧ QBackend.route p = Some (LinkA, 2))
  ∨ (p = 5 ∧ QBackend.route p = Some (LinkA, 3))
  ∨ (p = 6 ∧ QBackend.route p = Some (LinkB, 3))
  ∨ (p = 7 ∧ QBackend.route p = Some (LinkA, 4))
  ∨ (p = 8 ∧ QBackend.route p = Some (LinkA, 5))
  ∨ (p = 9 ∧ QBackend.route p = Some (LinkB, 4))
  ∨ (¬ (1 ≤ p ≤ 9) ∧ QBackend.route p = None).
Proof.
  destruct (decide (1 ≤ p ≤ 9)) as [Hp|Hp].
  - assert (p = 1 ∨ p = 2 ∨ p = 3 ∨ p = 4 ∨ p = 5 ∨ p = 6 ∨ p = 7 ∨ p = 8 ∨ p = 9)
      as Hc by lia.
    repeat (destruct Hc as [->|Hc]; [pick_route|]); subst; pick_route.
  - do 9 right. split; [done|].
    unfold QBackend.route, QBackend.PUMP_MAP_A, QBackend.PUMP_MAP_B. simpl.
    rewrite !lookup_insert_ne, !lookup_empty by lia. done.
Qed.

Lemma route_valid p which local :
  QBackend.route p = Some (which, local) → 1 ≤ p ≤ 9.
Proof.
  intros H. destruct (route_cases p) as
    [[-> _]|[[-> _]|[[-> _]|[[-> _]|[[-> _]|[[-> _]|[[-> _]|[[-> _]|[[-> _]|[_ E]]]]]]]]]];
    try lia. congruence.
Qed.

Lemma route_is_Some p : 1 ≤ p ≤ 9 → is_Some (QBackend.route p).
Proof.
  intros H. destruct (route_cases p) as
    [[_ E]|[[_ E]|[[_ E]|[[_ E]|[[_ E]|[[_ E]|[[_ E]|[[_ E]|[[_ E]|[? _]]]]]]]]]];
    rewrite ?E; eauto. done.
Qed.

Lemma route_None p : ¬ (1 ≤ p ≤ 9) → QBackend.route p = None.
Proof.
  intros H. destruct (QBackend.route p) as [[w l]|] eqn:E; [|done].
  by apply route_valid in E.
Qed.

(** Two pumps never share a link and a local id. *)
Lemma route_inj p q which local :
  QBackend.route p = Some (which, local) →
  QBackend.route q = Some (which, local) → p = q.
Proof.
  intros Hp Hq.
  destruct (route_cases p) as
    [[-> E]|[[-> E]|[[-> E]|[[-> E]|[[-> E]|[[-> E]|[[-> E]|[[-> E]|[[-> E]|[_ E]]]]]]]]]];
    rewrite E in Hp; try done;
    destruct (route_cases q) as
    [[-> F]|[[-> F]|[[-> F]|[[-> F]|[[-> F]|[[-> F]|[[-> F]|[[-> F]|[[-> F]|[_ F]]]]]]]]]];
    rewrite F in Hq; congruence.
Qed.

Lemma _route_pump_route p st :
  QBackend._route_pump p st
  = match QBackend.route p with
    | Some r => (Some r, st)
    | None => (None, QBackend._set_error ("Invalid pump id " +:+ pretty p) st)
    end.
Proof.
  unfold QBackend._route_pump, QBackend.route.
  destruct (QBackend.PUMP_MAP_A !! p); [done|].
  by destruct (QBackend.PUMP_MAP_B !! p).
Qed.

Lemma _route_pump_fst p st : (QBackend._route_pump p st).1 = QBackend.route p.
Proof. rewrite _route_pump_route. by destruct (QBackend.route p). Qed.

End routing.

(** ** The slots as compositions of elementary state changes *)

Section prims.
Implicit Types (st : QBackend.t) (p local : Z) (which : LinkId).

Lemma link_set_link which which' l st :
  QBackend.link which' (QBackend.set_link which l st)
  = if decide (which = which') then l else QBackend.link which' st.
Proof. by destruct which, which'. Qed.

Lemma link_set_link_eq which l st :
  QBackend.link which (QBackend.set_link which l st) = l.
Proof. by destruct which. Qed.

Lemma link__set_error which msg st :
  QBackend.link which (QBackend._set_error msg st) = QBackend.link which st.
Proof. unfold QBackend._set_error. case_decide; by destruct which. Qed.

Lemma last_flows__set_error msg st :
  QBackend.last_flows (QBackend._set_error msg st) = QBackend.last_flows st.
Proof. unfold QBackend._set_error. by case_decide. Qed.

Lemma paused_flows__set_error msg st :
  QBackend.paused_flows (QBackend._set_error msg st) = QBackend.paused_flows st.
Proof. unfold QBackend._set_error. by case_decide. Qed.

Lemma _last_error__set_error msg st :
  QBackend._last_error (QBackend._set_error msg st) = msg.
Proof. unfold QBackend._set_error. by case_decide. Qed.

Lemma emitted__set_error msg st :
  QBackend.emitted (QBackend._set_error msg st)
  = QBackend.emitted st
    ++ (if decide (msg = QBackend._last_error st) then []
        else [lastErrorChanged msg]).
Proof.
  unfold QBackend._set_error. case_decide; simpl; by rewrite ?app_nil_r.
Qed.

Lemma on_link_Some which f st st' :
  QBackend.on_link which f st = Some st' ↔
  ∃ l', f (QBackend.link which st) = Some l' ∧ st' = QBackend.set_link which l' st.
Proof.
  unfold QBackend.on_link. rewrite bind_Some.
  split; intros (l' & ? & ?); exists l'; split; congruence.
Qed.

Lemma for_each_cons {A} (body : A → QBackend.t → option QBackend.t) x xs st st' :
  QBackend.for_each body (x :: xs) st = Some st' ↔
  ∃ st1, body x st = Some st1 ∧ QBackend.for_each body xs st1 = Some st'.
Proof. simpl. by rewrite bind_Some. Qed.

Lemma for_each_app {A} (body : A → QBackend.t → option QBackend.t) xs ys st :
  QBackend.for_each body (xs ++ ys) st
  = QBackend.for_each body xs st ≫= QBackend.for_each body ys.
Proof.
  revert st. induction xs as [|x xs IH]; intros st; simpl; [done|].
  destruct (body x st) as [st1|]; simpl; [apply IH | done].
Qed.

(** A loop whose body keeps an invariant that makes it return, returns. *)
Lemma for_each_returns {A} (I : QBackend.t → Prop)
    (body : A → QBackend.t → option QBackend.t) xs st :
  (∀ x st, I st → ∃ st', body x st = Some st' ∧ I st') →
  I st → ∃ st', QBackend.for_each body xs st = Some st' ∧ I st'.
Proof.
  intros Hbody. revert st. induction xs as [|x xs IH]; intros st HI; simpl.
  - eauto.
  - destruct (Hbody x st HI) as (st1 & -> & HI1). simpl. by apply IH.
Qed.

Lemma for_each_prims {A} (body : A → QBackend.t → option QBackend.t) xs st st' :
  (∀ x st st', body x st = Some st' → rtc prim st st') →
  QBackend.for_each body xs st = Some st' → rtc prim st st'.
Proof.
  intros Hbody. revert st. induction xs as [|x xs IH]; intros st; simpl.
  - by intros [= ->].
  - rewrite bind_Some. intros (st1 & H1 & H2).
    etrans; [by eapply Hbody | by apply IH].
Qed.

Lemma on_link_send_prims which c st st' :
  link_built c →
  QBackend.on_link which (PumpLink._send c) st = Some st' → rtc prim st st'.
Proof.
  intros Hc (l' & H & ->)%on_link_Some. apply rtc_once. by eapply prim_send.
Qed.

Lemma _route_pump_prims p st : rtc prim st (QBackend._route_pump p st).2.
Proof.
  rewrite _route_pump_route. destruct (QBackend.route p); simpl; [done|].
  apply rtc_once. constructor.
Qed.

Lemma start_wave_built pump shape period duty mn mx base :
  link_built (CmdWave (PumpLink.start_wave_frame pump shape period duty mn mx base)).
Proof. simpl. by do 7 eexists. Qed.

Lemma open_prims st ok st' : QBackend.open st = Some (ok, st') → rtc prim st st'.
Proof.
  unfold QBackend.open. rewrite bind_Some. intros ([okA la] & HA & H).
  rewrite bind_Some in H. destruct H as ([okB lb] & HB & H).
  eapply rtc_l; [by eapply (prim_open LinkA)|].
  eapply rtc_l; [by eapply (prim_open LinkB)|].
  eapply rtc_l; [by apply (prim_connection (okA && okB))|].
  destruct (okA && okB); injection H as _ <-; apply rtc_once; constructor.
Qed.

Lemma close_prims st : rtc prim st (QBackend.close st).
Proof.
  unfold QBackend.close. simpl.
  eapply rtc_l; [apply (prim_close LinkA)|].
  eapply rtc_l; [apply (prim_close LinkB)|].
  apply rtc_once. constructor.
Qed.

Local Ltac route_split p st :=
  rewrite (_route_pump_route p st);
  let w := fresh "w" in let local := fresh "local" in
  destruct (QBackend.route p) as [[w local]|] eqn:?;
  [| intros [= <-]; apply rtc_once; constructor ].

Local Ltac send_prims H :=
  eapply on_link_send_prims; [|exact H]; first [done | apply start_wave_built].

Lemma stop_all_prims st st' : QBackend.stopAll st = Some st' → rtc prim st st'.
Proof.
  apply for_each_prims. intros w s s'. by apply on_link_send_prims.
Qed.

(** Every slot is a sequence of elementary changes. *)
Lemma exec_prims c st st' : QBackend.exec c st = Some st' → rtc prim st st'.
Proof.
  destruct c; simpl.
  - rewrite fmap_Some. intros ([ok s] & H & ->). by eapply open_prims.
  - intros [= <-]. apply close_prims.
  - by intros [= <-].
  - unfold QBackend.prime. route_split pump st.
    by apply on_link_send_prims.
  - unfold QBackend.stop. route_split pump st.
    rewrite bind_Some. intros (s1 & H1 & H2).
    etrans; [send_prims H1 | send_prims H2].
  - apply stop_all_prims.
  - apply stop_all_prims.
  - unfold QBackend.set_flow. route_split pump st.
    intros H. eapply rtc_l; [apply prim_last_flows|]. send_prims H.
  - unfold QBackend.pauseAll. intros H.
    eapply rtc_l; [apply prim_paused_flows|]. by apply stop_all_prims.
  - unfold QBackend.pause_all, QBackend.pauseAll. intros H.
    eapply rtc_l; [apply prim_paused_flows|]. by apply stop_all_prims.
  - apply for_each_prims. intros p s s'. unfold QBackend.pausePumps_body.
    cbv beta zeta.
    set (s1 := match QBackend.last_flows s !! p with
               | Some f => _ | None => s end).
    assert (rtc prim s s1) as H1.
    { subst s1. destruct (_ !! p); [apply rtc_once; constructor | done]. }
    pose proof (_route_pump_prims p s1) as H2.
    destruct (QBackend._route_pump p s1) as [[[w local]|] s2]; simpl in *.
    + intros H. etrans; [exact H1|]. etrans; [exact H2|]. send_prims H.
    + intros [= <-]. by etrans.
  - unfold QBackend.resumePumps. rewrite bind_Some. intros (s1 & H1 & H2).
    etrans.
    + eapply for_each_prims; [|exact H1]. intros p s s'.
      unfold QBackend.resumePumps_restore. cbv beta zeta.
      destruct (fgt (QBackend.restore_flow s p) (Fin 0)); [|by intros [= <-]].
      route_split p s.
      rewrite bind_Some. intros (s2 & E1 & [= <-]).
      etrans; [send_prims E1|]. apply rtc_once. constructor.
    + eapply for_each_prims; [|exact H2]. intros p s s' [= <-].
      apply rtc_once. constructor.
  - unfold QBackend.startAutomation.
    destruct (startswith _ "constant"); [by intros [= <-]|].
    destruct (negb _); [by intros [= <-]|].
    apply for_each_prims. intros p s s'.
    unfold QBackend.startAutomation_body. cbv beta zeta.
    destruct (fle _ (Fin 0)); [by intros [= <-]|].
    route_split p s.
    intros H. send_prims H.
  - unfold QBackend.startWaveForPump. route_split pump st.
    intros H.
    destruct (fgt maxFlow (Fin 0)).
    + eapply rtc_l; [apply prim_last_flows|]. send_prims H.
    + send_prims H.
  - unfold QBackend.set_calibration. rewrite (_route_pump_route pump st).
    destruct (QBackend.route pump) as [[w local]|]; intros [= <-]; [done|].
    apply rtc_once. constructor.
Qed.

(** An invariant of every elementary change holds in every reachable
    state. *)
Lemma reachable_ind (P : QBackend.t → Prop) :
  (∀ portA portB lineA lineB, P (QBackend.create portA portB lineA lineB)) →
  (∀ st st', P st → prim st st' → P st') →
  ∀ st, QBackend.reachable st → P st.
Proof.
  intros Hinit Hstep st (pa & pb & la & lb & cs & Hrun).
  assert (∀ cs s s', P s → QBackend.run cs s = Some s' → P s') as Hruns.
  { clear -Hstep. induction cs as [|c cs IH]; intros s s' Hs; simpl.
    - by intros [= <-].
    - rewrite bind_Some. intros (s1 & H1 & H2).
      apply (IH s1); [|done].
      apply exec_prims in H1. clear H2. induction H1; eauto. }
  eapply Hruns; [apply Hinit | exact Hrun].
Qed.

End prims.

(** ** Wave periods on the wire *)

Section wave_period.
Implicit Types (st : QBackend.t) (l : PumpLink.t) (c : Cmd).

Lemma wave_period_of_pos period :
  fgt (PumpLink.wave_period_of period) (Fin 0) = true.
Proof.
  unfold PumpLink.wave_period_of. by destruct (fgt period (Fin 0)) eqn:E.
Qed.

Lemma wave_period_of_nonpos period :
  fgt period (Fin 0) = false → PumpLink.wave_period_of period = Fin 1.
Proof. intros Hp. unfold PumpLink.wave_period_of. by rewrite Hp. Qed.

Lemma wave_period_start_wave pump shape period duty mn mx base :
  wave_period (PumpLink.start_wave_frame pump shape period duty mn mx base)
  = PumpLink.wave_period_of period.
Proof.
  unfold PumpLink.start_wave_frame. by destruct (PumpLink.wave_bounds mn mx base).
Qed.

Lemma link_built_wave_ok c : link_built c → wave_ok c.
Proof.
  destruct c as [| | | |w]; simpl; try done.
  intros (pump & shape & period & duty & mn & mx & base & ->).
  rewrite wave_period_start_wave. apply wave_period_of_pos.
Qed.

Lemma open_logs l ok l' :
  PumpLink.open l = Some (ok, l') →
  PumpLink.wire l' = PumpLink.wire l ∧ PumpLink.sends l' = PumpLink.sends l.
Proof.
  unfold PumpLink.open. destruct (PumpLink.ser_open l); [by intros [= _ <-]|].
  intros H. by apply open_loop_inv in H as (_ & _ & _ & -> & -> & _).
Qed.

Lemma prim_logs_ok st st' : logs_ok st → prim st st' → logs_ok st'.
Proof.
  intros Hok Hp which. specialize (Hok which).
  destruct Hp as [m st|m st|msg st|ok st|w c l' st Hc Hs|w ok l' st Ho|w st].
  - by destruct which.
  - by destruct which.
  - by rewrite link__set_error.
  - by destruct which.
  - rewrite link_set_link. case_decide as E; [subst w|done].
    apply _send_sent in Hs as [-> -> _ _ _ _]. destruct Hok as [H1 H2].
    apply link_built_wave_ok in Hc.
    split; apply Forall_app; split; try done;
      [|destruct (PumpLink.ser_open l')]; by repeat constructor.
  - rewrite link_set_link. case_decide as E; [subst w|done].
    apply open_logs in Ho as [-> ->]. done.
  - rewrite link_set_link. case_decide as E; [subst w|done]. done.
Qed.

Lemma reachable_logs_ok st : QBackend.reachable st → logs_ok st.
Proof.
  revert st. apply reachable_ind.
  - intros ???? which. by destruct which.
  - intros st st'. apply prim_logs_ok.
Qed.

(** C10: [start_wave] with a period <= 0 (or any other period that fails
    the test [period_sec > 0], which is the case of NaN) hands a wave
    command with period 1 to [_send]; and in every reachable state of the
    controller, every wave command handed to a link or written to its port
    has a period strictly greater than 0. *)
Theorem wave_period_positive :
  (∀ pump shape period duty mn mx base l l',
     fle period (Fin 0) = true ∨ fgt period (Fin 0) = false →
     PumpLink.start_wave pump shape period duty mn mx base l = Some l' →
     ∃ w, PumpLink.sends l' = PumpLink.sends l ++ [CmdWave w]
          ∧ PumpLink.wire l'
            = PumpLink.wire l ++ (if PumpLink.ser_open l' then [CmdWave w] else [])
          ∧ wave_period w = Fin 1)
  ∧ (∀ st which w,
       QBackend.reachable st →
       CmdWave w ∈ PumpLink.sends (QBackend.link which st)
       ∨ CmdWave w ∈ PumpLink.wire (QBackend.link which st) →
       fgt (wave_period w) (Fin 0) = true).
Proof.
  split.
  - intros pump shape period duty mn mx base l l' Hp Hs.
    assert (fgt period (Fin 0) = false) as Hp'.
    { destruct Hp as [Hp|Hp]; [by apply fle_flt_false | done]. }
    apply _send_sent in Hs as [-> -> _ _ _ _].
    eexists. split; [done|]. split; [done|].
    rewrite wave_period_start_wave. by apply wave_period_of_nonpos.
  - intros st which w Hr Hin.
    destruct (reachable_logs_ok st Hr which) as [H1 H2].
    rewrite Forall_forall in H1, H2.
    destruct Hin as [Hin|Hin]; [apply (H1 _ Hin) | apply (H2 _ Hin)].
Qed.

End wave_period.

(** An automation call with period 0 on a fresh controller whose ports
    connect at once: the wave on the wire has period 1. *)
Lemma wave_period_positive_witness :
  (∃ w, PumpLink.sends (PumpLink.mk "COM4" 115200 true false true [] [] [])
        ++ [CmdWave w]
        = [CmdWave (mkWave 2 "Square" (Fin 1) (Fin (100 # 2)) (Fin 0)
                      (Fin 30))]
        ∧ wave_period w = Fin 1)
  ∧ fgt (wave_period (mkWave 2 "Square" (Fin 1) (Fin (100 # 2)) (Fin 0)
                        (Fin 30))) (Fin 0) = true.
Proof.
  split.
  - destruct (proj1 wave_period_positive 2 "Square" (Fin 0) (Fin (1 # 2))
                (Some (Fin 0)) (Some (Fin 30)) None
                (PumpLink.mk "COM4" 115200 true false true [] [] [])
                (PumpLink.mk "COM4" 115200 true false true []
                   [CmdWave (mkWave 2 "Square" (Fin 1) (Fin (100 # 2))
                               (Fin 0) (Fin 30))]
                   [CmdWave (mkWave 2 "Square" (Fin 1) (Fin (100 # 2))
                               (Fin 0) (Fin 30))]))
      as (w & Hs & _ & Hw); [by left; vm_compute | reflexivity |].
    exists w. split; [symmetry; exact Hs | exact Hw].
  - apply (proj2 wave_period_positive
             (QBackend.mk
                (PumpLink.mk "COM4" 115200 true false true []
                   [CmdFlow 2 (Fin 30);
                    CmdWave (mkWave 2 "Square" (Fin 1) (Fin (100 # 2))
                               (Fin 0) (Fin 30))]
                   [CmdFlow 2 (Fin 30);
                    CmdWave (mkWave 2 "Square" (Fin 1) (Fin (100 # 2))
                               (Fin 0) (Fin 30))])
                (PumpLink.create "COM6" 115200 [true])
                {[4 := Fin 30]} ∅ "" [])
             LinkA).
    + exists "COM4", "COM6", [true], [true],
        [QBackend.call_set_flow 4 (Fin 30);
         QBackend.call_startAutomation [4] "Pulsatile" "Square" (Fin 1)
           (Fin 0) (Fin (1 # 2))].
      vm_compute. reflexivity.
    + left. simpl. apply list_elem_of_In. right. left. reflexivity.
Defined.

(** ** Error notifications *)

Section errors.
Implicit Types (st : QBackend.t) (l : PumpLink.t) (msg : string).

Lemma error_texts_app sigs1 sigs2 :
  error_texts (sigs1 ++ sigs2) = error_texts sigs1 ++ error_texts sigs2.
Proof. apply omap_app. Qed.

Lemma no_consecutive_repeat_snoc (texts : list string) m :
  no_consecutive_repeat texts →
  (∀ a, last texts = Some a → a ≠ m) →
  no_consecutive_repeat (texts ++ [m]).
Proof.
  intros Hl Hlast i a b Ha Hb.
  destruct (decide (S i < length texts)%nat) as [Hlt|Hge].
  - rewrite lookup_app_l in Ha, Hb by lia. by eapply Hl.
  - assert (S i = length texts) as Hi.
    { apply lookup_lt_Some in Hb. rewrite length_app in Hb. simpl in Hb. lia. }
    rewrite lookup_app_l in Ha by lia.
    rewrite lookup_app_r, Hi, Nat.sub_diag in Hb by lia.
    injection Hb as <-. apply Hlast.
    rewrite last_lookup. rewrite <- Hi. exact Ha.
Qed.

Lemma prim_errors_ok st st' : errors_ok st → prim st st' → errors_ok st'.
Proof.
  intros [Hrep Hlast] Hp.
  destruct Hp as [m st|m st|msg st|ok st|w c l' st Hc Hs|w ok l' st Ho|w st];
    try (by destruct w); try done.
  - unfold errors_ok.
    rewrite emitted__set_error, _last_error__set_error, error_texts_app.
    case_decide as E; simpl.
    + rewrite app_nil_r. split; [done|]. intros m Hm. rewrite E. by apply Hlast.
    + split.
      * apply no_consecutive_repeat_snoc; [done|].
        intros a Ha ->. apply E. by apply Hlast.
      * intros m. rewrite last_snoc. by intros [= <-].
  - unfold errors_ok. simpl. rewrite error_texts_app. simpl.
    by rewrite app_nil_r.
Qed.

Lemma reachable_errors_ok st : QBackend.reachable st → errors_ok st.
Proof.
  revert st. apply reachable_ind.
  - intros. split; [by intros i a b H | done].
  - intros st st'. apply prim_errors_ok.
Qed.

Lemma open_idem l ok l' :
  PumpLink.open l = Some (ok, l') → PumpLink.open l' = Some (ok, l').
Proof.
  unfold PumpLink.open at 1.
  destruct (PumpLink.ser_open l) eqn:Ho.
  - intros [= <- <-]. unfold PumpLink.open. by rewrite Ho.
  - intros H. apply open_loop_inv in H as (Hok & Hs & Hser & _).
    rewrite Ho, orb_false_r in Hser. destruct ok.
    + unfold PumpLink.open. by rewrite Hser.
    + apply open_closed_stopped; [|done].
      rewrite Hs. by destruct (PumpLink._stop l).
Qed.

Lemma set_link_id which st :
  QBackend.set_link which (QBackend.link which st) st = st.
Proof. by destruct st, which. Qed.

(** The shape of a call of [QBackend.open]. *)
Lemma open_inv st ok st' :
  QBackend.open st = Some (ok, st') →
  ∃ okA la okB lb,
    PumpLink.open (QBackend.linkA st) = Some (okA, la)
    ∧ PumpLink.open (QBackend.linkB st) = Some (okB, lb)
    ∧ ok = okA && okB
    ∧ st' = QBackend._set_error
              (if ok then "" else "Failed to open one or both serial ports")
              (QBackend.emit (connectionChanged ok)
                 (QBackend.set_link LinkB lb (QBackend.set_link LinkA la st))).
Proof.
  unfold QBackend.open. rewrite bind_Some. intros ([okA la] & HA & H).
  rewrite bind_Some in H. destruct H as ([okB lb] & HB & H).
  exists okA, la, okB, lb. simpl in HB.
  destruct (okA && okB); injection H as <- <-; done.
Qed.

Lemma open_failed_failing st st1 :
  QBackend.open st = Some (false, st1) → failing st1.
Proof.
  intros (okA & la & okB & lb & HA & HB & Hok & ->)%open_inv.
  exists okA, okB. rewrite _last_error__set_error.
  pose proof (link__set_error LinkA) as EA. pose proof (link__set_error LinkB) as EB.
  simpl in EA, EB. rewrite EA, EB. simpl.
  repeat split; [by eapply open_idem | by eapply open_idem | done].
Qed.

Lemma failing_open st :
  failing st →
  QBackend.open st = Some (false, QBackend.emit (connectionChanged false) st)
  ∧ failing (QBackend.emit (connectionChanged false) st).
Proof.
  intros (okA & okB & HA & HB & Hok & He). split.
  - unfold QBackend.open. rewrite HA. simpl. rewrite HB. simpl. rewrite Hok.
    unfold QBackend._set_error. simpl. rewrite He.
    case_decide; [|done]. destruct st; simpl in *. by subst.
  - by exists okA, okB.
Qed.

Lemma failing_reopen n st :
  failing st →
  ∃ st', QBackend.run (replicate n QBackend.call_open) st = Some st'
         ∧ error_texts (QBackend.emitted st') = error_texts (QBackend.emitted st)
         ∧ QBackend._last_error st' = QBackend._last_error st.
Proof.
  revert st. induction n as [|n IH]; intros st Hf; simpl.
  - by exists st.
  - destruct (failing_open st Hf) as [-> Hf']. simpl.
    destruct (IH _ Hf') as (st' & -> & E1 & E2).
    exists st'. split; [done|]. rewrite E1, E2. simpl.
    rewrite error_texts_app. simpl. by rewrite app_nil_r.
Qed.

(** C9: in every reachable state the error notifications emitted so far
    never carry the same text twice in a row; [_set_error] stores the text
    and emits it exactly when it differs from the stored one; a failing
    [open] emits its error text only if it differs from the stored one, and
    any number of further calls of [open] then emit no error notification;
    a successful [open] leaves the stored error empty. *)
Theorem error_notifications_deduplicated :
  (∀ st, QBackend.reachable st →
         no_consecutive_repeat (error_texts (QBackend.emitted st)))
  ∧ (∀ st msg,
       QBackend._last_error (QBackend._set_error msg st) = msg
       ∧ QBackend.emitted (QBackend._set_error msg st)
         = QBackend.emitted st
           ++ (if decide (msg = QBackend._last_error st) then []
               else [lastErrorChanged msg]))
  ∧ (∀ st st1,
       QBackend.open st = Some (false, st1) →
       QBackend._last_error st1 = "Failed to open one or both serial ports"
       ∧ error_texts (QBackend.emitted st1)
         = error_texts (QBackend.emitted st)
           ++ (if decide ("Failed to open one or both serial ports"
                          = QBackend._last_error st)
               then [] else ["Failed to open one or both serial ports"])
       ∧ ∀ n, ∃ st2,
           QBackend.run (replicate n QBackend.call_open) st1 = Some st2
           ∧ error_texts (QBackend.emitted st2)
             = error_texts (QBackend.emitted st1)
           ∧ QBackend._last_error st2 = QBackend._last_error st1)
  ∧ (∀ st st', QBackend.open st = Some (true, st') →
               QBackend._last_error st' = "").
Proof.
  split; [|split; [|split]].
  - intros st Hr. by destruct (reachable_errors_ok st Hr).
  - intros st msg. split; [apply _last_error__set_error | apply emitted__set_error].
  - intros st st1 Ho. pose proof (open_failed_failing _ _ Ho) as Hf.
    split; [by destruct Hf as (? & ? & _ & _ & _ & ?)|].
    split; [|intros n; by apply failing_reopen].
    apply open_inv in Ho as (okA & la & okB & lb & _ & _ & _ & ->).
    rewrite emitted__set_error, error_texts_app. simpl.
    rewrite error_texts_app. simpl. rewrite app_nil_r.
    by case_decide.
  - intros st st' (okA & la & okB & lb & _ & _ & _ & ->)%open_inv.
    apply _last_error__set_error.
Qed.

End errors.

(** ** What the slots hand to the links *)

Section sending.
Implicit Types (st : QBackend.t) (l : PumpLink.t) (c : Cmd) (p local : Z)
  (which w : LinkId).

Lemma sent_on_refl st : sent_on st st (λ _, []).
Proof. intros w. apply sent_refl. Qed.

Lemma sent_on_trans st1 st2 st3 cs1 cs2 :
  sent_on st1 st2 cs1 → sent_on st2 st3 cs2 →
  sent_on st1 st3 (λ w, cs1 w ++ cs2 w).
Proof. intros H1 H2 w. by eapply sent_trans. Qed.

Lemma sent_on_links st st' cs :
  (∀ w, QBackend.link w st' = QBackend.link w st) →
  (∀ w, cs w = []) → sent_on st st' cs.
Proof. intros Hl Hc w. rewrite Hl, Hc. apply sent_refl. Qed.

Lemma sent_on_ext st st' cs cs' :
  (∀ w, cs w = cs' w) → sent_on st st' cs → sent_on st st' cs'.
Proof. intros E H w. rewrite <- E. apply H. Qed.

Lemma responsive_links st :
  QBackend.responsive st = true ↔
  ∀ w, PumpLink.responsive (QBackend.link w st) = true.
Proof.
  unfold QBackend.responsive. rewrite andb_true_iff. split.
  - intros [HA HB] [|]; done.
  - intros H. split; [apply (H LinkA) | apply (H LinkB)].
Qed.

Lemma responsive_same_links st st' :
  (∀ w, QBackend.link w st' = QBackend.link w st) →
  QBackend.responsive st = true → QBackend.responsive st' = true.
Proof.
  rewrite !responsive_links. intros E H w. rewrite E. apply H.
Qed.

Lemma sent_on_responsive st st' cs :
  sent_on st st' cs →
  QBackend.responsive st = true → QBackend.responsive st' = true.
Proof.
  rewrite !responsive_links. intros Hs H w.
  apply (PumpLink.sent_responsive _ _ _ (Hs w)), H.
Qed.

(** One command handed to one link. *)
Lemma on_link_send_inv which c st st' :
  QBackend.on_link which (PumpLink._send c) st = Some st' →
  sent_on st st' (λ w, if decide (which = w) then [c] else [])
  ∧ QBackend.last_flows st' = QBackend.last_flows st
  ∧ QBackend.paused_flows st' = QBackend.paused_flows st
  ∧ QBackend._last_error st' = QBackend._last_error st
  ∧ QBackend.emitted st' = QBackend.emitted st.
Proof.
  intros (l' & H & ->)%on_link_Some. split; [|by destruct which].
  intros w. rewrite link_set_link. case_decide as E.
  - subst w. by apply _send_sent.
  - apply sent_refl.
Qed.

Lemma on_link_send_returns which c st :
  QBackend.responsive st = true →
  is_Some (QBackend.on_link which (PumpLink._send c) st).
Proof.
  intros Hr. rewrite responsive_links in Hr.
  destruct (_send_returns c _ (Hr which)) as [l' E].
  exists (QBackend.set_link which l' st). apply on_link_Some. eauto.
Qed.

Lemma _route_pump_frame p st :
  (∀ w, QBackend.link w (QBackend._route_pump p st).2 = QBackend.link w st)
  ∧ QBackend.last_flows (QBackend._route_pump p st).2 = QBackend.last_flows st
  ∧ QBackend.paused_flows (QBackend._route_pump p st).2 = QBackend.paused_flows st.
Proof.
  rewrite _route_pump_route. destruct (QBackend.route p); simpl; [done|].
  split; [intros w; apply link__set_error|].
  split; [apply last_flows__set_error | apply paused_flows__set_error].
Qed.

End sending.

Section batch.
Implicit Types (st : QBackend.t) (l : PumpLink.t) (c : Cmd) (p local : Z)
  (which w : LinkId) (ids : list Z).

Lemma routed_Some g w p which local :
  QBackend.route p = Some (which, local) →
  routed g w p = if decide (which = w) then g p local else [].
Proof. unfold routed. by intros ->. Qed.

Lemma routed_None g w p : QBackend.route p = None → routed g w p = [].
Proof. unfold routed. by intros ->. Qed.

Lemma set_error_sent_on msg st cs :
  (∀ w, cs w = []) → sent_on st (QBackend._set_error msg st) cs.
Proof. intros H. apply sent_on_links; [|done]. intros w. apply link__set_error. Qed.

Lemma pausePumps_body_inv p st st' :
  QBackend.pausePumps_body p st = Some st' →
  sent_on st st' (λ w, pause_cmds w p)
  ∧ QBackend.last_flows st' = QBackend.last_flows st
  ∧ QBackend.paused_flows st'
    = match QBackend.last_flows st !! p with
      | Some f => <[p := f]> (QBackend.paused_flows st)
      | None => QBackend.paused_flows st
      end.
Proof.
  unfold QBackend.pausePumps_body. cbv zeta.
  set (s1 := match QBackend.last_flows st !! p with Some f => _ | None => st end).
  assert ((∀ w, QBackend.link w s1 = QBackend.link w st)
          ∧ QBackend.last_flows s1 = QBackend.last_flows st
          ∧ QBackend.paused_flows s1
            = match QBackend.last_flows st !! p with
              | Some f => <[p := f]> (QBackend.paused_flows st)
              | None => QBackend.paused_flows st
              end) as (L1 & F1 & P1).
  { subst s1. destruct (QBackend.last_flows st !! p); [|done].
    split; [by intros []|done]. }
  clearbody s1. rewrite _route_pump_route. unfold pause_cmds.
  destruct (QBackend.route p) as [[which local]|] eqn:Hr.
  - intros (Hs & F2 & P2 & _)%on_link_send_inv.
    split; [|by rewrite F2, P2].
    intros w. rewrite <- L1, (routed_Some _ _ _ _ _ Hr). apply Hs.
  - intros [= <-].
    rewrite last_flows__set_error, paused_flows__set_error.
    split; [|done]. intros w. rewrite link__set_error, L1, routed_None by done.
    apply sent_refl.
Qed.

Lemma pausePumps_body_returns p st :
  QBackend.responsive st = true →
  ∃ st', QBackend.pausePumps_body p st = Some st'
         ∧ QBackend.responsive st' = true.
Proof.
  intros Hr.
  assert (is_Some (QBackend.pausePumps_body p st)) as [st' E].
  { unfold QBackend.pausePumps_body. cbv zeta.
    set (s1 := match QBackend.last_flows st !! p with Some f => _ | None => st end).
    assert (QBackend.responsive s1 = true) as R1.
    { subst s1. by destruct (QBackend.last_flows st !! p). }
    clearbody s1. rewrite _route_pump_route.
    destruct (QBackend.route p) as [[which local]|]; [|eauto].
    by apply on_link_send_returns. }
  exists st'. split; [done|].
  apply pausePumps_body_inv in E as (Hs & _). by eapply sent_on_responsive.
Qed.

Lemma resumePumps_restore_inv p st st' :
  QBackend.resumePumps_restore p st = Some st' →
  sent_on st st' (λ w, restore_cmds (QBackend.restore_flow st) w p)
  ∧ QBackend.paused_flows st' = QBackend.paused_flows st
  ∧ (QBackend.last_flows st' = QBackend.last_flows st
     ∨ fgt (QBackend.restore_flow st p) (Fin 0) = true
       ∧ QBackend.last_flows st'
         = <[p := QBackend.restore_flow st p]> (QBackend.last_flows st)).
Proof.
  unfold QBackend.resumePumps_restore, restore_cmds. cbv zeta.
  destruct (fgt (QBackend.restore_flow st p) (Fin 0)) eqn:Hd.
  - rewrite _route_pump_route.
    destruct (QBackend.route p) as [[which local]|] eqn:Hr.
    + rewrite bind_Some. intros (s1 & H1 & [= <-]).
      apply on_link_send_inv in H1 as (Hs & F1 & P1 & _). simpl.
      split; [|split; [done|right; by rewrite F1]].
      intros w. rewrite (routed_Some _ _ _ _ _ Hr), Hd.
      specialize (Hs w). by destruct which, w.
    + intros [= <-].
      rewrite last_flows__set_error, paused_flows__set_error.
      split; [|by auto]. apply set_error_sent_on.
      intros w. by rewrite routed_None.
  - intros [= <-]. split; [|by auto].
    apply sent_on_links; [done|]. intros w. unfold routed.
    destruct (QBackend.route p) as [[which local]|]; [|done].
    rewrite Hd. by case_decide.
Qed.

Lemma resumePumps_restore_returns p st :
  QBackend.responsive st = true →
  ∃ st', QBackend.resumePumps_restore p st = Some st'
         ∧ QBackend.responsive st' = true.
Proof.
  intros Hr.
  assert (is_Some (QBackend.resumePumps_restore p st)) as [st' E].
  { unfold QBackend.resumePumps_restore. cbv zeta.
    destruct (fgt (QBackend.restore_flow st p) (Fin 0)); [|eauto].
    rewrite _route_pump_route.
    destruct (QBackend.route p) as [[which local]|]; [|eauto].
    destruct (on_link_send_returns which
                (CmdFlow local (QBackend.restore_flow st p)) st Hr) as [s1 E].
    unfold PumpLink.set_flow. rewrite E. simpl. eauto. }
  exists st'. split; [done|].
  apply resumePumps_restore_inv in E as (Hs & _). by eapply sent_on_responsive.
Qed.

(** Restoring a pump does not change what any pump will be restored to. *)
Lemma resumePumps_restore_flow p st st' q :
  QBackend.resumePumps_restore p st = Some st' →
  QBackend.restore_flow st' q = QBackend.restore_flow st q.
Proof.
  intros (_ & HP & [HF|[_ HF]])%resumePumps_restore_inv;
    unfold QBackend.restore_flow; rewrite HP, HF; [done|].
  destruct (decide (p = q)) as [->|Hne].
  - rewrite lookup_insert_eq.
    unfold QBackend.restore_flow.
    by destruct (QBackend.paused_flows st !! q), (QBackend.last_flows st !! q).
  - by rewrite lookup_insert_ne.
Qed.

Lemma startAutomation_body_inv shape period duty p st st' :
  QBackend.startAutomation_body shape period duty p st = Some st' →
  sent_on st st'
    (λ w, automation_cmds shape period duty
            (λ q, default (Fin 0) (QBackend.last_flows st !! q)) w p)
  ∧ QBackend.last_flows st' = QBackend.last_flows st
  ∧ QBackend.paused_flows st' = QBackend.paused_flows st.
Proof.
  unfold QBackend.startAutomation_body, automation_cmds. cbv zeta.
  destruct (fle (default (Fin 0) (QBackend.last_flows st !! p)) (Fin 0))
    eqn:Hd.
  - intros [= <-]. split; [|done].
    apply sent_on_links; [done|]. intros w. unfold routed.
    destruct (QBackend.route p) as [[which local]|]; [|done].
    rewrite Hd. by case_decide.
  - rewrite _route_pump_route.
    destruct (QBackend.route p) as [[which local]|] eqn:Hr.
    + intros (Hs & F1 & P1 & _)%on_link_send_inv. split; [|done].
      intros w. rewrite (routed_Some _ _ _ _ _ Hr), Hd. apply Hs.
    + intros [= <-].
      rewrite last_flows__set_error, paused_flows__set_error.
      split; [|done]. apply set_error_sent_on.
      intros w. by rewrite routed_None.
Qed.

Lemma startAutomation_body_returns shape period duty p st :
  QBackend.responsive st = true →
  ∃ st', QBackend.startAutomation_body shape period duty p st = Some st'
         ∧ QBackend.responsive st' = true.
Proof.
  intros Hr.
  assert (is_Some (QBackend.startAutomation_body shape period duty p st))
    as [st' E].
  { unfold QBackend.startAutomation_body. cbv zeta.
    destruct (fle _ (Fin 0)); [eauto|].
    rewrite _route_pump_route.
    destruct (QBackend.route p) as [[which local]|]; [|eauto].
    by apply on_link_send_returns. }
  exists st'. split; [done|].
  apply startAutomation_body_inv in E as (Hs & _). by eapply sent_on_responsive.
Qed.

End batch.

Section loops.
Implicit Types (st : QBackend.t) (l : PumpLink.t) (c : Cmd) (p local : Z)
  (which w : LinkId) (ids : list Z).

Lemma pausePumps_inv ids st st' :
  QBackend.pausePumps ids st = Some st' →
  sent_on st st' (λ w, flat_map (pause_cmds w) ids)
  ∧ QBackend.last_flows st' = QBackend.last_flows st
  ∧ (∀ q, q ∉ ids →
          QBackend.paused_flows st' !! q = QBackend.paused_flows st !! q)
  ∧ (∀ q, q ∈ ids → is_Some (QBackend.last_flows st !! q) →
          QBackend.paused_flows st' !! q = QBackend.last_flows st !! q).
Proof.
  unfold QBackend.pausePumps. revert st.
  induction ids as [|p ids IH]; intros st; simpl.
  - intros [= <-]. split; [apply sent_on_refl|].
    split; [done|]. split; [done|]. by intros q Hq%elem_of_nil.
  - rewrite bind_Some. intros (s1 & H1 & H2).
    apply pausePumps_body_inv in H1 as (S1 & F1 & P1).
    apply IH in H2 as (S2 & F2 & P2 & P3).
    split; [by eapply sent_on_trans|]. split; [congruence|]. split.
    + intros q Hq. apply not_elem_of_cons in Hq as [Hne Hq].
      rewrite (P2 q Hq), P1.
      destruct (QBackend.last_flows st !! p); [|done].
      by rewrite lookup_insert_ne.
    + intros q Hq [f Hf].
      destruct (decide (q ∈ ids)) as [Hin|Hnin].
      * rewrite P3, F1; [done|done|]. rewrite F1. eauto.
      * apply elem_of_cons in Hq as [->|]; [|done].
        rewrite (P2 p Hnin), P1, Hf. by rewrite lookup_insert_eq.
Qed.

Lemma resumePumps_restore_loop ids st st' :
  QBackend.for_each QBackend.resumePumps_restore ids st = Some st' →
  sent_on st st' (λ w, flat_map (restore_cmds (QBackend.restore_flow st) w) ids)
  ∧ QBackend.paused_flows st' = QBackend.paused_flows st
  ∧ (QBackend.paused_flows st = QBackend.last_flows st →
     QBackend.last_flows st' = QBackend.last_flows st).
Proof.
  revert st. induction ids as [|p ids IH]; intros st; simpl.
  - intros [= <-]. split; [apply sent_on_refl|done].
  - rewrite bind_Some. intros (s1 & H1 & H2).
    pose proof (λ q, resumePumps_restore_flow p st s1 q H1) as Hflow.
    apply resumePumps_restore_inv in H1 as (S1 & P1 & F1).
    apply IH in H2 as (S2 & P2 & F2).
    split; [|split; [congruence|]].
    + eapply sent_on_trans; [exact S1|].
      eapply sent_on_ext; [|exact S2].
      intros w. apply flat_map_ext. intros q.
      unfold restore_cmds, routed. destruct (QBackend.route q) as [[??]|]; [|done].
      by rewrite Hflow.
    + intros E.
      assert (QBackend.last_flows s1 = QBackend.last_flows st) as F1'.
      { destruct F1 as [|[Hpos ->]]; [done|].
        apply insert_id. revert Hpos. unfold QBackend.restore_flow.
        rewrite E. destruct (QBackend.last_flows st !! p); [done|].
        simpl. intros Hpos. by vm_compute in Hpos. }
      rewrite F2; congruence.
Qed.

Lemma resumePumps_clear_loop ids st :
  ∃ st', QBackend.for_each QBackend.resumePumps_clear ids st = Some st'
         ∧ (∀ w, QBackend.link w st' = QBackend.link w st)
         ∧ QBackend.last_flows st' = QBackend.last_flows st
         ∧ ∀ q, QBackend.paused_flows st' !! q
                = if decide (q ∈ ids) then None
                  else QBackend.paused_flows st !! q.
Proof.
  revert st. induction ids as [|p ids IH]; intros st; simpl.
  - exists st. repeat split; try done.
  - destruct (IH (QBackend.set_paused_flows
                    (delete p (QBackend.paused_flows st)) st))
      as (st' & -> & L & F & P).
    exists st'. split; [done|]. split; [intros w; rewrite L; by destruct w|].
    split; [done|]. intros q. rewrite P. simpl.
    destruct (decide (q = p)) as [->|Hne].
    + rewrite lookup_delete_eq. rewrite (decide_True _ _ (list_elem_of_here p ids)).
      by case_decide.
    + rewrite lookup_delete_ne by done.
      destruct (decide (q ∈ ids)) as [Hin|Hnin].
      * by rewrite (decide_True _ _ (list_elem_of_further q p ids Hin)).
      * rewrite decide_False; [done|].
        by intros [->|?]%elem_of_cons.
Qed.

Lemma startAutomation_loop shape period duty ids st st' :
  QBackend.for_each (QBackend.startAutomation_body shape period duty) ids st
  = Some st' →
  sent_on st st'
    (λ w, flat_map (automation_cmds shape period duty
                      (λ q, default (Fin 0) (QBackend.last_flows st !! q)) w)
                  ids)
  ∧ QBackend.last_flows st' = QBackend.last_flows st
  ∧ QBackend.paused_flows st' = QBackend.paused_flows st.
Proof.
  revert st. induction ids as [|p ids IH]; intros st; simpl.
  - intros [= <-]. split; [apply sent_on_refl|done].
  - rewrite bind_Some. intros (s1 & H1 & H2).
    apply startAutomation_body_inv in H1 as (S1 & F1 & P1).
    apply IH in H2 as (S2 & F2 & P2).
    split; [|split; congruence].
    eapply sent_on_trans; [exact S1|]. by rewrite F1 in S2.
Qed.

Lemma filter_all {A} (P : A → Prop) `{!∀ x, Decision (P x)} (xs : list A) :
  Forall P xs → filter P xs = xs.
Proof.
  induction 1 as [|x xs Hx _ IH]; [done|].
  by rewrite filter_cons, decide_True, IH.
Qed.

Lemma filter_none {A} (P : A → Prop) `{!∀ x, Decision (P x)} (xs : list A) :
  Forall (λ x, ¬ P x) xs → filter P xs = [].
Proof.
  induction 1 as [|x xs Hx _ IH]; [done|].
  by rewrite filter_cons, decide_False, IH.
Qed.

(** Entries outside 1..9 contribute no command. *)
Lemma flat_map_routed_valid g w ids :
  flat_map (routed g w) ids
  = flat_map (routed g w) (filter (λ p, 1 ≤ p ≤ 9) ids).
Proof.
  induction ids as [|p ids IH]; [done|]. simpl.
  rewrite filter_cons. case_decide as Hp; simpl; rewrite IH; [done|].
  by rewrite routed_None by by apply route_None.
Qed.

(** Among the commands handed to a link, those that address one local pump
    come from the entries of that pump alone. *)
Lemma filter_flat_map_routed g w p0 local0 ids :
  QBackend.route p0 = Some (w, local0) →
  (∀ p local, Forall (λ c, cmd_pump c = Some local) (g p local)) →
  filter (λ c, cmd_pump c = Some local0) (flat_map (routed g w) ids)
  = flat_map (λ p, if decide (p = p0) then g p0 local0 else []) ids.
Proof.
  intros H0 Hg. induction ids as [|p ids IH]; [done|]. simpl.
  rewrite filter_app, IH. f_equal. unfold routed.
  destruct (decide (p = p0)) as [->|Hne].
  - rewrite H0. rewrite decide_True by done.
    apply filter_all, Hg.
  - destruct (QBackend.route p) as [[w' local]|] eqn:Hr; [|done].
    case_decide as Hw; [subst w'|done].
    apply filter_none. eapply Forall_impl; [apply Hg|].
    simpl. intros c -> [= ->]. apply Hne. by eapply route_inj.
Qed.

Lemma flat_map_single {A} (p0 : Z) (xs : list A) ids :
  NoDup ids → p0 ∈ ids →
  flat_map (λ p, if decide (p = p0) then xs else []) ids = xs.
Proof.
  induction 1 as [|p ids Hp Hnd IH]; [by intros ?%elem_of_nil|].
  intros Hin. simpl. destruct (decide (p = p0)) as [->|Hne].
  - rewrite <- (app_nil_r xs) at 2. f_equal.
    clear -Hp. induction ids as [|q ids IH]; [done|]. simpl.
    apply not_elem_of_cons in Hp as [Hne Hp].
    rewrite decide_False by done. by apply IH.
  - apply elem_of_cons in Hin as [->|Hin]; [done|]. by apply IH.
Qed.


(** The commands of a batch list come from the entries routed to the
    link. *)
Lemma elem_of_flat_map_routed g w ids c :
  c ∈ flat_map (routed g w) ids →
  ∃ p local, p ∈ ids ∧ QBackend.route p = Some (w, local) ∧ c ∈ g p local.
Proof.
  rewrite list_elem_of_In, in_flat_map.
  intros (p & Hp%list_elem_of_In & Hc%list_elem_of_In).
  unfold routed in Hc.
  destruct (QBackend.route p) as [[w' local]|] eqn:Hr;
    [|by apply elem_of_nil in Hc].
  case_decide as E; [subst w'|by apply elem_of_nil in Hc].
  by exists p, local.
Qed.

Lemma elem_of_pause_cmds w ids c :
  c ∈ flat_map (pause_cmds w) ids →
  ∃ p local, p ∈ ids ∧ QBackend.route p = Some (w, local) ∧ c = CmdStop local.
Proof.
  intros (p & local & Hp & Hr & Hc)%elem_of_flat_map_routed.
  apply list_elem_of_singleton in Hc. by exists p, local.
Qed.

Lemma elem_of_restore_cmds flow w ids c :
  c ∈ flat_map (restore_cmds flow w) ids →
  ∃ p local, p ∈ ids ∧ QBackend.route p = Some (w, local)
             ∧ fgt (flow p) (Fin 0) = true ∧ c = CmdFlow local (flow p).
Proof.
  intros (p & local & Hp & Hr & Hc)%elem_of_flat_map_routed.
  destruct (fgt (flow p) (Fin 0)) eqn:E; [|by apply elem_of_nil in Hc].
  apply list_elem_of_singleton in Hc. by exists p, local.
Qed.


End loops.

(** ** stop *)

Section stop.
Implicit Types (st : QBackend.t) (p local : Z) (which w : LinkId).

Lemma wave_off_frame local :
  PumpLink.start_wave_frame local "off" (Fin 1) (Fin (1 # 2))
    (Some (Fin 0)) (Some (Fin 0)) None
  = mkWave local "off" (Fin 1) (Fin (100 # 2)) (Fin 0) (Fin 0).
Proof. reflexivity. Qed.

(** C6: for every valid global pump id, [stop] hands exactly two commands
    to the pump's link, in this order: the stop command for the pump's
    local id, then the wave command with shape "off", min_flow 0 and
    max_flow 0 for the same local id (period 1, duty 50 percent); they reach
    the wire when the port is open; the other link, [last_flows] and
    [paused_flows] are unchanged.  The call returns whenever [open] cannot
    block. *)
Theorem stop_sends_stop_then_wave_off st p :
  1 ≤ p ≤ 9 →
  QBackend.responsive st = true →
  ∃ which local st',
    (QBackend._route_pump p st).1 = Some (which, local)
    ∧ QBackend.stop p st = Some st'
    ∧ PumpLink.sends (QBackend.link which st')
      = PumpLink.sends (QBackend.link which st)
        ++ [CmdStop local;
            CmdWave (mkWave local "off" (Fin 1) (Fin (100 # 2)) (Fin 0)
                       (Fin 0))]
    ∧ PumpLink.wire (QBackend.link which st')
      = PumpLink.wire (QBackend.link which st)
        ++ (if PumpLink.ser_open (QBackend.link which st')
            then [CmdStop local;
                  CmdWave (mkWave local "off" (Fin 1) (Fin (100 # 2)) (Fin 0)
                             (Fin 0))]
            else [])
    ∧ (∀ w, w ≠ which → QBackend.link w st' = QBackend.link w st)
    ∧ QBackend.last_flows st' = QBackend.last_flows st
    ∧ QBackend.paused_flows st' = QBackend.paused_flows st.
Proof.
  intros Hp Hr.
  destruct (route_is_Some p Hp) as [[which local] Hroute].
  exists which, local.
  destruct (on_link_send_returns which (CmdStop local) st Hr) as [s1 E1].
  pose proof (on_link_send_inv _ _ _ _ E1) as (S1 & F1 & P1 & _).
  pose proof (sent_on_responsive _ _ _ S1 Hr) as Hr1.
  destruct (on_link_send_returns which
              (CmdWave (mkWave local "off" (Fin 1) (Fin (100 # 2)) (Fin 0)
                          (Fin 0))) s1 Hr1) as [s2 E2].
  pose proof (on_link_send_inv _ _ _ _ E2) as (S2 & F2 & P2 & _).
  exists s2. split; [by rewrite _route_pump_fst|]. split.
  { unfold QBackend.stop. rewrite _route_pump_route, Hroute.
    unfold PumpLink.stop. rewrite E1. simpl.
    unfold PumpLink.wave_off, PumpLink.start_wave. by rewrite wave_off_frame. }
  pose proof (sent_trans _ _ _ _ _ (S1 which) (S2 which)) as [Hs Hw _ _ _ _].
  rewrite !decide_True in Hs, Hw by done.
  split; [exact Hs|]. split; [exact Hw|].
  split; [|split; congruence].
  intros w Hne.
  apply on_link_Some in E1 as (l1 & _ & ->).
  apply on_link_Some in E2 as (l2 & _ & ->).
  rewrite !link_set_link. by rewrite !decide_False by done.
Qed.

End stop.

(** Pump 7 is local pump 4 of link A; on a fresh controller whose port A
    connects at the first attempt both commands reach the wire. *)
Lemma stop_sends_stop_then_wave_off_witness :
  ∃ which local st',
    (QBackend._route_pump 7 (QBackend.create "COM4" "COM6" [true] [true])).1
    = Some (which, local)
    ∧ QBackend.stop 7 (QBackend.create "COM4" "COM6" [true] [true]) = Some st'
    ∧ PumpLink.sends (QBackend.link which st')
      = PumpLink.sends
          (QBackend.link which (QBackend.create "COM4" "COM6" [true] [true]))
        ++ [CmdStop local;
            CmdWave (mkWave local "off" (Fin 1) (Fin (100 # 2)) (Fin 0)
                       (Fin 0))].
Proof.
  destruct (stop_sends_stop_then_wave_off
              (QBackend.create "COM4" "COM6" [true] [true]) 7)
    as (which & local & st' & H1 & H2 & H3 & _); [lia | reflexivity |].
  exists which, local, st'. split; [exact H1|]. split; [exact H2 | exact H3].
Defined.

(** ** Pause and resume *)

Section pause_resume.
Implicit Types (st : QBackend.t) (p local : Z) (which w : LinkId) (ids : list Z).

Lemma stopAll_spec st :
  QBackend.responsive st = true →
  ∃ st', QBackend.stopAll st = Some st'
         ∧ sent_on st st' (λ _, [CmdStopAll])
         ∧ QBackend.last_flows st' = QBackend.last_flows st
         ∧ QBackend.paused_flows st' = QBackend.paused_flows st.
Proof.
  intros Hr. unfold QBackend.stopAll. simpl.
  destruct (on_link_send_returns LinkA CmdStopAll st Hr) as [s1 E1].
  pose proof (on_link_send_inv _ _ _ _ E1) as (S1 & F1 & P1 & _).
  pose proof (sent_on_responsive _ _ _ S1 Hr) as Hr1.
  destruct (on_link_send_returns LinkB CmdStopAll s1 Hr1) as [s2 E2].
  pose proof (on_link_send_inv _ _ _ _ E2) as (S2 & F2 & P2 & _).
  exists s2. unfold PumpLink.stop_all. rewrite E1. simpl. rewrite E2.
  split; [done|]. split; [|split; congruence].
  eapply sent_on_ext; [|by eapply sent_on_trans]. by intros [].
Qed.

Lemma pauseAll_spec st :
  QBackend.responsive st = true →
  ∃ st', QBackend.pauseAll st = Some st'
         ∧ sent_on st st' (λ _, [CmdStopAll])
         ∧ QBackend.last_flows st' = QBackend.last_flows st
         ∧ QBackend.paused_flows st' = QBackend.last_flows st.
Proof.
  intros Hr. unfold QBackend.pauseAll.
  destruct (stopAll_spec
              (QBackend.set_paused_flows (QBackend.last_flows st) st))
    as (st' & E & S & F & P); [done|].
  exists st'. split; [exact E|]. split; [|done].
  intros w. specialize (S w). by destruct w.
Qed.

Lemma restore_cmds_addressed (flow : Z → pyfloat) p local :
  Forall (λ c, cmd_pump c = Some local)
    (if fgt (flow p) (Fin 0) then [CmdFlow local (flow p)] else []).
Proof. destruct (fgt (flow p) (Fin 0)); by repeat constructor. Qed.

(** After [pauseAll] the flow to restore is the flow recorded before the
    pause. *)
Lemma restore_flow_snapshot st st1 q :
  QBackend.last_flows st1 = QBackend.last_flows st →
  QBackend.paused_flows st1 = QBackend.last_flows st →
  QBackend.restore_flow st1 q
  = default (Fin 0) (QBackend.last_flows st !! q).
Proof.
  intros F P. unfold QBackend.restore_flow. rewrite F, P.
  by destruct (QBackend.last_flows st !! q).
Qed.

Lemma all_pumps_NoDup : NoDup all_pumps.
Proof. apply (bool_decide_unpack _). by vm_compute. Qed.

Lemma elem_of_all_pumps p : p ∈ all_pumps ↔ 1 ≤ p ≤ 9.
Proof.
  unfold all_pumps. rewrite !elem_of_cons, elem_of_nil. lia.
Qed.

(** C3: [pauseAll] followed by [resumePumps] over all nine global pump
    ids.  [pauseAll] hands stop-all to both links and nothing else.
    [resumePumps] then hands to each link exactly the list [resumed]: going
    through the ids in order, one constant-flow command with the flow
    recorded before the pause, addressed to the local id, for each pump
    routed to that link whose recorded flow was > 0, and nothing else.  So
    every command of [resumed] is such a flow command; per pump, the link
    gets exactly one command when the flow before the pause was > 0 and
    none when it was 0 (or otherwise not > 0) or unrecorded.  The commands
    reach the wire when the port is open, and [last_flows] ends as it was
    before the pause.  Both calls return whenever [open] cannot block. *)
Theorem pause_all_then_resume_restores st ids :
  QBackend.responsive st = true →
  ids ≡ₚ all_pumps →
  ∃ st1 st2 (resumed : LinkId → list Cmd),
    QBackend.pauseAll st = Some st1
    ∧ QBackend.resumePumps ids st1 = Some st2
    ∧ (∀ w, PumpLink.sends (QBackend.link w st1)
            = PumpLink.sends (QBackend.link w st) ++ [CmdStopAll])
    ∧ (∀ w, resumed w
            = flat_map
                (restore_cmds
                   (λ q, default (Fin 0) (QBackend.last_flows st !! q)) w)
                ids)
    ∧ (∀ w, PumpLink.sends (QBackend.link w st2)
            = PumpLink.sends (QBackend.link w st1) ++ resumed w)
    ∧ (∀ w, PumpLink.wire (QBackend.link w st2)
            = PumpLink.wire (QBackend.link w st1)
              ++ (if PumpLink.ser_open (QBackend.link w st2)
                  then resumed w else []))
    ∧ QBackend.last_flows st2 = QBackend.last_flows st
    ∧ (∀ w c, c ∈ resumed w →
         ∃ p local f,
           QBackend.route p = Some (w, local)
           ∧ QBackend.last_flows st !! p = Some f
           ∧ fgt f (Fin 0) = true
           ∧ c = CmdFlow local f)
    ∧ ∀ p which local,
        (QBackend._route_pump p st).1 = Some (which, local) →
        filter (λ c, cmd_pump c = Some local) (resumed which)
        = match QBackend.last_flows st !! p with
          | Some f => if fgt f (Fin 0) then [CmdFlow local f] else []
          | None => []
          end.
Proof.
  intros Hr Hperm.
  destruct (pauseAll_spec st Hr) as (st1 & E1 & S1 & F1 & P1).
  pose proof (sent_on_responsive _ _ _ S1 Hr) as Hr1.
  destruct (for_each_returns (λ s, QBackend.responsive s = true)
              QBackend.resumePumps_restore ids st1
              (λ x s, resumePumps_restore_returns x s) Hr1) as (s2 & E2 & _).
  pose proof (resumePumps_restore_loop _ _ _ E2) as (S2 & P2 & F2).
  destruct (resumePumps_clear_loop ids s2) as (st2 & E3 & L3 & F3 & _).
  assert (∀ w, flat_map (restore_cmds (QBackend.restore_flow st1) w) ids
               = flat_map
                   (restore_cmds
                      (λ q, default (Fin 0) (QBackend.last_flows st !! q)) w)
                   ids) as Hflow.
  { intros w. apply flat_map_ext. intros q. unfold restore_cmds, routed.
    by rewrite (restore_flow_snapshot st st1 q F1 P1). }
  exists st1, st2,
    (λ w, flat_map
            (restore_cmds
               (λ q, default (Fin 0) (QBackend.last_flows st !! q)) w) ids).
  split; [exact E1|]. split.
  { unfold QBackend.resumePumps. rewrite E2. exact E3. }
  split; [intros w; apply (S1 w)|].
  split; [done|].
  split; [intros w; rewrite L3, <- Hflow; apply (S2 w)|].
  split; [intros w; rewrite L3, <- Hflow; apply (S2 w)|].
  split; [rewrite F3, F2; congruence|].
  split.
  { intros w c (p & local & _ & Hroute & Hpos & ->)%elem_of_restore_cmds.
    exists p, local, (default (Fin 0) (QBackend.last_flows st !! p)).
    split; [done|]. split; [|done].
    destruct (QBackend.last_flows st !! p); [done|]. by vm_compute in Hpos. }
  intros p which local Hroute. rewrite _route_pump_fst in Hroute.
  unfold restore_cmds.
  rewrite (filter_flat_map_routed _ _ p local ids Hroute)
    by (intros;
        apply (restore_cmds_addressed
                 (λ q, default (Fin 0) (QBackend.last_flows st !! q)))).
  rewrite flat_map_single.
  - by destruct (QBackend.last_flows st !! p) as [f|].
  - rewrite Hperm. apply all_pumps_NoDup.
  - rewrite Hperm. apply elem_of_all_pumps. by eapply route_valid.
Qed.

End pause_resume.

(** A fresh controller whose ports connect at once, with pump 7 flowing at
    30 and pump 2 set to 0: [pauseAll] hands stop-all to both links; after
    the resume, link A has been handed exactly one more command, the flow
    30 for its local pump 4, and link B (which drives pump 2) nothing. *)
Lemma pause_all_then_resume_restores_witness :
  ∃ st1 st2,
    QBackend.pauseAll
      (QBackend.mk (PumpLink.create "COM4" 115200 [true])
         (PumpLink.create "COM6" 115200 [true])
         {[7 := Fin 30; 2 := Fin 0]} ∅ "" []) = Some st1
    ∧ QBackend.resumePumps all_pumps st1 = Some st2
    ∧ PumpLink.sends (QBackend.link LinkA st1) = [CmdStopAll]
    ∧ PumpLink.sends (QBackend.link LinkB st1) = [CmdStopAll]
    ∧ PumpLink.sends (QBackend.link LinkA st2)
      = PumpLink.sends (QBackend.link LinkA st1) ++ [CmdFlow 4 (Fin 30)]
    ∧ PumpLink.sends (QBackend.link LinkB st2)
      = PumpLink.sends (QBackend.link LinkB st1) ++ [].
Proof.
  destruct (pause_all_then_resume_restores
              (QBackend.mk (PumpLink.create "COM4" 115200 [true])
                 (PumpLink.create "COM6" 115200 [true])
                 {[7 := Fin 30; 2 := Fin 0]} ∅ "" [])
              all_pumps)
    as (st1 & st2 & resumed & H1 & H2 & H3 & H4 & H5 & _);
    [reflexivity | reflexivity |].
  exists st1, st2. split; [exact H1|]. split; [exact H2|].
  split; [exact (H3 LinkA)|]. split; [exact (H3 LinkB)|].
  split.
  - rewrite (H5 LinkA), (H4 LinkA). reflexivity.
  - rewrite (H5 LinkB), (H4 LinkB). reflexivity.
Defined.

Section paused_flows.
Implicit Types (st : QBackend.t) (p local : Z) (which w : LinkId) (ids : list Z)
  (c : QBackend.Call).

Lemma pauses_dec p c : {pauses p c} + {¬ pauses p c}.
Proof.
  destruct c; simpl; try (by right; intros []); try (by left).
  apply (decide (p ∈ ids)).
Qed.

Lemma resumes_dec p c : {resumes p c} + {¬ resumes p c}.
Proof.
  destruct c; simpl; try (by right; intros []).
  apply (decide (p ∈ ids)).
Qed.

Lemma resumePumps_paused ids st st' :
  QBackend.resumePumps ids st = Some st' →
  ∀ q, QBackend.paused_flows st' !! q
       = if decide (q ∈ ids) then None else QBackend.paused_flows st !! q.
Proof.
  unfold QBackend.resumePumps. rewrite bind_Some. intros (s1 & H1 & H2) q.
  apply resumePumps_restore_loop in H1 as (_ & P1 & _).
  destruct (resumePumps_clear_loop ids s1) as (s2 & E & _ & _ & P2).
  rewrite E in H2. injection H2 as <-. by rewrite P2, P1.
Qed.

Lemma stopAll_paused st st' :
  QBackend.stopAll st = Some st' →
  QBackend.paused_flows st' = QBackend.paused_flows st.
Proof.
  unfold QBackend.stopAll. simpl. rewrite bind_Some. intros (s1 & H1 & H2).
  rewrite bind_Some in H2. destruct H2 as (s2 & H2 & [= <-]).
  apply on_link_send_inv in H1 as (_ & _ & P1 & _).
  apply on_link_send_inv in H2 as (_ & _ & P2 & _). congruence.
Qed.

Local Ltac route_frame p st :=
  rewrite (_route_pump_route p st);
  destruct (QBackend.route p) as [[? ?]|];
  [| intros [= <-]; by rewrite paused_flows__set_error ].

(** A slot that neither pauses nor resumes pump [p] leaves its paused flow
    alone, and a resume of [p] clears it. *)
Lemma exec_paused_frame c st st' p :
  QBackend.exec c st = Some st' →
  ¬ pauses p c →
  (resumes p c → QBackend.paused_flows st' !! p = None)
  ∧ (¬ resumes p c →
     QBackend.paused_flows st' !! p = QBackend.paused_flows st !! p).
Proof.
  intros Hex Hnp.
  destruct c; simpl in *; try (by destruct Hnp);
    try (split; [by intros []|intros _]).
  - apply fmap_Some in Hex as ([ok s] & Ho & ->).
    apply open_inv in Ho as (okA & la & okB & lb & _ & _ & _ & ->).
    simpl. by rewrite paused_flows__set_error.
  - by injection Hex as <-.
  - by injection Hex as <-.
  - revert Hex. unfold QBackend.prime. route_frame pump st.
    by intros (_ & _ & -> & _)%on_link_send_inv.
  - revert Hex. unfold QBackend.stop. route_frame pump st.
    rewrite bind_Some. intros (s1 & H1 & H2).
    apply on_link_send_inv in H1 as (_ & _ & P1 & _).
    apply on_link_send_inv in H2 as (_ & _ & P2 & _). congruence.
  - by rewrite (stopAll_paused _ _ Hex).
  - by rewrite (stopAll_paused _ _ Hex).
  - revert Hex. unfold QBackend.set_flow. route_frame pump st.
    by intros (_ & _ & -> & _)%on_link_send_inv.
  - apply pausePumps_inv in Hex as (_ & _ & P & _). by apply P.
  - pose proof (resumePumps_paused _ _ _ Hex p) as P. split.
    + intros Hin. by rewrite P, decide_True.
    + intros Hnin. by rewrite P, decide_False.
  - revert Hex. unfold QBackend.startAutomation.
    destruct (startswith _ "constant"); [by intros [= <-]|].
    destruct (negb _); [by intros [= <-]|].
    by intros (_ & _ & ->)%startAutomation_loop.
  - revert Hex. unfold QBackend.startWaveForPump. route_frame pump st.
    destruct (fgt maxFlow (Fin 0));
      by intros (_ & _ & -> & _)%on_link_send_inv.
  - revert Hex. unfold QBackend.set_calibration.
    rewrite (_route_pump_route pump st).
    destruct (QBackend.route pump) as [[? ?]|]; intros [= <-]; [done|].
    by rewrite paused_flows__set_error.
Qed.

Lemma run_app cs1 cs2 st :
  QBackend.run (cs1 ++ cs2) st = QBackend.run cs1 st ≫= QBackend.run cs2.
Proof.
  revert st. induction cs1 as [|c cs1 IH]; intros st; simpl; [done|].
  destruct (QBackend.exec c st); simpl; [apply IH | done].
Qed.

(** A paused flow is there only because of a pause that no resume has
    followed. *)
Lemma paused_flow_between cs st0 st p f :
  QBackend.paused_flows st0 = ∅ →
  QBackend.run cs st0 = Some st →
  QBackend.paused_flows st !! p = Some f →
  ∃ cs1 c cs2,
    cs = cs1 ++ c :: cs2 ∧ pauses p c ∧ Forall (λ c', ¬ resumes p c') cs2.
Proof.
  intros Hinit. revert st f.
  induction cs as [|c cs IH] using rev_ind; intros st f.
  - intros [= <-]. by rewrite Hinit, lookup_empty.
  - rewrite run_app, bind_Some. intros (s1 & H1 & H2) Hf.
    simpl in H2. rewrite bind_Some in H2. destruct H2 as (s2 & H2 & [= ->]).
    destruct (pauses_dec p c) as [Hp|Hnp].
    + exists cs, c, []. by repeat split.
    + destruct (exec_paused_frame _ _ _ p H2 Hnp) as [Hres Hframe].
      destruct (resumes_dec p c) as [Hr|Hnr].
      * rewrite (Hres Hr) in Hf. done.
      * rewrite (Hframe Hnr) in Hf.
        destruct (IH _ _ H1 Hf) as (cs1 & c0 & cs2 & -> & Hp0 & Hall).
        exists cs1, c0, (cs2 ++ [c]). split; [by rewrite <- app_assoc|].
        split; [done|]. apply Forall_app. split; [done|]. by repeat constructor.
Qed.

(** C5: after [resumePumps] over the ids S has completed, [paused_flows]
    has no entry for any id of S, whether or not a flow was restored for
    it; [pausePumps] snapshots the recorded flow of each of its ids; and in
    every session from a fresh controller, a paused flow of a pump exists
    only after a pause of that pump that no resume of it has followed. *)
Theorem resume_clears_paused_flows :
  (∀ st ids st' p,
     QBackend.resumePumps ids st = Some st' → p ∈ ids →
     QBackend.paused_flows st' !! p = None)
  ∧ (∀ st ids st' p,
       QBackend.pausePumps ids st = Some st' → p ∈ ids →
       is_Some (QBackend.last_flows st !! p) →
       QBackend.paused_flows st' !! p = QBackend.last_flows st !! p)
  ∧ (∀ portA portB lineA lineB cs st p f,
       QBackend.run cs (QBackend.create portA portB lineA lineB) = Some st →
       QBackend.paused_flows st !! p = Some f →
       ∃ cs1 c cs2,
         cs = cs1 ++ c :: cs2 ∧ pauses p c
         ∧ Forall (λ c', ¬ resumes p c') cs2).
Proof.
  split; [|split].
  - intros st ids st' p H Hin.
    by rewrite (resumePumps_paused _ _ _ H), decide_True.
  - intros st ids st' p H Hin Hf.
    apply pausePumps_inv in H as (_ & _ & _ & P). by apply P.
  - intros portA portB lineA lineB cs st p f. by apply paused_flow_between.
Qed.

End paused_flows.

(** Pump 3 paused at 12 on connected links: after [resumePumps [3]] its
    paused flow is gone. *)
Lemma resume_clears_paused_flows_witness :
  QBackend.paused_flows
    (QBackend.mk (PumpLink.mk "COM4" 115200 true false true [] [] [])
       (PumpLink.mk "COM6" 115200 true false true []
          [CmdFlow 2 (Fin 12)] [CmdFlow 2 (Fin 12)])
       {[3 := Fin 12]} ∅ "" []) !! 3 = None.
Proof.
  apply (proj1 resume_clears_paused_flows
           (QBackend.mk (PumpLink.mk "COM4" 115200 true false true [] [] [])
              (PumpLink.mk "COM6" 115200 true false true [] [] [])
              {[3 := Fin 12]} {[3 := Fin 12]} "" [])
           [3]).
  - vm_compute. reflexivity.
  - apply list_elem_of_here.
Defined.

(** ** Legacy automation *)

Section automation.
Implicit Types (st : QBackend.t) (p local : Z) (which w : LinkId) (ids : list Z).

Lemma start_wave_frame_zero_min local shape period duty base :
  PumpLink.start_wave_frame local shape period duty
    (Some (Fin 0)) (Some base) None
  = mkWave local shape (PumpLink.wave_period_of period)
      (times100 (PumpLink.wave_duty_fraction duty)) (Fin 0) (max0 base).
Proof.
  unfold PumpLink.start_wave_frame, PumpLink.wave_bounds.
  cbv beta iota zeta delta [default from_option id].
  replace (max0 (Fin 0)) with (Fin 0) by reflexivity.
  by rewrite (fle_flt_false _ _ (max0_nonneg base)).
Qed.



End automation.



(** ** Unknown pump ids *)

Section invalid_pump.
Implicit Types (st : QBackend.t) (p local : Z) (which w : LinkId) (ids : list Z).

Local Abbreviation invalid p := ("Invalid pump id " +:+ pretty p).

Lemma _route_pump_invalid p st :
  ¬ (1 ≤ p ≤ 9) →
  QBackend._route_pump p st = (None, QBackend._set_error (invalid p) st).
Proof. intros Hp. by rewrite _route_pump_route, route_None. Qed.

Lemma resumePumps_sends ids st st' w :
  QBackend.resumePumps ids st = Some st' →
  PumpLink.sends (QBackend.link w st')
  = PumpLink.sends (QBackend.link w st)
    ++ flat_map (restore_cmds (QBackend.restore_flow st) w) ids.
Proof.
  unfold QBackend.resumePumps. rewrite bind_Some. intros (s1 & H1 & H2).
  apply resumePumps_restore_loop in H1 as (S1 & _).
  destruct (resumePumps_clear_loop ids s1) as (s2 & E & L & _).
  rewrite E in H2. injection H2 as <-. rewrite L. apply (S1 w).
Qed.

(** C4 (amended): for a global pump id outside 1..9, each of [set_flow],
    [prime], [stop], [startWaveForPump] and [set_calibration] does nothing
    but [_set_error] with the text "Invalid pump id p": the text becomes the
    stored last error, the error notification is emitted unless that text is
    already the stored last error, nothing is handed to either link, and
    [last_flows] and [paused_flows] are unchanged.  For the ids 1 to 9
    [_route_pump] returns the pair of the static partition and changes
    nothing.  In the batch slots the commands handed to the links are those
    of the entries within 1..9, in list order, whatever other entries the
    list holds. *)
Theorem invalid_pump_is_reported_and_ignored :
  (∀ st p,
     ¬ (1 ≤ p ≤ 9) →
     (∀ f, QBackend.set_flow p f st = Some (QBackend._set_error (invalid p) st))
     ∧ QBackend.prime p st = Some (QBackend._set_error (invalid p) st)
     ∧ QBackend.stop p st = Some (QBackend._set_error (invalid p) st)
     ∧ (∀ shape period duty mn mx,
          QBackend.startWaveForPump p shape period duty mn mx st
          = Some (QBackend._set_error (invalid p) st))
     ∧ (∀ v, QBackend.set_calibration p v st
             = Some (QBackend._set_error (invalid p) st))
     ∧ QBackend._last_error (QBackend._set_error (invalid p) st) = invalid p
     ∧ QBackend.emitted (QBackend._set_error (invalid p) st)
       = QBackend.emitted st
         ++ (if decide (invalid p = QBackend._last_error st) then []
             else [lastErrorChanged (invalid p)])
     ∧ QBackend.linkA (QBackend._set_error (invalid p) st) = QBackend.linkA st
     ∧ QBackend.linkB (QBackend._set_error (invalid p) st) = QBackend.linkB st
     ∧ QBackend.last_flows (QBackend._set_error (invalid p) st)
       = QBackend.last_flows st
     ∧ QBackend.paused_flows (QBackend._set_error (invalid p) st)
       = QBackend.paused_flows st)
  ∧ (∀ st,
       QBackend._route_pump 1 st = (Some (LinkA, 1), st)
       ∧ QBackend._route_pump 4 st = (Some (LinkA, 2), st)
       ∧ QBackend._route_pump 5 st = (Some (LinkA, 3), st)
       ∧ QBackend._route_pump 7 st = (Some (LinkA, 4), st)
       ∧ QBackend._route_pump 8 st = (Some (LinkA, 5), st)
       ∧ QBackend._route_pump 2 st = (Some (LinkB, 1), st)
       ∧ QBackend._route_pump 3 st = (Some (LinkB, 2), st)
       ∧ QBackend._route_pump 6 st = (Some (LinkB, 3), st)
       ∧ QBackend._route_pump 9 st = (Some (LinkB, 4), st))
  ∧ (∀ st ids st' w,
       QBackend.pausePumps ids st = Some st' →
       PumpLink.sends (QBackend.link w st')
       = PumpLink.sends (QBackend.link w st)
         ++ flat_map (pause_cmds w) (filter (λ p, 1 ≤ p ≤ 9) ids))
  ∧ (∀ st ids st' w,
       QBackend.resumePumps ids st = Some st' →
       PumpLink.sends (QBackend.link w st')
       = PumpLink.sends (QBackend.link w st)
         ++ flat_map (restore_cmds (QBackend.restore_flow st) w)
              (filter (λ p, 1 ≤ p ≤ 9) ids))
  ∧ (∀ st ids mode shape minutes period duty st' w,
       startswith (lower mode) "constant" = false →
       startswith (lower mode) "pulsatile" = true →
       QBackend.startAutomation ids mode shape minutes period duty st
       = Some st' →
       PumpLink.sends (QBackend.link w st')
       = PumpLink.sends (QBackend.link w st)
         ++ flat_map (automation_cmds shape period duty
                        (λ q, default (Fin 0) (QBackend.last_flows st !! q)) w)
              (filter (λ p, 1 ≤ p ≤ 9) ids)).
Proof.
  split; [|split; [|split; [|split]]].
  - intros st p Hp.
    split; [intros f; unfold QBackend.set_flow; by rewrite _route_pump_invalid|].
    split; [unfold QBackend.prime; by rewrite _route_pump_invalid|].
    split; [unfold QBackend.stop; by rewrite _route_pump_invalid|].
    split; [intros; unfold QBackend.startWaveForPump;
            by rewrite _route_pump_invalid|].
    split; [intros; unfold QBackend.set_calibration;
            by rewrite _route_pump_invalid|].
    split; [apply _last_error__set_error|].
    split; [apply emitted__set_error|].
    split; [apply (link__set_error LinkA)|].
    split; [apply (link__set_error LinkB)|].
    split; [apply last_flows__set_error | apply paused_flows__set_error].
  - intros st. by repeat split.
  - intros st ids st' w (S & _)%pausePumps_inv.
    unfold pause_cmds. rewrite <- flat_map_routed_valid. apply (S w).
  - intros st ids st' w H. unfold restore_cmds.
    rewrite <- flat_map_routed_valid. by apply resumePumps_sends.
  - intros st ids mode shape minutes period duty st' w Hc Hp.
    unfold QBackend.startAutomation. rewrite Hc, Hp. simpl.
    intros (S & _)%startAutomation_loop.
    unfold automation_cmds. rewrite <- flat_map_routed_valid. apply (S w).
Qed.

End invalid_pump.

(** C4 (as stated, refuted): the second [set_flow] on the unknown pump 10
    emits no error notification. *)
Lemma invalid_pump_repeat_counterexample :
  ∃ st1 st2,
    QBackend.run [QBackend.call_set_flow 10 (Fin 5)]
      (QBackend.create "COM4" "COM6" [true] [true]) = Some st1
    ∧ QBackend.set_flow 10 (Fin 5) st1 = Some st2
    ∧ QBackend.emitted st1 = [lastErrorChanged "Invalid pump id 10"]
    ∧ QBackend.emitted st2 = QBackend.emitted st1.
Proof.
  do 2 eexists. split; [vm_compute; reflexivity|].
  split; [vm_compute; reflexivity|]. split; reflexivity.
Qed.

(** Pump 10: the first [prime] emits the notification, and [pausePumps]
    over 10 and 7 still stops local pump 4 of link A. *)
Lemma invalid_pump_is_reported_and_ignored_witness :
  QBackend.prime 10 (QBackend.create "COM4" "COM6" [true] [true])
  = Some (QBackend._set_error "Invalid pump id 10"
            (QBackend.create "COM4" "COM6" [true] [true]))
  ∧ PumpLink.sends
      (QBackend.link LinkA
         (QBackend.mk (PumpLink.mk "COM4" 115200 true false true []
                         [CmdStop 4] [CmdStop 4])
            (PumpLink.create "COM6" 115200 [true])
            ∅ ∅ "Invalid pump id 10"
            [lastErrorChanged "Invalid pump id 10"]))
    = [CmdStop 4].
Proof.
  split.
  - apply (proj1 invalid_pump_is_reported_and_ignored
             (QBackend.create "COM4" "COM6" [true] [true]) 10). lia.
  - apply (proj1 (proj2 (proj2 invalid_pump_is_reported_and_ignored))
             (QBackend.create "COM4" "COM6" [true] [true]) [10; 7]).
    vm_compute. reflexivity.
Defined.

(** After [close], [open] fails: the failure text is emitted once, and two
    more calls of [open] emit no further error notification. *)
Lemma error_notifications_deduplicated_witness :
  ∃ st2,
    QBackend.run (replicate 2 QBackend.call_open)
      (QBackend._set_error "Failed to open one or both serial ports"
         (QBackend.emit (connectionChanged false)
            (QBackend.close (QBackend.create "COM4" "COM6" [true] [true]))))
    = Some st2
    ∧ error_texts (QBackend.emitted st2)
      = ["Failed to open one or both serial ports"].
Proof.
  destruct (proj1 (proj2 (proj2 error_notifications_deduplicated))
              (QBackend.close (QBackend.create "COM4" "COM6" [true] [true]))
              (QBackend._set_error "Failed to open one or both serial ports"
                 (QBackend.emit (connectionChanged false)
                    (QBackend.close
                       (QBackend.create "COM4" "COM6" [true] [true])))))
    as (_ & _ & H); [vm_compute; reflexivity|].
  destruct (H 2%nat) as (st2 & H1 & H2 & _).
  exists st2. split; [exact H1|]. rewrite H2. reflexivity.
Defined.

(** * Further properties of the code *)

(** ** The link on its own *)

Section link_more.
Implicit Types (l : PumpLink.t) (c : Cmd).

Lemma open_ser_open l ok l' :
  PumpLink.open l = Some (ok, l') →
  PumpLink.ser_open l' = ok ∧ PumpLink._stop l' = PumpLink._stop l.
Proof.
  unfold PumpLink.open. destruct (PumpLink.ser_open l) eqn:Ho.
  - by intros [= <- <-].
  - intros H. apply open_loop_inv in H as (_ & Hs & Hser & _).
    by rewrite Hser, Ho, orb_false_r.
Qed.

(** X1: when [open] returns, its result tells whether the port is open
    afterwards, the stop flag and both logs are as before, and a second
    [open] returns the same result without changing anything. *)
Theorem link_open_result l ok l' :
  PumpLink.open l = Some (ok, l') →
  PumpLink.ser_open l' = ok
  ∧ PumpLink._stop l' = PumpLink._stop l
  ∧ PumpLink.wire l' = PumpLink.wire l
  ∧ PumpLink.sends l' = PumpLink.sends l
  ∧ PumpLink.open l' = Some (ok, l').
Proof.
  intros H. destruct (open_ser_open _ _ _ H) as [H1 H2].
  destruct (open_logs _ _ _ H) as [H3 H4].
  repeat split; try done. by eapply open_idem.
Qed.

Lemma _send_settled c l :
  PumpLink.settled l = true →
  ∃ l', PumpLink._send c l = Some l'
        ∧ PumpLink.line l' = PumpLink.line l
        ∧ PumpLink.ser_open l' = PumpLink.ser_open l
        ∧ PumpLink._stop l' = PumpLink._stop l
        ∧ PumpLink.rx_thread l' = PumpLink.rx_thread l
        ∧ PumpLink.wire l'
          = PumpLink.wire l ++ (if PumpLink.ser_open l then [c] else [])
        ∧ PumpLink.sends l' = PumpLink.sends l ++ [c].
Proof.
  unfold PumpLink.settled, PumpLink._send, PumpLink.open. simpl.
  destruct (PumpLink.ser_open l) eqn:Ho; simpl.
  - intros _. eexists. split; [done|]. simpl. by rewrite Ho.
  - intros Hs. rewrite open_loop_stopped by done. simpl.
    eexists. split; [done|]. simpl. by rewrite Ho, app_nil_r.
Qed.

(** X2: once a call of [_send] has returned, every later [_send] on that
    link returns too, makes no connection attempt, and leaves the port as
    it is: the object is written if the port is open and dropped if not. *)
Theorem send_settles_link c l l' :
  PumpLink._send c l = Some l' →
  ∀ c2, ∃ l'',
    PumpLink._send c2 l' = Some l''
    ∧ PumpLink.line l'' = PumpLink.line l'
    ∧ PumpLink.ser_open l'' = PumpLink.ser_open l'
    ∧ PumpLink.wire l''
      = PumpLink.wire l' ++ (if PumpLink.ser_open l' then [c2] else [])
    ∧ PumpLink.sends l'' = PumpLink.sends l' ++ [c2].
Proof.
  intros H c2. apply _send_sent in H as [_ _ _ Hset _ _].
  destruct (_send_settled c2 l' (Hset ltac:(done)))
    as (l'' & E & H1 & H2 & _ & _ & H3 & H4).
  by exists l''.
Qed.

Lemma open_loop_all_fail attempts l :
  PumpLink._stop l = false → true ∉ attempts →
  PumpLink.open_loop attempts l = None.
Proof.
  intros Hs. induction attempts as [|a rest IH]; simpl; rewrite Hs; [done|].
  intros Hn. apply not_elem_of_cons in Hn as [Ha Hn].
  destruct a; [done|]. by apply IH.
Qed.

(** X3: the four cases of [_send].  On an open port the object is written
    and no connection is attempted.  On a closed port with the stop flag
    set the object is dropped and the call returns.  On a closed port
    without the stop flag the call connects at the first attempt that
    succeeds and then writes; and while every attempt fails it does not
    return. *)
Theorem send_writes_drops_or_connects c l :
  (PumpLink.ser_open l = true →
   ∃ l', PumpLink._send c l = Some l'
         ∧ PumpLink.wire l' = PumpLink.wire l ++ [c]
         ∧ PumpLink.line l' = PumpLink.line l
         ∧ PumpLink.ser_open l' = true)
  ∧ (PumpLink.ser_open l = false → PumpLink._stop l = true →
     ∃ l', PumpLink._send c l = Some l'
           ∧ PumpLink.wire l' = PumpLink.wire l
           ∧ PumpLink.line l' = PumpLink.line l
           ∧ PumpLink.ser_open l' = false)
  ∧ (∀ fails rest,
       PumpLink.ser_open l = false → PumpLink._stop l = false →
       PumpLink.line l = replicate fails false ++ true :: rest →
       ∃ l', PumpLink._send c l = Some l'
             ∧ PumpLink.wire l' = PumpLink.wire l ++ [c]
             ∧ PumpLink.line l' = rest
             ∧ PumpLink.ser_open l' = true
             ∧ PumpLink.rx_thread l' = true)
  ∧ (PumpLink.ser_open l = false → PumpLink._stop l = false →
     true ∉ PumpLink.line l →
     PumpLink._send c l = None).
Proof.
  split; [|split; [|split]].
  - intros Ho.
    destruct (_send_settled c l) as (l' & E & H1 & H2 & _ & _ & H3 & _).
    { unfold PumpLink.settled. by rewrite Ho. }
    exists l'. rewrite Ho in H3, H2. done.
  - intros Ho Hs.
    destruct (_send_settled c l) as (l' & E & H1 & H2 & _ & _ & H3 & _).
    { unfold PumpLink.settled. by rewrite Hs, orb_true_r. }
    exists l'. rewrite Ho in H3, H2. by rewrite app_nil_r in H3.
  - intros fails rest Ho Hs Hl.
    unfold PumpLink._send, PumpLink.open. simpl. rewrite Ho, Hl.
    rewrite open_loop_connects by done. simpl. by eexists.
  - intros Ho Hs Hl.
    unfold PumpLink._send, PumpLink.open. simpl. rewrite Ho.
    by rewrite open_loop_all_fail.
Qed.

End link_more.

(** A port that fails once and then connects. *)
Lemma link_open_result_witness :
  PumpLink.open
    (PumpLink.mk "COM4" 115200 true false true [] [] [])
  = Some (true, PumpLink.mk "COM4" 115200 true false true [] [] []).
Proof.
  apply (link_open_result (PumpLink.create "COM4" 115200 [false; true]) true
           (PumpLink.mk "COM4" 115200 true false true [] [] [])).
  reflexivity.
Defined.

(** After a first [_send] on a fresh link whose port connects at once, a
    second one is written without any further attempt. *)
Lemma send_settles_link_witness :
  ∃ l'',
    PumpLink._send (CmdStop 2)
      (PumpLink.mk "COM4" 115200 true false true [false] [CmdPrime 2] [CmdPrime 2])
    = Some l''
    ∧ PumpLink.line l'' = [false]
    ∧ PumpLink.wire l'' = [CmdPrime 2; CmdStop 2].
Proof.
  destruct (send_settles_link (CmdPrime 2)
              (PumpLink.create "COM4" 115200 [true; false])
              (PumpLink.mk "COM4" 115200 true false true [false]
                 [CmdPrime 2] [CmdPrime 2])
              eq_refl (CmdStop 2)) as (l'' & H1 & H2 & _ & H3 & _).
  exists l''. split; [exact H1|]. split; [exact H2 | exact H3].
Defined.

(** A closed link after [close] drops the object; a fresh link whose port
    fails twice connects at the third attempt and writes. *)
Lemma send_writes_drops_or_connects_witness :
  (∃ l', PumpLink._send (CmdStop 1)
           (PumpLink.close (PumpLink.create "COM4" 115200 [true]))
         = Some l'
         ∧ PumpLink.wire l' = [])
  ∧ (∃ l', PumpLink._send (CmdStop 1)
             (PumpLink.create "COM4" 115200 [false; false; true; false])
           = Some l'
           ∧ PumpLink.wire l' = [CmdStop 1]
           ∧ PumpLink.line l' = [false]).
Proof.
  split.
  - destruct (proj1 (proj2 (send_writes_drops_or_connects (CmdStop 1)
                (PumpLink.close (PumpLink.create "COM4" 115200 [true]))))
                eq_refl eq_refl) as (l' & H1 & H2 & _).
    exists l'. split; [exact H1 | exact H2].
  - destruct (proj1 (proj2 (proj2 (send_writes_drops_or_connects (CmdStop 1)
                (PumpLink.create "COM4" 115200 [false; false; true; false]))))
                2%nat [false] eq_refl eq_refl eq_refl)
      as (l' & H1 & H2 & H3 & _).
    exists l'. split; [exact H1|]. split; [exact H2 | exact H3].
Defined.

(** ** The reader loop *)

Section reader.
Implicit Types (buf chunk line rest bs : list Byte.byte) (b : Byte.byte).

Lemma byte_eqb_eq b1 b2 : Byte.eqb b1 b2 = true ↔ b1 = b2.
Proof. split; [apply Byte.byte_dec_bl | apply Byte.byte_dec_lb]. Qed.

Lemma split_newline_Some buf line rest :
  PumpLink.split_newline buf = Some (line, rest) →
  buf = line ++ Byte.x0a :: rest ∧ Byte.x0a ∉ line.
Proof.
  revert line. induction buf as [|b buf IH]; intros line; simpl; [done|].
  destruct (Byte.eqb b Byte.x0a) eqn:E.
  - apply byte_eqb_eq in E as ->. intros [= <- <-].
    split; [done | apply not_elem_of_nil].
  - rewrite bind_Some. intros ([line' rest'] & H & [= <- <-]).
    destruct (IH _ H) as [-> Hn]. split; [done|].
    apply not_elem_of_cons. split; [|done].
    intros <-. by rewrite (Byte.byte_dec_lb eq_refl) in E.
Qed.

Lemma split_newline_None buf :
  PumpLink.split_newline buf = None ↔ Byte.x0a ∉ buf.
Proof.
  induction buf as [|b buf IH]; simpl.
  - split; [intros _; apply not_elem_of_nil | done].
  - destruct (Byte.eqb b Byte.x0a) eqn:E.
    + apply byte_eqb_eq in E as ->. split; [done|].
      intros H. exfalso. apply H. left.
    + rewrite not_elem_of_cons, <- IH.
      destruct (PumpLink.split_newline buf) as [[??]|]; simpl.
      * split; [done | by intros [_ ?]].
      * split; [|done]. intros _. split; [|done].
        intros <-. by rewrite (Byte.byte_dec_lb eq_refl) in E.
Qed.

Lemma split_newline_app buf line rest chunk :
  PumpLink.split_newline buf = Some (line, rest) →
  PumpLink.split_newline (buf ++ chunk) = Some (line, rest ++ chunk).
Proof.
  revert line. induction buf as [|b buf IH]; intros line; simpl; [done|].
  destruct (Byte.eqb b Byte.x0a); [by intros [= <- <-]|].
  rewrite bind_Some. intros ([line' rest'] & H & [= <- <-]).
  by rewrite (IH _ H).
Qed.

Lemma lstrip_suffix bs : PumpLink.lstrip bs `suffix_of` bs.
Proof.
  induction bs as [|b bs IH]; simpl; [done|].
  destruct (PumpLink.is_space b); [by apply suffix_cons_r | done].
Qed.

Lemma lstrip_head bs b :
  head (PumpLink.lstrip bs) = Some b → PumpLink.is_space b = false.
Proof.
  induction bs as [|b' bs IH]; simpl; [done|].
  destruct (PumpLink.is_space b') eqn:E; [done|]. by intros [= <-].
Qed.

Lemma suffix_last bs1 bs2 :
  bs1 `suffix_of` bs2 → bs1 ≠ [] → last bs1 = last bs2.
Proof.
  intros [k ->] Hne. destruct bs1 as [|b bs1]; [done|].
  by rewrite last_app_cons.
Qed.

Lemma strip_elem_of bs b : b ∈ PumpLink.strip bs → b ∈ bs.
Proof.
  unfold PumpLink.strip. rewrite elem_of_reverse. intros H.
  pose proof (elem_of_suffix _ _ _ H
                (lstrip_suffix (reverse (PumpLink.lstrip bs)))) as H'.
  rewrite elem_of_reverse in H'.
  exact (elem_of_suffix _ _ _ H' (lstrip_suffix bs)).
Qed.

Lemma strip_printable line :
  Byte.x0a ∉ line → PumpLink.strip line ≠ [] →
  printable_line (PumpLink.strip line).
Proof.
  intros Hn Hne. split; [done|]. split.
  { intros H. by apply strip_elem_of in H. }
  unfold PumpLink.strip in *.
  set (inner := PumpLink.lstrip line) in *.
  set (outer := PumpLink.lstrip (reverse inner)) in *.
  assert (outer ≠ []) as Houter.
  { intros E. apply Hne. by rewrite E. }
  split.
  - intros b. rewrite head_reverse.
    rewrite (suffix_last outer (reverse inner) (lstrip_suffix _) Houter).
    rewrite last_reverse. apply lstrip_head.
  - intros b. rewrite last_reverse. apply lstrip_head.
Qed.

(** More fuel than the loop needs does not change what it prints. *)
Lemma rx_lines_fuel fuel fuel' buf r :
  PumpLink.rx_lines fuel buf = Some r → (length buf ≤ fuel')%nat →
  PumpLink.rx_lines fuel' buf = Some r.
Proof.
  revert fuel' buf r. induction fuel as [|fuel IH]; intros fuel' buf r;
    destruct fuel' as [|fuel']; simpl;
    destruct (PumpLink.split_newline buf) as [[line rest]|] eqn:E; try done.
  - intros _ Hlen. apply split_newline_Some in E as [-> _].
    rewrite length_app in Hlen. simpl in Hlen. lia.
  - rewrite bind_Some. intros ([printed buf'] & H & [= <-]) Hlen.
    rewrite (IH fuel' rest (printed, buf') H); [done|].
    apply split_newline_Some in E as [-> _].
    rewrite length_app in Hlen. simpl in Hlen. lia.
Qed.

Lemma rx_lines_enough fuel buf :
  (length buf ≤ fuel)%nat →
  ∃ printed buf',
    PumpLink.rx_lines fuel buf = Some (printed, buf')
    ∧ (Byte.x0a ∉ buf')
    ∧ buf' `suffix_of` buf
    ∧ Forall printable_line printed.
Proof.
  revert buf. induction fuel as [|fuel IH]; intros buf Hlen; simpl;
    destruct (PumpLink.split_newline buf) as [[line rest]|] eqn:E.
  - apply split_newline_Some in E as [-> _].
    rewrite length_app in Hlen. simpl in Hlen. lia.
  - exists [], buf. by rewrite <- split_newline_None.
  - apply split_newline_Some in E as [-> Hn].
    destruct (IH rest) as (printed & buf' & -> & H1 & H2 & H3).
    { rewrite length_app in Hlen. simpl in Hlen. lia. }
    simpl. eexists _, buf'. split; [done|]. split; [done|]. split.
    + etrans; [exact H2|]. apply suffix_app_r, suffix_cons_r. done.
    + case_bool_decide as Hs; [done|]. constructor; [|done].
      by apply strip_printable.
  - exists [], buf. by rewrite <- split_newline_None.
Qed.

Lemma rx_lines_app fuel1 fuel2 fuel buf chunk printed1 buf1 printed2 buf2 :
  PumpLink.rx_lines fuel1 buf = Some (printed1, buf1) →
  PumpLink.rx_lines fuel2 (buf1 ++ chunk) = Some (printed2, buf2) →
  (length (buf ++ chunk) ≤ fuel)%nat →
  PumpLink.rx_lines fuel (buf ++ chunk) = Some (printed1 ++ printed2, buf2).
Proof.
  revert fuel buf printed1.
  induction fuel1 as [|fuel1 IH]; intros fuel buf printed1; simpl;
    destruct (PumpLink.split_newline buf) as [[line rest]|] eqn:E; try done.
  - intros [= <- <-] H2 Hlen. by eapply rx_lines_fuel.
  - rewrite bind_Some. intros ([printed buf'] & H & [= <- <-]) H2 Hlen.
    pose proof (split_newline_app _ _ _ chunk E) as E'.
    apply split_newline_Some in E as [-> _].
    destruct fuel as [|fuel].
    { rewrite !length_app in Hlen. simpl in Hlen. lia. }
    simpl. rewrite E'. rewrite (IH fuel rest printed H H2).
    + simpl. by case_bool_decide.
    + rewrite !length_app in *. simpl in Hlen. lia.
  - intros [= <- <-] H2 Hlen. by eapply rx_lines_fuel.
Qed.

(** X4: a pass of the reader loop always comes to an end.  After a pass on
    a non-empty chunk the buffer holds no line feed (and an empty chunk
    leaves the buffer as it is), and every line printed is non-empty, free
    of line feeds and stripped of whitespace at both ends. *)
Theorem rx_pass_prints_whole_lines buf chunk :
  ∃ printed buf',
    PumpLink._rx_loop_pass buf chunk = Some (printed, buf')
    ∧ (chunk = [] → printed = [] ∧ buf' = buf)
    ∧ (chunk ≠ [] → Byte.x0a ∉ buf')
    ∧ buf' `suffix_of` (buf ++ chunk)
    ∧ Forall printable_line printed.
Proof.
  unfold PumpLink._rx_loop_pass. destruct chunk as [|b chunk].
  - exists [], buf. rewrite app_nil_r. by repeat split.
  - destruct (rx_lines_enough (length (buf ++ b :: chunk)) (buf ++ b :: chunk))
      as (printed & buf' & E & H1 & H2 & H3); [done|].
    exists printed, buf'. by repeat split.
Qed.

(** X5: how the bytes arrive does not matter: reading two non-empty chunks
    in two passes prints the same lines, and leaves the same buffer, as
    reading them as one chunk. *)
Theorem rx_pass_chunking buf chunk1 chunk2 printed1 buf1 printed2 buf2 :
  chunk1 ≠ [] → chunk2 ≠ [] →
  PumpLink._rx_loop_pass buf chunk1 = Some (printed1, buf1) →
  PumpLink._rx_loop_pass buf1 chunk2 = Some (printed2, buf2) →
  PumpLink._rx_loop_pass buf (chunk1 ++ chunk2)
  = Some (printed1 ++ printed2, buf2).
Proof.
  unfold PumpLink._rx_loop_pass.
  destruct chunk1 as [|b1 chunk1]; [done|].
  destruct chunk2 as [|b2 chunk2]; [done|]. intros _ _ H1 H2.
  change ((b1 :: chunk1) ++ b2 :: chunk2)
    with (b1 :: (chunk1 ++ b2 :: chunk2)).
  cbv iota.
  replace (buf ++ b1 :: chunk1 ++ b2 :: chunk2)
    with ((buf ++ b1 :: chunk1) ++ b2 :: chunk2) by by rewrite <- app_assoc.
  by eapply rx_lines_app.
Qed.

End reader.

(** "ok\r\nA" arriving as "ok\r" and "\nA": the line "ok" is printed by the
    second pass, and "A" stays in the buffer. *)
Lemma rx_pass_chunking_witness :
  PumpLink._rx_loop_pass []
    ([Byte.x6f; Byte.x6b; Byte.x0d] ++ [Byte.x0a; Byte.x41])
  = Some ([] ++ [[Byte.x6f; Byte.x6b]], [Byte.x41]).
Proof.
  apply (rx_pass_chunking [] [Byte.x6f; Byte.x6b; Byte.x0d]
           [Byte.x0a; Byte.x41] [] [Byte.x6f; Byte.x6b; Byte.x0d]
           [[Byte.x6f; Byte.x6b]] [Byte.x41]).
  - discriminate.
  - discriminate.
  - reflexivity.
  - reflexivity.
Defined.

(** A pass with nothing read, and a pass that completes a line. *)
Lemma rx_pass_prints_whole_lines_witness :
  ∃ printed buf',
    PumpLink._rx_loop_pass [Byte.x6f; Byte.x6b] [Byte.x0a; Byte.x41]
    = Some (printed, buf')
    ∧ (Byte.x0a ∉ buf')
    ∧ Forall printable_line printed.
Proof.
  destruct (rx_pass_prints_whole_lines [Byte.x6f; Byte.x6b] [Byte.x0a; Byte.x41])
    as (printed & buf' & H1 & _ & H2 & _ & H3).
  exists printed, buf'. split; [exact H1|]. split; [|exact H3].
  apply H2. discriminate.
Defined.

(** ** Slots never block once the links are settled *)

Section liveness.
Implicit Types (st : QBackend.t) (l : PumpLink.t) (c : QBackend.Call)
  (p local : Z) (which w : LinkId).

Lemma open_settled l ok l' :
  PumpLink.open l = Some (ok, l') → PumpLink.settled l' = true.
Proof.
  intros H. destruct (open_ser_open _ _ _ H) as [Ho Hs].
  unfold PumpLink.settled. rewrite Ho, Hs. destruct ok; [done|].
  by rewrite (open_false_only_if_stopped _ _ H).
Qed.

Lemma controller_open_returns st :
  QBackend.responsive st = true →
  ∃ ok st', QBackend.open st = Some (ok, st')
            ∧ QBackend.responsive st' = true.
Proof.
  intros Hr. pose proof (proj1 (responsive_links st) Hr) as Hl.
  destruct (open_returns _ (Hl LinkA)) as [[okA la] EA].
  destruct (open_returns _ (Hl LinkB)) as [[okB lb] EB].
  simpl in EA, EB.
  assert (∀ msg, QBackend.responsive
            (QBackend._set_error msg
               (QBackend.emit (connectionChanged (okA && okB))
                  (QBackend.set_link LinkB lb
                     (QBackend.set_link LinkA la st)))) = true) as Hres.
  { intros msg. apply responsive_links. intros w.
    rewrite link__set_error.
    destruct w; simpl; apply settled_responsive; by eapply open_settled. }
  unfold QBackend.open. rewrite EA. simpl. rewrite EB. simpl.
  destruct (okA && okB); eexists _, _; (split; [done|]); apply Hres.
Qed.

Lemma close_responsive st : QBackend.responsive (QBackend.close st) = true.
Proof.
  unfold QBackend.responsive, PumpLink.responsive. simpl.
  by rewrite ?orb_true_r.
Qed.

Local Ltac route_returns p st Hr :=
  rewrite (_route_pump_route p st);
  destruct (QBackend.route p) as [[? ?]|];
  [| eexists; split; [done|];
     by apply (responsive_same_links st); [intros; apply link__set_error|] ].

Lemma send_returns_responsive which (cmd : Cmd) st :
  QBackend.responsive st = true →
  ∃ st', QBackend.on_link which (PumpLink._send cmd) st = Some st'
         ∧ QBackend.responsive st' = true.
Proof.
  intros Hr. destruct (on_link_send_returns which cmd st Hr) as [st' E].
  exists st'. split; [done|].
  apply on_link_send_inv in E as (S & _). by eapply sent_on_responsive.
Qed.

(** Each slot returns when no link can block, and no link can block
    afterwards. *)
Lemma exec_returns c st :
  QBackend.responsive st = true →
  ∃ st', QBackend.exec c st = Some st' ∧ QBackend.responsive st' = true.
Proof.
  intros Hr. destruct c; simpl.
  - destruct (controller_open_returns st Hr) as (ok & st' & -> & H).
    by exists st'.
  - eexists. split; [done | apply close_responsive].
  - by exists st.
  - unfold QBackend.prime. route_returns pump st Hr.
    by apply send_returns_responsive.
  - unfold QBackend.stop. rewrite (_route_pump_route pump st).
    destruct (QBackend.route pump) as [[which local]|].
    + destruct (send_returns_responsive which (CmdStop local) st Hr)
        as (s1 & E1 & Hr1).
      unfold PumpLink.stop. rewrite E1. simpl.
      by apply send_returns_responsive.
    + eexists. split; [done|].
      by apply (responsive_same_links st); [intros; apply link__set_error|].
  - destruct (stopAll_spec st Hr) as (st' & E & S & _).
    exists st'. split; [done|]. by eapply sent_on_responsive.
  - destruct (stopAll_spec st Hr) as (st' & E & S & _).
    exists st'. split; [done|]. by eapply sent_on_responsive.
  - unfold QBackend.set_flow. route_returns pump st Hr.
    by apply send_returns_responsive.
  - destruct (pauseAll_spec st Hr) as (st' & E & S & _).
    exists st'. split; [done|]. by eapply sent_on_responsive.
  - destruct (pauseAll_spec st Hr) as (st' & E & S & _).
    exists st'. split; [done|]. by eapply sent_on_responsive.
  - apply (for_each_returns (λ s, QBackend.responsive s = true));
      [apply pausePumps_body_returns | done].
  - unfold QBackend.resumePumps.
    destruct (for_each_returns (λ s, QBackend.responsive s = true)
                QBackend.resumePumps_restore ids st
                (λ x s, resumePumps_restore_returns x s) Hr) as (s1 & -> & Hr1).
    simpl. destruct (resumePumps_clear_loop ids s1) as (s2 & E & L & _).
    exists s2. split; [done|]. by apply (responsive_same_links s1).
  - unfold QBackend.startAutomation.
    destruct (startswith _ "constant"); [by exists st|].
    destruct (negb _); [by exists st|].
    apply (for_each_returns (λ s, QBackend.responsive s = true)); [|done].
    apply startAutomation_body_returns.
  - unfold QBackend.startWaveForPump. route_returns pump st Hr.
    destruct (fgt maxFlow (Fin 0)); by apply send_returns_responsive.
  - unfold QBackend.set_calibration. rewrite (_route_pump_route pump st).
    destruct (QBackend.route pump) as [[? ?]|]; eexists; (split; [done|]);
      [done|].
    by apply (responsive_same_links st); [intros; apply link__set_error|].
Qed.

Lemma run_returns cs st :
  QBackend.responsive st = true →
  ∃ st', QBackend.run cs st = Some st' ∧ QBackend.responsive st' = true.
Proof.
  revert st. induction cs as [|c cs IH]; intros st Hr; simpl.
  - by exists st.
  - destruct (exec_returns c st Hr) as (s1 & -> & Hr1). simpl. by apply IH.
Qed.

(** X6: the only place a slot can block is the retry loop of [open].  If
    no link can block there (each port is open, or shut down, or will
    connect at some coming attempt), then every sequence of slots returns;
    and this is the case after any call of [QBackend.open] that has
    returned, and after [QBackend.close]. *)
Theorem slots_return_once_settled :
  (∀ st cs, QBackend.responsive st = true →
            ∃ st', QBackend.run cs st = Some st'
                   ∧ QBackend.responsive st' = true)
  ∧ (∀ st ok st', QBackend.open st = Some (ok, st') →
                  QBackend.responsive st' = true)
  ∧ (∀ st, QBackend.responsive (QBackend.close st) = true).
Proof.
  split; [|split].
  - intros st cs. apply run_returns.
  - intros st ok st' (okA & la & okB & lb & HA & HB & _ & ->)%open_inv.
    apply responsive_links. intros w. rewrite link__set_error.
    destruct w; simpl; apply settled_responsive; by eapply open_settled.
  - apply close_responsive.
Qed.

End liveness.

(** A controller whose ports connect at the second and at the first
    attempt: a session of three slots returns. *)
Lemma slots_return_once_settled_witness :
  ∃ st',
    QBackend.run
      [QBackend.call_set_flow 1 (Fin 20); QBackend.call_pausePumps [1; 2];
       QBackend.call_resumePumps [1; 2]]
      (QBackend.create "COM4" "COM6" [false; true] [true]) = Some st'
    ∧ QBackend.responsive st' = true.
Proof.
  apply (proj1 slots_return_once_settled
           (QBackend.create "COM4" "COM6" [false; true] [true])).
  reflexivity.
Defined.

(** ** Connecting and shutting down the controller *)

Section lifecycle.
Implicit Types (st : QBackend.t) (l : PumpLink.t) (p local : Z)
  (which w : LinkId).

Lemma controller_open_flags st ok st' :
  QBackend.open st = Some (ok, st') →
  ok = PumpLink.ser_open (QBackend.linkA st')
       && PumpLink.ser_open (QBackend.linkB st')
  ∧ QBackend._last_error st'
    = (if ok then "" else "Failed to open one or both serial ports").
Proof.
  intros (okA & la & okB & lb & HA & HB & -> & ->)%open_inv.
  pose proof (link__set_error LinkA) as EA. pose proof (link__set_error LinkB) as EB.
  simpl in EA, EB. rewrite EA, EB, _last_error__set_error. simpl.
  destruct (open_ser_open _ _ _ HA) as [-> _].
  by destruct (open_ser_open _ _ _ HB) as [-> _].
Qed.

(** X7: when [QBackend.open] returns, its result is true exactly when both
    ports are open afterwards; it emits one connectivity signal carrying
    the result, followed by the error notification if the error text
    changes; the stored error becomes empty on success and the failure
    text otherwise; and no flow record and no log of a link is touched. *)
Theorem controller_open_reports_connectivity st ok st' :
  QBackend.open st = Some (ok, st') →
  ok = PumpLink.ser_open (QBackend.linkA st')
       && PumpLink.ser_open (QBackend.linkB st')
  ∧ QBackend._last_error st'
    = (if ok then "" else "Failed to open one or both serial ports")
  ∧ QBackend.emitted st'
    = QBackend.emitted st
      ++ connectionChanged ok
         :: (if decide (QBackend._last_error st' = QBackend._last_error st)
             then [] else [lastErrorChanged (QBackend._last_error st')])
  ∧ QBackend.last_flows st' = QBackend.last_flows st
  ∧ QBackend.paused_flows st' = QBackend.paused_flows st
  ∧ ∀ w, PumpLink.wire (QBackend.link w st') = PumpLink.wire (QBackend.link w st)
         ∧ PumpLink.sends (QBackend.link w st')
           = PumpLink.sends (QBackend.link w st).
Proof.
  intros (okA & la & okB & lb & HA & HB & -> & ->)%open_inv.
  pose proof (link__set_error LinkA) as EA. pose proof (link__set_error LinkB) as EB.
  simpl in EA, EB.
  rewrite EA, EB, _last_error__set_error, emitted__set_error,
    last_flows__set_error, paused_flows__set_error. simpl.
  destruct (open_ser_open _ _ _ HA) as [-> _].
  destruct (open_ser_open _ _ _ HB) as [-> _].
  split; [done|]. split; [done|]. split; [by rewrite <- app_assoc|].
  split; [done|]. split; [done|].
  intros w. rewrite link__set_error.
  destruct (open_logs _ _ _ HA) as [WA SA].
  destruct (open_logs _ _ _ HB) as [WB SB]. by destruct w.
Qed.

(** X8: on a controller whose links have never been shut down, [open]
    cannot report a failure: when it returns, it returns true, both ports
    are open and the stored error is empty; and it does return when each
    port is open or connects at some coming attempt. *)
Theorem open_succeeds_unless_closed st :
  PumpLink._stop (QBackend.linkA st) = false →
  PumpLink._stop (QBackend.linkB st) = false →
  (∀ ok st', QBackend.open st = Some (ok, st') →
             ok = true
             ∧ PumpLink.ser_open (QBackend.linkA st') = true
             ∧ PumpLink.ser_open (QBackend.linkB st') = true
             ∧ QBackend._last_error st' = "")
  ∧ (QBackend.responsive st = true →
     ∃ st', QBackend.open st = Some (true, st')).
Proof.
  intros HsA HsB.
  assert (∀ ok st', QBackend.open st = Some (ok, st') → ok = true) as Htrue.
  { intros ok st' (okA & la & okB & lb & HA & HB & -> & _)%open_inv.
    destruct okA; [|by rewrite (open_false_only_if_stopped _ _ HA) in HsA].
    destruct okB; [done|].
    by rewrite (open_false_only_if_stopped _ _ HB) in HsB. }
  split.
  - intros ok st' H. pose proof (Htrue _ _ H) as ->.
    destruct (controller_open_flags st true st' H) as (Hok & He).
    split; [done|].
    symmetry in Hok. apply andb_true_iff in Hok as [-> ->]. done.
  - intros Hr. destruct (controller_open_returns st Hr) as (ok & st' & H & _).
    pose proof (Htrue _ _ H) as ->. by exists st'.
Qed.

End lifecycle.

(** A controller that was never shut down, with port A open and port B
    connecting at the second attempt. *)
Lemma controller_open_reports_connectivity_witness :
  true = PumpLink.ser_open
           (QBackend.linkA
              (QBackend.mk (PumpLink.mk "COM4" 115200 true false true [] [] [])
                 (PumpLink.mk "COM6" 115200 true false true [] [] [])
                 ∅ ∅ "" [connectionChanged true]))
         && PumpLink.ser_open
              (QBackend.linkB
                 (QBackend.mk (PumpLink.mk "COM4" 115200 true false true [] [] [])
                    (PumpLink.mk "COM6" 115200 true false true [] [] [])
                    ∅ ∅ "" [connectionChanged true])).
Proof.
  apply (controller_open_reports_connectivity
           (QBackend.mk (PumpLink.mk "COM4" 115200 true false true [] [] [])
              (PumpLink.create "COM6" 115200 [false; true]) ∅ ∅ "" [])
           true).
  reflexivity.
Defined.

Lemma open_succeeds_unless_closed_witness :
  ∃ st', QBackend.open (QBackend.create "COM4" "COM6" [false; true] [true])
         = Some (true, st').
Proof.
  apply (open_succeeds_unless_closed
           (QBackend.create "COM4" "COM6" [false; true] [true]));
    reflexivity.
Defined.

Section shutdown.
Implicit Types (st : QBackend.t) (l : PumpLink.t) (p local : Z)
  (which w : LinkId).

Lemma run_prims cs st st' : QBackend.run cs st = Some st' → rtc prim st st'.
Proof.
  revert st. induction cs as [|c cs IH]; intros st; simpl.
  - by intros [= <-].
  - rewrite bind_Some. intros (s1 & H1 & H2).
    etrans; [by eapply exec_prims | by apply IH].
Qed.

Lemma prim_closed_down st st' :
  closed_down st → prim st st' →
  closed_down st'
  ∧ ∀ w, PumpLink.wire (QBackend.link w st')
         = PumpLink.wire (QBackend.link w st).
Proof.
  intros Hc Hp.
  assert (∀ which l',
            PumpLink._stop l' = true → PumpLink.ser_open l' = false →
            PumpLink.wire l' = PumpLink.wire (QBackend.link which st) →
            closed_down (QBackend.set_link which l' st)
            ∧ ∀ w, PumpLink.wire (QBackend.link w (QBackend.set_link which l' st))
                   = PumpLink.wire (QBackend.link w st)) as Hset.
  { intros which l' H1 H2 H3. split; intros w; rewrite link_set_link;
      case_decide as E; try subst w; try done; apply Hc. }
  destruct Hp as [m st|m st|msg st|ok st|which c l' st Hb Hs|which ok l' st Ho|which st].
  - split; [intros w; specialize (Hc w)|intros w]; by destruct w.
  - split; [intros w; specialize (Hc w)|intros w]; by destruct w.
  - split; intros w; rewrite link__set_error; [apply Hc | done].
  - split; [intros w; specialize (Hc w)|intros w]; by destruct w.
  - destruct (Hc which) as [H1 H2].
    destruct (_send_settled c (QBackend.link which st))
      as (l'' & E & _ & E2 & E3 & _ & E4 & _).
    { unfold PumpLink.settled. by rewrite H1, orb_true_r. }
    rewrite E in Hs. injection Hs as <-.
    apply Hset; [congruence | congruence |].
    by rewrite E4, H2, app_nil_r.
  - destruct (Hc which) as [H1 H2].
    rewrite (open_closed_stopped _ H1 H2) in Ho. injection Ho as _ <-.
    by apply Hset.
  - by apply Hset.
Qed.

Lemma rtc_prim_closed_down st st' :
  rtc prim st st' → closed_down st →
  closed_down st'
  ∧ ∀ w, PumpLink.wire (QBackend.link w st')
         = PumpLink.wire (QBackend.link w st).
Proof.
  induction 1 as [st|st s1 st' Hp _ IH]; intros Hc; [done|].
  destruct (prim_closed_down _ _ Hc Hp) as [Hc1 Hw1].
  destruct (IH Hc1) as [Hc2 Hw2]. split; [done|].
  intros w. by rewrite Hw2, Hw1.
Qed.

(** X9: [QBackend.close] is final.  After it, every sequence of slots
    returns, nothing more is ever written to either port, and both links
    stay closed with the stop flag set, whatever the ports would do. *)
Theorem close_silences_links st cs :
  ∃ st',
    QBackend.run cs (QBackend.close st) = Some st'
    ∧ ∀ w, PumpLink.wire (QBackend.link w st')
           = PumpLink.wire (QBackend.link w st)
           ∧ PumpLink.ser_open (QBackend.link w st') = false
           ∧ PumpLink._stop (QBackend.link w st') = true.
Proof.
  destruct (run_returns cs (QBackend.close st) (close_responsive st))
    as (st' & E & _).
  exists st'. split; [done|].
  assert (closed_down (QBackend.close st)) as Hc by (by intros []).
  destruct (rtc_prim_closed_down _ _ (run_prims _ _ _ E) Hc) as [Hc' Hw].
  intros w. destruct (Hc' w) as [H1 H2]. rewrite Hw.
  split; [by destruct w | done].
Qed.

End shutdown.

(** ** What is on the logs of a link *)

Section logs.
Implicit Types (st : QBackend.t) (l : PumpLink.t) (c : Cmd) (which w : LinkId).

Lemma prim_links (P : PumpLink.t → Prop) st st' :
  (∀ l c l', link_built c → PumpLink._send c l = Some l' → P l → P l') →
  (∀ l ok l', PumpLink.open l = Some (ok, l') → P l → P l') →
  (∀ l, P l → P (PumpLink.close l)) →
  prim st st' →
  (∀ w, P (QBackend.link w st)) → ∀ w, P (QBackend.link w st').
Proof.
  intros Hsend Hopen Hclose Hp HP w. specialize (HP w) as HPw.
  destruct Hp as [m st|m st|msg st|ok st|which c l' st Hb Hs|which ok l' st Ho|which st].
  - by destruct w.
  - by destruct w.
  - by rewrite link__set_error.
  - by destruct w.
  - rewrite link_set_link. case_decide; [subst w|done]. by eapply Hsend.
  - rewrite link_set_link. case_decide; [subst w|done]. by eapply Hopen.
  - rewrite link_set_link. case_decide; [subst w|done]. by apply Hclose.
Qed.

(** A property of single links that [_send], [open] and [close] keep holds
    for both links of every reachable controller. *)
Lemma reachable_links (P : PumpLink.t → Prop) :
  (∀ port baud line, P (PumpLink.create port baud line)) →
  (∀ l c l', link_built c → PumpLink._send c l = Some l' → P l → P l') →
  (∀ l ok l', PumpLink.open l = Some (ok, l') → P l → P l') →
  (∀ l, P l → P (PumpLink.close l)) →
  ∀ st, QBackend.reachable st → ∀ w, P (QBackend.link w st).
Proof.
  intros Hinit Hsend Hopen Hclose.
  apply (reachable_ind (λ st, ∀ w, P (QBackend.link w st))).
  - intros ???? w. destruct w; apply Hinit.
  - intros st st' HP Hp. by eapply prim_links.
Qed.

Lemma open_fields l ok l' :
  PumpLink.open l = Some (ok, l') →
  link_consistent l → link_consistent l'.
Proof.
  unfold PumpLink.open. destruct (PumpLink.ser_open l) eqn:Ho.
  { by intros [= <- <-]. }
  intros H [H1 H2].
  assert (∀ attempts, PumpLink.open_loop attempts l = Some (ok, l') →
                      link_consistent l') as Hloop.
  { clear H. induction attempts as [|a rest IH]; simpl.
    - destruct (PumpLink._stop l) eqn:Hs; [|done].
      intros [= <- <-]. split; simpl; [done|]. by rewrite Ho.
    - destruct (PumpLink._stop l) eqn:Hs.
      + intros [= <- <-]. split; simpl; [done|]. by rewrite Ho.
      + destruct a; [|exact IH].
        intros [= <- <-]. by split. }
  by eapply Hloop.
Qed.

Lemma _send_consistent c l l' :
  PumpLink._send c l = Some l' → link_consistent l → link_consistent l'.
Proof.
  unfold PumpLink._send. simpl.
  destruct (PumpLink.ser_open l) eqn:Ho.
  - intros [= <-] [H1 H2]. split; simpl; by rewrite ?Ho in *.
  - rewrite bind_Some. intros ([ok l1] & H & E) Hc.
    assert (link_consistent l1) as [H1 H2].
    { eapply open_fields; [exact H|]. destruct Hc as [H1 H2].
      split; simpl; by rewrite ?Ho in *. }
    destruct ok; injection E as <-; by split.
Qed.

(** X10: in every reachable state, on each link, the frames written to the
    port are among the objects handed to [_send], in the same order; a
    link whose stop flag is set is closed; and an open link has had its
    reader thread started. *)
Theorem link_logs_and_flags st w :
  QBackend.reachable st →
  (PumpLink.wire (QBackend.link w st))
    `sublist_of` (PumpLink.sends (QBackend.link w st))
  ∧ (PumpLink._stop (QBackend.link w st) = true →
     PumpLink.ser_open (QBackend.link w st) = false)
  ∧ (PumpLink.ser_open (QBackend.link w st) = true →
     PumpLink.rx_thread (QBackend.link w st) = true).
Proof.
  intros Hr.
  apply (reachable_links (λ l, wire_requested l ∧ link_consistent l));
    [| | | |exact Hr].
  - intros port baud line. split; [apply sublist_nil_l | by split].
  - intros l c l' _ Hs [Hw Hc]. split; [|by eapply _send_consistent].
    apply _send_sent in Hs as [Hs Hwire _ _ _ _].
    unfold wire_requested. rewrite Hs, Hwire.
    apply sublist_app; [done|]. destruct (PumpLink.ser_open l'); [done|].
    apply sublist_nil_l.
  - intros l ok l' Ho [Hw Hc]. split; [|by eapply open_fields].
    unfold wire_requested. by destruct (open_logs _ _ _ Ho) as [-> ->].
  - intros l [Hw Hc]. split; [done|]. by split.
Qed.

Lemma link_built_well_formed c : link_built c → wave_well_formed c.
Proof.
  destruct c as [| | | |wv]; simpl; try done.
  intros (pump & shape & period & duty & mn & mx & base & ->).
  pose proof (wave_bounds_ordered mn mx base) as [H1 H2].
  rewrite <- (frame_bounds_start_wave pump shape period duty) in H1, H2.
  split; [exact H1|]. split; [exact H2|].
  rewrite wave_duty_start_wave.
  destruct (is_nan duty) eqn:E.
  - left. by destruct duty.
  - right. destruct (wave_duty_fraction_open duty E) as [H0 H3].
    destruct (PumpLink.wave_duty_fraction duty) as [q| | |]; try done.
    apply flt_Fin in H0, H3. simpl. rewrite !flt_Fin. split; lra.
Qed.

(** X11: in every reachable state, every wave command handed to a link,
    and so every wave frame on the wire, has 0 <= min_flow <= max_flow (so
    neither bound is NaN), and its duty is strictly between 0 and 100
    percent unless it is NaN. *)
Theorem waves_well_formed st which wv :
  QBackend.reachable st →
  CmdWave wv ∈ PumpLink.sends (QBackend.link which st)
  ∨ CmdWave wv ∈ PumpLink.wire (QBackend.link which st) →
  fle (Fin 0) (wave_min_flow wv) = true
  ∧ fle (wave_min_flow wv) (wave_max_flow wv) = true
  ∧ (wave_duty wv = NaN
     ∨ flt (Fin 0) (wave_duty wv) = true
       ∧ flt (wave_duty wv) (Fin 100) = true).
Proof.
  intros Hr Hin.
  assert (Forall wave_well_formed (PumpLink.sends (QBackend.link which st))
          ∧ (PumpLink.wire (QBackend.link which st))
              `sublist_of` (PumpLink.sends (QBackend.link which st)))
    as [Hall Hsub].
  { apply (reachable_links
             (λ l, Forall wave_well_formed (PumpLink.sends l)
                   ∧ wire_requested l)); [| | | |exact Hr].
    - intros port baud line. split; [done | apply sublist_nil_l].
    - intros l c l' Hb Hs [Hf Hw].
      apply _send_sent in Hs as [Hs Hwire _ _ _ _].
      unfold wire_requested. rewrite Hs, Hwire. split.
      + apply Forall_app. split; [done|].
        constructor; [by apply link_built_well_formed | done].
      + apply sublist_app; [done|]. destruct (PumpLink.ser_open l'); [done|].
        apply sublist_nil_l.
    - intros l ok l' Ho [Hf Hw]. unfold wire_requested.
      by destruct (open_logs _ _ _ Ho) as [-> ->].
    - by intros l [Hf Hw]. }
  rewrite Forall_forall in Hall.
  assert (CmdWave wv ∈ PumpLink.sends (QBackend.link which st)) as Hs.
  { destruct Hin as [|Hin]; [done|]. by eapply elem_of_sublist. }
  apply (Hall _ Hs).
Qed.

End logs.

(** After a session with one flow command: the frame on the wire is among
    the commands handed over, and a wave sent later is within its ranges. *)
Lemma link_logs_and_flags_witness :
  (PumpLink.wire
     (QBackend.link LinkA
        (QBackend.mk (PumpLink.mk "COM4" 115200 true false true []
                        [CmdFlow 1 (Fin 20)] [CmdFlow 1 (Fin 20)])
           (PumpLink.create "COM6" 115200 [true]) {[1 := Fin 20]} ∅ "" [])))
    `sublist_of`
  (PumpLink.sends
     (QBackend.link LinkA
        (QBackend.mk (PumpLink.mk "COM4" 115200 true false true []
                        [CmdFlow 1 (Fin 20)] [CmdFlow 1 (Fin 20)])
           (PumpLink.create "COM6" 115200 [true]) {[1 := Fin 20]} ∅ "" []))).
Proof.
  apply (link_logs_and_flags
           (QBackend.mk (PumpLink.mk "COM4" 115200 true false true []
                           [CmdFlow 1 (Fin 20)] [CmdFlow 1 (Fin 20)])
              (PumpLink.create "COM6" 115200 [true]) {[1 := Fin 20]} ∅ "" [])
           LinkA).
  exists "COM4", "COM6", [true], [true], [QBackend.call_set_flow 1 (Fin 20)].
  vm_compute. reflexivity.
Defined.

Lemma waves_well_formed_witness :
  fle (Fin 0)
      (wave_min_flow (mkWave 1 "Square" (Fin 1) (Fin (9900 # 100)) (Fin 3)
                        (Fin 8))) = true
  ∧ fle (wave_min_flow (mkWave 1 "Square" (Fin 1) (Fin (9900 # 100)) (Fin 3)
                          (Fin 8)))
        (wave_max_flow (mkWave 1 "Square" (Fin 1) (Fin (9900 # 100)) (Fin 3)
                          (Fin 8))) = true
  ∧ (wave_duty (mkWave 1 "Square" (Fin 1) (Fin (9900 # 100)) (Fin 3)
                  (Fin 8)) = NaN
     ∨ flt (Fin 0)
           (wave_duty (mkWave 1 "Square" (Fin 1) (Fin (9900 # 100)) (Fin 3)
                         (Fin 8))) = true
       ∧ flt (wave_duty (mkWave 1 "Square" (Fin 1) (Fin (9900 # 100))
                           (Fin 3) (Fin 8))) (Fin 100) = true).
Proof.
  apply (waves_well_formed
           (QBackend.mk
              (PumpLink.mk "COM4" 115200 true false true []
                 [CmdWave (mkWave 1 "Square" (Fin 1) (Fin (9900 # 100))
                             (Fin 3) (Fin 8))]
                 [CmdWave (mkWave 1 "Square" (Fin 1) (Fin (9900 # 100))
                             (Fin 3) (Fin 8))])
              (PumpLink.create "COM6" 115200 [true]) {[1 := Fin 3]} ∅ "" [])
           LinkA).
  - exists "COM4", "COM6", [true], [true],
      [QBackend.call_startWaveForPump 1 "Square" (Fin (-2)) (Fin 7) (Fin 8)
         (Fin 3)].
    vm_compute. reflexivity.
  - left. apply list_elem_of_here.
Defined.

(** ** Flow records and local pump ids *)

Section effects.
Implicit Types (st : QBackend.t) (l : PumpLink.t) (p local : Z)
  (which w : LinkId) (ids : list Z).

Lemma effect_refl st : effect st st.
Proof.
  split; [|by auto]. intros w. exists []. by rewrite app_nil_r.
Qed.

Lemma effect_trans st1 st2 st3 : effect st1 st2 → effect st2 st3 → effect st1 st3.
Proof.
  intros (S1 & L1 & K1 & P1) (S2 & L2 & K2 & P2).
  split; [|split; [|split]].
  - intros w. destruct (S1 w) as (cs1 & E1 & F1).
    destruct (S2 w) as (cs2 & E2 & F2).
    exists (cs1 ++ cs2). rewrite E2, E1, app_assoc. split; [done|].
    by apply Forall_app.
  - intros q H. destruct (L2 q H) as [H'|]; [|by right]. by apply L1.
  - auto.
  - intros q H. destruct (P2 q H) as [H'|]; [|by right].
    destruct (P1 q H') as [|H'']; [by left|]. right. by apply K2.
Qed.

(** Changes that touch neither the commands handed over nor the flows. *)
Lemma effect_same st st' :
  (∀ w, PumpLink.sends (QBackend.link w st')
        = PumpLink.sends (QBackend.link w st)) →
  QBackend.last_flows st' = QBackend.last_flows st →
  QBackend.paused_flows st' = QBackend.paused_flows st →
  effect st st'.
Proof.
  intros S L P. split; [|rewrite L, P; by auto].
  intros w. exists []. by rewrite S, app_nil_r.
Qed.

Lemma effect__set_error msg st : effect st (QBackend._set_error msg st).
Proof.
  apply effect_same;
    [intros w; by rewrite link__set_error
    | apply last_flows__set_error | apply paused_flows__set_error].
Qed.

Lemma effect_send which c st st' :
  local_of which c →
  QBackend.on_link which (PumpLink._send c) st = Some st' → effect st st'.
Proof.
  intros Hl (S & L & P & _)%on_link_send_inv.
  split; [|rewrite L, P; by auto].
  intros w. eexists. split; [apply (S w)|].
  case_decide; [subst w|done]. by repeat constructor.
Qed.

Lemma effect_record p f st :
  is_Some (QBackend.route p) →
  effect st (QBackend.set_last_flows (<[p := f]> (QBackend.last_flows st)) st).
Proof.
  intros Hp. split; [|split; [|split]]; simpl.
  - intros w. exists []. rewrite app_nil_r. by destruct w.
  - intros q. destruct (decide (p = q)) as [->|Hne]; [by right|].
    rewrite lookup_insert_ne by done. by left.
  - intros q. destruct (decide (p = q)) as [->|Hne].
    + rewrite lookup_insert_eq. by eauto.
    + by rewrite lookup_insert_ne.
  - by left.
Qed.

Lemma effect_snapshot m st :
  (∀ q, is_Some (m !! q) →
        is_Some (QBackend.paused_flows st !! q)
        ∨ is_Some (QBackend.last_flows st !! q)) →
  effect st (QBackend.set_paused_flows m st).
Proof.
  intros Hm. split; [|split; [|split]]; simpl; try by auto.
  intros w. exists []. rewrite app_nil_r. by destruct w.
Qed.

Lemma for_each_effect {A} (body : A → QBackend.t → option QBackend.t) xs st st' :
  (∀ x st st', body x st = Some st' → effect st st') →
  QBackend.for_each body xs st = Some st' → effect st st'.
Proof.
  intros Hbody. revert st. induction xs as [|x xs IH]; intros st; simpl.
  - intros [= <-]. apply effect_refl.
  - rewrite bind_Some. intros (s1 & H1 & H2).
    eapply effect_trans; [by eapply Hbody | by apply IH].
Qed.

Lemma local_of_route p which local c :
  QBackend.route p = Some (which, local) → cmd_pump c = Some local →
  local_of which c.
Proof. intros Hr Hc. unfold local_of. rewrite Hc. by exists p. Qed.

Lemma stopAll_effect st st' : QBackend.stopAll st = Some st' → effect st st'.
Proof.
  apply for_each_effect. intros w s s'. by apply effect_send.
Qed.

Local Ltac route_effect p st Hr :=
  rewrite (_route_pump_route p st);
  destruct (QBackend.route p) as [[? ?]|] eqn:Hr;
  [| intros [= <-]; apply effect__set_error ].

(** What any slot does to the commands handed over and to the flows. *)
Lemma exec_effect c st st' : QBackend.exec c st = Some st' → effect st st'.
Proof.
  destruct c; simpl.
  - rewrite fmap_Some. intros ([ok s] & H & ->). simpl.
    apply open_inv in H as (okA & la & okB & lb & HA & HB & _ & ->).
    apply effect_same; [|by rewrite last_flows__set_error
                        |by rewrite paused_flows__set_error].
    intros w. rewrite link__set_error.
    destruct (open_logs _ _ _ HA) as [_ SA].
    destruct (open_logs _ _ _ HB) as [_ SB]. by destruct w.
  - intros [= <-]. apply effect_same; [by intros []|done|done].
  - intros [= <-]. apply effect_refl.
  - unfold QBackend.prime. route_effect pump st Hr.
    apply effect_send. by eapply local_of_route.
  - unfold QBackend.stop. route_effect pump st Hr.
    rewrite bind_Some. intros (s1 & H1 & H2).
    eapply effect_trans; (eapply effect_send; [|done]);
      by eapply local_of_route.
  - apply stopAll_effect.
  - apply stopAll_effect.
  - unfold QBackend.set_flow. route_effect pump st Hr. intros H.
    eapply effect_trans; [by apply effect_record; rewrite Hr|].
    eapply effect_send; [|exact H]. by eapply local_of_route.
  - unfold QBackend.pauseAll. intros H.
    eapply effect_trans; [|by eapply stopAll_effect].
    apply effect_snapshot. by auto.
  - unfold QBackend.pause_all, QBackend.pauseAll. intros H.
    eapply effect_trans; [|by eapply stopAll_effect].
    apply effect_snapshot. by auto.
  - apply for_each_effect. intros p s s'.
    unfold QBackend.pausePumps_body. cbv zeta.
    set (s1 := match QBackend.last_flows s !! p with Some f => _ | None => s end).
    assert (effect s s1) as H1.
    { subst s1. destruct (QBackend.last_flows s !! p) as [f|] eqn:E;
        [|apply effect_refl].
      apply effect_snapshot. intros q.
      destruct (decide (p = q)) as [->|Hne].
      - right. by rewrite E.
      - rewrite lookup_insert_ne by done. by left. }
    clearbody s1. rewrite (_route_pump_route p s1).
    destruct (QBackend.route p) as [[which local]|] eqn:Hr.
    + intros H. eapply effect_trans; [exact H1|].
      eapply effect_send; [|exact H]. by eapply local_of_route.
    + intros [= <-]. by eapply effect_trans; [exact H1|apply effect__set_error].
  - unfold QBackend.resumePumps. rewrite bind_Some. intros (s1 & H1 & H2).
    eapply effect_trans.
    + eapply for_each_effect; [|exact H1]. intros p s s'.
      unfold QBackend.resumePumps_restore. cbv zeta.
      destruct (fgt (QBackend.restore_flow s p) (Fin 0));
        [|intros [= <-]; apply effect_refl].
      route_effect p s Hr.
      rewrite bind_Some. intros (s2 & E1 & [= <-]).
      eapply effect_trans.
      * eapply effect_send; [|exact E1]. by eapply local_of_route.
      * apply effect_record. by rewrite Hr.
    + eapply for_each_effect; [|exact H2]. intros p s s' [= <-].
      apply effect_snapshot. intros q.
      destruct (decide (p = q)) as [->|Hne].
      * rewrite lookup_delete_eq. by intros [? ?].
      * rewrite lookup_delete_ne by done. by left.
  - unfold QBackend.startAutomation.
    destruct (startswith _ "constant"); [intros [= <-]; apply effect_refl|].
    destruct (negb _); [intros [= <-]; apply effect_refl|].
    apply for_each_effect. intros p s s'.
    unfold QBackend.startAutomation_body. cbv zeta.
    destruct (fle _ (Fin 0)); [intros [= <-]; apply effect_refl|].
    route_effect p s Hr.
    apply effect_send. eapply local_of_route; [exact Hr|]. simpl.
    unfold PumpLink.start_wave_frame. by destruct (PumpLink.wave_bounds _ _ _).
  - unfold QBackend.startWaveForPump. rewrite (_route_pump_route pump st).
    destruct (QBackend.route pump) as [[l z]|] eqn:Hr;
      [|intros [= <-]; apply effect__set_error].
    intros H.
    assert (local_of l (CmdWave (PumpLink.start_wave_frame z shape period_sec
                                   dutyFraction (Some minFlow) (Some maxFlow) None)))
      as Hloc.
    { eapply local_of_route; [exact Hr|]. simpl.
      unfold PumpLink.start_wave_frame.
      by destruct (PumpLink.wave_bounds _ _ _). }
    destruct (fgt maxFlow (Fin 0)).
    + eapply effect_trans; [by apply effect_record; rewrite Hr|].
      by eapply effect_send.
    + by eapply effect_send.
  - unfold QBackend.set_calibration. rewrite (_route_pump_route pump st).
    destruct (QBackend.route pump) as [[? ?]|]; intros [= <-];
      [apply effect_refl | apply effect__set_error].
Qed.

Lemma run_effect cs st st' : QBackend.run cs st = Some st' → effect st st'.
Proof.
  revert st. induction cs as [|c cs IH]; intros st; simpl.
  - intros [= <-]. apply effect_refl.
  - rewrite bind_Some. intros (s1 & H1 & H2).
    eapply effect_trans; [by eapply exec_effect | by apply IH].
Qed.

(** X12: in every reachable state, a flow is recorded in [last_flows] only
    for a global pump id in 1..9, and a paused flow exists only for a pump
    that has a recorded flow (hence also only for ids in 1..9). *)
Theorem flows_only_for_routed_pumps st q :
  QBackend.reachable st →
  (is_Some (QBackend.last_flows st !! q) → 1 ≤ q ≤ 9)
  ∧ (is_Some (QBackend.paused_flows st !! q) →
     is_Some (QBackend.last_flows st !! q) ∧ 1 ≤ q ≤ 9).
Proof.
  intros (pa & pb & la & lb & cs & Hrun).
  apply run_effect in Hrun as (_ & L & _ & P). simpl in L, P.
  assert (is_Some (QBackend.last_flows st !! q) → 1 ≤ q ≤ 9) as Hl.
  { intros H. destruct (L q H) as [H'|[[w local] Hr]].
    - rewrite lookup_empty in H'. by destruct H'.
    - by eapply route_valid. }
  split; [done|]. intros H. destruct (P q H) as [H'|H'].
  - rewrite lookup_empty in H'. by destruct H'.
  - by auto.
Qed.

Lemma route_local_range p which local :
  QBackend.route p = Some (which, local) →
  1 ≤ local ≤ (match which with LinkA => 5 | LinkB => 4 end).
Proof.
  intros H. destruct (route_cases p) as
    [[-> E]|[[-> E]|[[-> E]|[[-> E]|[[-> E]|[[-> E]|[[-> E]|[[-> E]|[[-> E]|[_ E]]]]]]]]]];
    rewrite E in H; try done; injection H as <- <-; lia.
Qed.

(** X13: in every reachable state, every command handed to a link that
    names a pump names a local pump of that link: a number in 1..5 on link
    A and in 1..4 on link B, to which the routing tables map some global
    id.  No global id is ever put on the wire as such. *)
Theorem commands_address_local_pumps st which c local :
  QBackend.reachable st →
  c ∈ PumpLink.sends (QBackend.link which st) →
  cmd_pump c = Some local →
  1 ≤ local ≤ (match which with LinkA => 5 | LinkB => 4 end)
  ∧ ∃ p, 1 ≤ p ≤ 9 ∧ (QBackend._route_pump p st).1 = Some (which, local).
Proof.
  intros (pa & pb & la & lb & cs & Hrun) Hin Hc.
  apply run_effect in Hrun as (S & _). destruct (S which) as (cmds & E & F).
  rewrite E in Hin. replace (PumpLink.sends _) with (@nil Cmd) in Hin
    by by destruct which.
  simpl in Hin. rewrite Forall_forall in F. specialize (F c Hin).
  unfold local_of in F. rewrite Hc in F. destruct F as [p Hp].
  split; [by eapply route_local_range|].
  exists p. split; [by eapply route_valid | by rewrite _route_pump_fst].
Qed.

End effects.

(** A session that records a flow for pump 4 and pauses it. *)
Lemma flows_only_for_routed_pumps_witness :
  is_Some
    (QBackend.last_flows
       (QBackend.mk (PumpLink.mk "COM4" 115200 true false true []
                       [CmdFlow 2 (Fin 15); CmdStop 2]
                       [CmdFlow 2 (Fin 15); CmdStop 2])
          (PumpLink.create "COM6" 115200 [true])
          {[4 := Fin 15]} {[4 := Fin 15]} "" []) !! 4)
  ∧ 1 ≤ 4 ≤ 9.
Proof.
  apply (flows_only_for_routed_pumps
           (QBackend.mk (PumpLink.mk "COM4" 115200 true false true []
                           [CmdFlow 2 (Fin 15); CmdStop 2]
                           [CmdFlow 2 (Fin 15); CmdStop 2])
              (PumpLink.create "COM6" 115200 [true])
              {[4 := Fin 15]} {[4 := Fin 15]} "" []) 4).
  - exists "COM4", "COM6", [true], [true],
      [QBackend.call_set_flow 4 (Fin 15); QBackend.call_pausePumps [4]].
    vm_compute. reflexivity.
  - exists (Fin 15). reflexivity.
Defined.

(** Global pump 8 is addressed on link A as local pump 5. *)
Lemma commands_address_local_pumps_witness :
  1 ≤ 5 ≤ 5
  ∧ ∃ p, 1 ≤ p ≤ 9
         ∧ (QBackend._route_pump p
              (QBackend.mk (PumpLink.mk "COM4" 115200 true false true []
                              [CmdPrime 5] [CmdPrime 5])
                 (PumpLink.create "COM6" 115200 [true]) ∅ ∅ "" [])).1
           = Some (LinkA, 5).
Proof.
  apply (commands_address_local_pumps
           (QBackend.mk (PumpLink.mk "COM4" 115200 true false true []
                           [CmdPrime 5] [CmdPrime 5])
              (PumpLink.create "COM6" 115200 [true]) ∅ ∅ "" [])
           LinkA (CmdPrime 5) 5).
  - exists "COM4", "COM6", [true], [true], [QBackend.call_prime 8].
    vm_compute. reflexivity.
  - apply list_elem_of_here.
  - reflexivity.
Defined.

(** ** Single-pump slots *)

Section single_pump.
Implicit Types (st : QBackend.t) (l : PumpLink.t) (p local : Z)
  (which w : LinkId).

(** One command handed to the link of a routed pump, with everything else
    of the controller left alone. *)
Lemma routed_send_spec which (cmd : Cmd) st :
  QBackend.responsive st = true →
  ∃ st',
    QBackend.on_link which (PumpLink._send cmd) st = Some st'
    ∧ PumpLink.sends (QBackend.link which st')
      = PumpLink.sends (QBackend.link which st) ++ [cmd]
    ∧ PumpLink.wire (QBackend.link which st')
      = PumpLink.wire (QBackend.link which st)
        ++ (if PumpLink.ser_open (QBackend.link which st') then [cmd] else [])
    ∧ (∀ w, w ≠ which → QBackend.link w st' = QBackend.link w st)
    ∧ QBackend.last_flows st' = QBackend.last_flows st
    ∧ QBackend.paused_flows st' = QBackend.paused_flows st
    ∧ QBackend._last_error st' = QBackend._last_error st
    ∧ QBackend.emitted st' = QBackend.emitted st.
Proof.
  intros Hr. destruct (on_link_send_returns which cmd st Hr) as [st' E].
  exists st'. split; [done|].
  pose proof (on_link_send_inv _ _ _ _ E) as (S & F & P & Er & Em).
  destruct (S which) as [Hs Hw _ _ _ _]. rewrite decide_True in Hs, Hw by done.
  repeat split; try done.
  intros w Hne. apply on_link_Some in E as (l' & _ & ->).
  rewrite link_set_link. by rewrite decide_False.
Qed.

(** X14: for a pump id in 1..9 and any flow, negative ones included,
    [set_flow] records the flow as the pump's last flow, leaves every other
    record and the paused flows alone, hands exactly one constant-flow
    command with that flow and the pump's local id to the pump's link, and
    emits no signal. *)
Theorem set_flow_records_and_sends st p f :
  1 ≤ p ≤ 9 →
  QBackend.responsive st = true →
  ∃ which local st',
    (QBackend._route_pump p st).1 = Some (which, local)
    ∧ QBackend.set_flow p f st = Some st'
    ∧ QBackend.last_flows st' = <[p := f]> (QBackend.last_flows st)
    ∧ QBackend.paused_flows st' = QBackend.paused_flows st
    ∧ PumpLink.sends (QBackend.link which st')
      = PumpLink.sends (QBackend.link which st) ++ [CmdFlow local f]
    ∧ PumpLink.wire (QBackend.link which st')
      = PumpLink.wire (QBackend.link which st)
        ++ (if PumpLink.ser_open (QBackend.link which st')
            then [CmdFlow local f] else [])
    ∧ (∀ w, w ≠ which → QBackend.link w st' = QBackend.link w st)
    ∧ QBackend.emitted st' = QBackend.emitted st.
Proof.
  intros Hp Hr. destruct (route_is_Some p Hp) as [[which local] Hroute].
  exists which, local.
  destruct (routed_send_spec which (CmdFlow local f)
              (QBackend.set_last_flows (<[p := f]> (QBackend.last_flows st)) st))
    as (st' & E & Hs & Hw & Hl & F & P & _ & Em); [done|].
  exists st'. split; [by rewrite _route_pump_fst|]. split.
  { unfold QBackend.set_flow. by rewrite _route_pump_route, Hroute. }
  split; [done|]. split; [done|].
  split; [rewrite Hs; by destruct which|].
  split; [rewrite Hw; by destruct which|].
  split; [|done]. intros w Hne. rewrite (Hl w Hne). by destruct w.
Qed.

(** X15: for a pump id in 1..9, [prime] hands exactly one prime command
    for the pump's local id to the pump's link and changes nothing else:
    no flow record, no paused flow, no signal. *)
Theorem prime_sends_prime_only st p :
  1 ≤ p ≤ 9 →
  QBackend.responsive st = true →
  ∃ which local st',
    (QBackend._route_pump p st).1 = Some (which, local)
    ∧ QBackend.prime p st = Some st'
    ∧ PumpLink.sends (QBackend.link which st')
      = PumpLink.sends (QBackend.link which st) ++ [CmdPrime local]
    ∧ (∀ w, w ≠ which → QBackend.link w st' = QBackend.link w st)
    ∧ QBackend.last_flows st' = QBackend.last_flows st
    ∧ QBackend.paused_flows st' = QBackend.paused_flows st
    ∧ QBackend.emitted st' = QBackend.emitted st.
Proof.
  intros Hp Hr. destruct (route_is_Some p Hp) as [[which local] Hroute].
  exists which, local.
  destruct (routed_send_spec which (CmdPrime local) st Hr)
    as (st' & E & Hs & _ & Hl & F & P & _ & Em).
  exists st'. split; [by rewrite _route_pump_fst|]. split; [|done].
  unfold QBackend.prime. by rewrite _route_pump_route, Hroute.
Qed.

(** X16: for a pump id in 1..9, [startWaveForPump] hands exactly one wave
    command to the pump's link, built by [start_wave] for the pump's local
    id from the given shape, period, duty, min and max; it records the
    given max as the pump's last flow when that max is > 0 (also when min
    and max were given inverted) and leaves the record alone otherwise
    (max <= 0, or NaN). *)
Theorem start_wave_for_pump_effect st p shape period duty mn mx :
  1 ≤ p ≤ 9 →
  QBackend.responsive st = true →
  ∃ which local st',
    (QBackend._route_pump p st).1 = Some (which, local)
    ∧ QBackend.startWaveForPump p shape period duty mn mx st = Some st'
    ∧ PumpLink.sends (QBackend.link which st')
      = PumpLink.sends (QBackend.link which st)
        ++ [CmdWave (PumpLink.start_wave_frame local shape period duty
                       (Some mn) (Some mx) None)]
    ∧ (∀ w, w ≠ which → QBackend.link w st' = QBackend.link w st)
    ∧ (fgt mx (Fin 0) = true →
       QBackend.last_flows st' = <[p := mx]> (QBackend.last_flows st))
    ∧ (fgt mx (Fin 0) = false →
       QBackend.last_flows st' = QBackend.last_flows st)
    ∧ QBackend.paused_flows st' = QBackend.paused_flows st.
Proof.
  intros Hp Hr. destruct (route_is_Some p Hp) as [[which local] Hroute].
  exists which, local.
  set (s0 := if fgt mx (Fin 0)
             then QBackend.set_last_flows (<[p := mx]> (QBackend.last_flows st)) st
             else st).
  assert (QBackend.responsive s0 = true) as Hr0.
  { subst s0. by destruct (fgt mx (Fin 0)). }
  destruct (routed_send_spec which
              (CmdWave (PumpLink.start_wave_frame local shape period duty
                          (Some mn) (Some mx) None)) s0 Hr0)
    as (st' & E & Hs & _ & Hl & F & P & _).
  exists st'. split; [by rewrite _route_pump_fst|]. split.
  { unfold QBackend.startWaveForPump. by rewrite _route_pump_route, Hroute. }
  subst s0. destruct (fgt mx (Fin 0)).
  - split; [rewrite Hs; by destruct which|].
    split; [intros w Hne; rewrite (Hl w Hne); by destruct w|].
    split; [done|]. by split.
  - split; [done|]. split; [done|]. by split.
Qed.

(** X17: [set_calibration] is a stub for every pump id: it never hands
    anything to a link and never touches a flow record; for an id in 1..9
    it changes nothing at all, and for any other id it only reports the
    unknown id. *)
Theorem set_calibration_no_effect st p v :
  ∃ st',
    QBackend.set_calibration p v st = Some st'
    ∧ (∀ w, QBackend.link w st' = QBackend.link w st)
    ∧ QBackend.last_flows st' = QBackend.last_flows st
    ∧ QBackend.paused_flows st' = QBackend.paused_flows st
    ∧ (1 ≤ p ≤ 9 → st' = st)
    ∧ (¬ (1 ≤ p ≤ 9) →
       QBackend._last_error st' = "Invalid pump id " +:+ pretty p).
Proof.
  unfold QBackend.set_calibration. rewrite _route_pump_route.
  destruct (QBackend.route p) as [[which local]|] eqn:Hroute.
  - exists st. repeat split; try done.
    intros Hn. exfalso. apply Hn. by eapply route_valid.
  - eexists. split; [done|].
    split; [intros w; apply link__set_error|].
    split; [apply last_flows__set_error|].
    split; [apply paused_flows__set_error|]. split.
    + intros Hp. destruct (route_is_Some p Hp) as [? E]. congruence.
    + intros _. apply _last_error__set_error.
Qed.

(** X18: [wave_off] hands one wave command with shape "off", period 1,
    duty 50 percent, min_flow 0 and the fallback flow as max_flow; a
    fallback that is not > 0 (negative, zero or NaN) is sent as 0. *)
Theorem wave_off_clamps_fallback pump fallback l l' :
  PumpLink.wave_off pump fallback l = Some l' →
  PumpLink.sends l'
  = PumpLink.sends l
    ++ [CmdWave (mkWave pump "off" (Fin 1) (Fin (100 # 2)) (Fin 0)
                   (max0 fallback))]
  ∧ (fgt fallback (Fin 0) = true → max0 fallback = fallback)
  ∧ (fgt fallback (Fin 0) = false → max0 fallback = Fin 0).
Proof.
  intros H. apply _send_sent in H as [-> _ _ _ _ _]. split.
  - by rewrite start_wave_frame_zero_min.
  - split; [apply max0_pos | apply max0_not_pos].
Qed.

End single_pump.

(** Pump 6 (local pump 3 of link B) set to a negative flow. *)
Lemma set_flow_records_and_sends_witness :
  ∃ which local st',
    (QBackend._route_pump 6 (QBackend.create "COM4" "COM6" [true] [true])).1
    = Some (which, local)
    ∧ QBackend.set_flow 6 (Fin (-5))
        (QBackend.create "COM4" "COM6" [true] [true])
      = Some st'
    ∧ QBackend.last_flows st' = <[6 := (Fin (-5))]> ∅.
Proof.
  destruct (set_flow_records_and_sends
              (QBackend.create "COM4" "COM6" [true] [true]) 6 (Fin (-5)))
    as (which & local & st' & H1 & H2 & H3 & _); [lia | reflexivity |].
  exists which, local, st'. split; [exact H1|]. split; [exact H2 | exact H3].
Defined.

Lemma prime_sends_prime_only_witness :
  ∃ which local st',
    (QBackend._route_pump 9 (QBackend.create "COM4" "COM6" [true] [true])).1
    = Some (which, local)
    ∧ QBackend.prime 9 (QBackend.create "COM4" "COM6" [true] [true]) = Some st'
    ∧ PumpLink.sends (QBackend.link which st')
      = PumpLink.sends
          (QBackend.link which (QBackend.create "COM4" "COM6" [true] [true]))
        ++ [CmdPrime local].
Proof.
  destruct (prime_sends_prime_only
              (QBackend.create "COM4" "COM6" [true] [true]) 9)
    as (which & local & st' & H1 & H2 & H3 & _); [lia | reflexivity |].
  exists which, local, st'. split; [exact H1|]. split; [exact H2 | exact H3].
Defined.

(** Inverted bounds 8 and 3 on pump 1: 3 is recorded as the last flow. *)
Lemma start_wave_for_pump_effect_witness :
  ∃ which local st',
    (QBackend._route_pump 1 (QBackend.create "COM4" "COM6" [true] [true])).1
    = Some (which, local)
    ∧ QBackend.startWaveForPump 1 "Square" (Fin 2) (Fin (1 # 2)) (Fin 8) (Fin 3)
        (QBackend.create "COM4" "COM6" [true] [true]) = Some st'
    ∧ QBackend.last_flows st' = <[1 := Fin 3]> ∅.
Proof.
  destruct (start_wave_for_pump_effect
              (QBackend.create "COM4" "COM6" [true] [true]) 1 "Square"
              (Fin 2) (Fin (1 # 2)) (Fin 8) (Fin 3))
    as (which & local & st' & H1 & H2 & _ & _ & H3 & _); [lia | reflexivity |].
  exists which, local, st'. split; [exact H1|]. split; [exact H2|].
  apply H3. reflexivity.
Defined.

Lemma set_calibration_no_effect_witness :
  ∃ st',
    QBackend.set_calibration 3 (Fin (5 # 2))
      (QBackend.create "COM4" "COM6" [true] [true]) = Some st'
    ∧ st' = QBackend.create "COM4" "COM6" [true] [true].
Proof.
  destruct (set_calibration_no_effect
              (QBackend.create "COM4" "COM6" [true] [true]) 3 (Fin (5 # 2)))
    as (st' & H1 & _ & _ & _ & H2 & _).
  exists st'. split; [exact H1|]. apply H2. lia.
Defined.

(** A negative fallback on an open link. *)
Lemma wave_off_clamps_fallback_witness :
  PumpLink.sends
    (PumpLink.mk "COM4" 115200 true false true []
       [CmdWave (mkWave 2 "off" (Fin 1) (Fin (100 # 2)) (Fin 0) (Fin 0))]
       [CmdWave (mkWave 2 "off" (Fin 1) (Fin (100 # 2)) (Fin 0) (Fin 0))])
  = PumpLink.sends (PumpLink.mk "COM4" 115200 true false true [] [] [])
    ++ [CmdWave (mkWave 2 "off" (Fin 1) (Fin (100 # 2)) (Fin 0)
                   (max0 (Fin (-4))))].
Proof.
  apply (wave_off_clamps_fallback 2 (Fin (-4))
           (PumpLink.mk "COM4" 115200 true false true [] [] [])).
  reflexivity.
Defined.

(** ** Stopping, pausing and resuming *)

Section pause_resume_more.
Implicit Types (st : QBackend.t) (p local : Z) (which w : LinkId) (ids : list Z).

(** X19: [stopAll] (and its alias [stop_all]) hands one stop-all command
    to each of the two links and keeps every flow record; [pauseAll] does
    the same after replacing the whole paused snapshot by a copy of the
    recorded flows, so that older paused flows are forgotten. *)
Theorem stop_all_and_pause_all st :
  QBackend.responsive st = true →
  (∃ st', QBackend.stopAll st = Some st'
          ∧ QBackend.stop_all st = Some st'
          ∧ (∀ w, PumpLink.sends (QBackend.link w st')
                  = PumpLink.sends (QBackend.link w st) ++ [CmdStopAll])
          ∧ QBackend.last_flows st' = QBackend.last_flows st
          ∧ QBackend.paused_flows st' = QBackend.paused_flows st)
  ∧ (∃ st', QBackend.pauseAll st = Some st'
            ∧ QBackend.pause_all st = Some st'
            ∧ (∀ w, PumpLink.sends (QBackend.link w st')
                    = PumpLink.sends (QBackend.link w st) ++ [CmdStopAll])
            ∧ QBackend.last_flows st' = QBackend.last_flows st
            ∧ QBackend.paused_flows st' = QBackend.last_flows st).
Proof.
  intros Hr. split.
  - destruct (stopAll_spec st Hr) as (st' & E & S & F & P).
    exists st'. repeat split; try done. intros w. apply (S w).
  - destruct (pauseAll_spec st Hr) as (st' & E & S & F & P).
    exists st'. repeat split; try done. intros w. apply (S w).
Qed.

Lemma resumePumps_restore_last p st st' :
  QBackend.resumePumps_restore p st = Some st' →
  QBackend.last_flows st'
  = if fgt (QBackend.restore_flow st p) (Fin 0)
    then match QBackend.route p with
         | Some _ => <[p := QBackend.restore_flow st p]> (QBackend.last_flows st)
         | None => QBackend.last_flows st
         end
    else QBackend.last_flows st.
Proof.
  unfold QBackend.resumePumps_restore. cbv zeta.
  destruct (fgt (QBackend.restore_flow st p) (Fin 0)); [|by intros [= <-]].
  rewrite _route_pump_route.
  destruct (QBackend.route p) as [[which local]|].
  - rewrite bind_Some. intros (s1 & H1 & [= <-]).
    apply on_link_send_inv in H1 as (_ & F1 & _). simpl. by rewrite F1.
  - intros [= <-]. apply last_flows__set_error.
Qed.

Lemma resumePumps_restore_loop_last ids st st' q :
  QBackend.for_each QBackend.resumePumps_restore ids st = Some st' →
  QBackend.last_flows st' !! q
  = if decide (q ∈ ids ∧ is_Some (QBackend.route q))
    then (if fgt (QBackend.restore_flow st q) (Fin 0)
          then Some (QBackend.restore_flow st q)
          else QBackend.last_flows st !! q)
    else QBackend.last_flows st !! q.
Proof.
  revert st. induction ids as [|p ids IH]; intros st; simpl.
  - by intros [= <-].
  - rewrite bind_Some. intros (s1 & H1 & H2).
    pose proof (resumePumps_restore_flow p st s1 q H1) as Hflow.
    pose proof (resumePumps_restore_last _ _ _ H1) as Hlast.
    rewrite (IH _ H2), Hflow. clear IH H2.
    assert (QBackend.last_flows s1 !! q
            = if decide (p = q ∧ is_Some (QBackend.route q))
              then (if fgt (QBackend.restore_flow st q) (Fin 0)
                    then Some (QBackend.restore_flow st q)
                    else QBackend.last_flows st !! q)
              else QBackend.last_flows st !! q) as Hq.
    { rewrite Hlast. destruct (decide (p = q)) as [->|Hne].
      - destruct (fgt (QBackend.restore_flow st q) (Fin 0)).
        + destruct (QBackend.route q) as [r|].
          * rewrite lookup_insert_eq, decide_True; [done|]. split; eauto.
          * rewrite decide_False; [done|]. by intros [_ [? ?]].
        + by case_decide.
      - rewrite decide_False by (by intros [? _]).
        destruct (fgt (QBackend.restore_flow st p) (Fin 0)); [|done].
        destruct (QBackend.route p); [|done]. by rewrite lookup_insert_ne. }
    destruct (decide (q ∈ ids ∧ is_Some (QBackend.route q))) as [[Hin Hr]|Hn].
    + rewrite decide_True by (split; [by right|done]).
      destruct (fgt (QBackend.restore_flow st q) (Fin 0)); [done|].
      rewrite Hq. by case_decide.
    + rewrite Hq. destruct (decide (p = q ∧ is_Some (QBackend.route q)))
        as [[-> Hr]|Hn'].
      * rewrite decide_True; [done|]. split; [by left|done].
      * rewrite decide_False; [done|].
        intros [[->|Hin]%elem_of_cons Hr]; [by apply Hn'|by apply Hn].
Qed.

(** X20: [resumePumps] over a list without repetitions.  The flow it
    restores for a pump is the paused snapshot if there is one, else the
    last recorded flow, else 0 ([restore_flow]).  It hands to each link
    exactly the list [resumed]: going through the ids in order, one
    constant-flow command with the flow to restore, addressed to the local
    id, for each id routed to that link whose flow to restore is > 0, and
    nothing else.  So for a listed pump in 1..9 the link gets exactly one
    command when that flow is > 0 and none otherwise; the restored flow
    becomes the pump's last flow, overwriting a flow recorded after the
    pause; and the pump's paused flow is gone. *)
Theorem resume_prefers_paused_snapshot st ids :
  QBackend.responsive st = true →
  NoDup ids →
  ∃ st' (resumed : LinkId → list Cmd),
    QBackend.resumePumps ids st = Some st'
    ∧ (∀ w, resumed w
            = flat_map (restore_cmds (QBackend.restore_flow st) w) ids)
    ∧ (∀ w, PumpLink.sends (QBackend.link w st')
            = PumpLink.sends (QBackend.link w st) ++ resumed w)
    ∧ (∀ w c, c ∈ resumed w →
         ∃ p local,
           p ∈ ids
           ∧ QBackend.route p = Some (w, local)
           ∧ fgt (QBackend.restore_flow st p) (Fin 0) = true
           ∧ c = CmdFlow local (QBackend.restore_flow st p))
    ∧ ∀ p which local,
        p ∈ ids →
        (QBackend._route_pump p st).1 = Some (which, local) →
        QBackend.restore_flow st p
        = match QBackend.paused_flows st !! p, QBackend.last_flows st !! p with
          | Some f, _ => f
          | None, Some f => f
          | None, None => Fin 0
          end
        ∧ filter (λ c, cmd_pump c = Some local) (resumed which)
          = (if fgt (QBackend.restore_flow st p) (Fin 0)
             then [CmdFlow local (QBackend.restore_flow st p)] else [])
        ∧ QBackend.last_flows st' !! p
          = (if fgt (QBackend.restore_flow st p) (Fin 0)
             then Some (QBackend.restore_flow st p)
             else QBackend.last_flows st !! p)
        ∧ QBackend.paused_flows st' !! p = None.
Proof.
  intros Hr Hnd.
  destruct (for_each_returns (λ s, QBackend.responsive s = true)
              QBackend.resumePumps_restore ids st
              (λ x s, resumePumps_restore_returns x s) Hr) as (s1 & E1 & _).
  pose proof (resumePumps_restore_loop _ _ _ E1) as (S1 & P1 & _).
  destruct (resumePumps_clear_loop ids s1) as (st' & E2 & L2 & F2 & P2).
  exists st', (λ w, flat_map (restore_cmds (QBackend.restore_flow st) w) ids).
  split; [unfold QBackend.resumePumps; by rewrite E1|].
  split; [done|].
  split; [intros w; rewrite L2; apply (S1 w)|].
  split; [intros w c; apply elem_of_restore_cmds|].
  intros p which local Hin Hroute. rewrite _route_pump_fst in Hroute.
  split; [|split; [|split]].
  - unfold QBackend.restore_flow.
    by destruct (QBackend.paused_flows st !! p), (QBackend.last_flows st !! p).
  - unfold restore_cmds.
    rewrite (filter_flat_map_routed _ _ p local ids Hroute)
      by (intros; apply restore_cmds_addressed).
    by rewrite flat_map_single.
  - rewrite F2, (resumePumps_restore_loop_last _ _ _ p E1).
    rewrite decide_True; [done|]. split; [done|]. by rewrite Hroute.
  - by rewrite P2, decide_True.
Qed.

(** X21: [pausePumps] and then [resumePumps] over the same list without
    repetitions.  Over the two calls each link is handed exactly the list
    [cmds]: first, going through the ids in order, the stop command for
    the local id of each id routed to that link; then, going through the
    ids again, one constant-flow command for each such id whose flow to
    restore after the pause is > 0; and nothing else.  For a listed pump in
    1..9 with a recorded last flow f the flow to restore is f, so the
    pump's link is handed the stop command and then, when f > 0, one
    constant-flow command with f, all for the pump's local id; afterwards
    the pump's last flow is still f and its paused flow is gone. *)
Theorem pause_then_resume_restores st ids :
  QBackend.responsive st = true →
  NoDup ids →
  ∃ st1 st2 (cmds : LinkId → list Cmd),
    QBackend.pausePumps ids st = Some st1
    ∧ QBackend.resumePumps ids st1 = Some st2
    ∧ (∀ w, cmds w
            = flat_map (pause_cmds w) ids
              ++ flat_map (restore_cmds (QBackend.restore_flow st1) w) ids)
    ∧ (∀ w, PumpLink.sends (QBackend.link w st1)
            = PumpLink.sends (QBackend.link w st)
              ++ flat_map (pause_cmds w) ids)
    ∧ (∀ w, PumpLink.sends (QBackend.link w st2)
            = PumpLink.sends (QBackend.link w st) ++ cmds w)
    ∧ (∀ w c, c ∈ cmds w →
         ∃ p local,
           p ∈ ids
           ∧ QBackend.route p = Some (w, local)
           ∧ (c = CmdStop local
              ∨ fgt (QBackend.restore_flow st1 p) (Fin 0) = true
                ∧ c = CmdFlow local (QBackend.restore_flow st1 p)))
    ∧ ∀ p which local f,
        p ∈ ids →
        (QBackend._route_pump p st).1 = Some (which, local) →
        QBackend.last_flows st !! p = Some f →
        QBackend.restore_flow st1 p = f
        ∧ filter (λ c, cmd_pump c = Some local) (cmds which)
          = CmdStop local :: (if fgt f (Fin 0) then [CmdFlow local f] else [])
        ∧ QBackend.last_flows st2 !! p = Some f
        ∧ QBackend.paused_flows st2 !! p = None.
Proof.
  intros Hr Hnd.
  destruct (for_each_returns (λ s, QBackend.responsive s = true)
              QBackend.pausePumps_body ids st
              (λ x s, pausePumps_body_returns x s) Hr) as (st1 & E0 & Hr1).
  pose proof (pausePumps_inv _ _ _ E0) as (S0 & F0 & _ & P0).
  destruct (for_each_returns (λ s, QBackend.responsive s = true)
              QBackend.resumePumps_restore ids st1
              (λ x s, resumePumps_restore_returns x s) Hr1) as (s1 & E1 & _).
  pose proof (resumePumps_restore_loop _ _ _ E1) as (S1 & P1 & _).
  destruct (resumePumps_clear_loop ids s1) as (st2 & E2 & L2 & F2 & P2).
  exists st1, st2,
    (λ w, flat_map (pause_cmds w) ids
          ++ flat_map (restore_cmds (QBackend.restore_flow st1) w) ids).
  split; [exact E0|].
  split; [unfold QBackend.resumePumps; by rewrite E1|].
  split; [done|].
  split; [intros w; apply (S0 w)|].
  split.
  { intros w. rewrite L2.
    destruct (sent_trans _ _ _ _ _ (S0 w) (S1 w)) as [Hs _ _ _ _ _]. exact Hs. }
  split.
  { intros w c [Hc|Hc]%elem_of_app.
    - apply elem_of_pause_cmds in Hc as (p & local & Hin & Hroute & ->).
      exists p, local. by auto.
    - apply elem_of_restore_cmds in Hc as (p & local & Hin & Hroute & Hpos & ->).
      exists p, local. by auto. }
  intros p which local f Hin Hroute Hf. rewrite _route_pump_fst in Hroute.
  assert (QBackend.restore_flow st1 p = f) as Hflow.
  { unfold QBackend.restore_flow. rewrite (P0 p Hin) by eauto. by rewrite Hf. }
  split; [done|]. split; [|split].
  - rewrite filter_app. unfold pause_cmds, restore_cmds.
    rewrite (filter_flat_map_routed _ _ p local ids Hroute)
      by (intros; by repeat constructor).
    rewrite (filter_flat_map_routed _ _ p local ids Hroute)
      by (intros; apply restore_cmds_addressed).
    rewrite !flat_map_single by done. by rewrite Hflow.
  - rewrite F2, (resumePumps_restore_loop_last _ _ _ p E1).
    rewrite decide_True by (split; [done|by rewrite Hroute]).
    rewrite Hflow, F0, Hf. by destruct (fgt f (Fin 0)).
  - by rewrite P2, decide_True.
Qed.

End pause_resume_more.

Lemma stop_all_and_pause_all_witness :
  ∃ st',
    QBackend.pauseAll
      (QBackend.mk (PumpLink.create "COM4" 115200 [true])
         (PumpLink.create "COM6" 115200 [true])
         {[2 := Fin 10]} {[5 := Fin 7]} "" []) = Some st'
    ∧ QBackend.paused_flows st' = {[2 := Fin 10]}.
Proof.
  destruct (proj2 (stop_all_and_pause_all
                     (QBackend.mk (PumpLink.create "COM4" 115200 [true])
                        (PumpLink.create "COM6" 115200 [true])
                        {[2 := Fin 10]} {[5 := Fin 7]} "" [])
                     eq_refl))
    as (st' & H1 & _ & _ & _ & H2).
  exists st'. split; [exact H1 | exact H2].
Defined.

(** Pump 2 was paused at 10 and set to 20 afterwards: resuming hands
    exactly the flow 10 for local pump 1 to link B, nothing to link A, and
    records 10. *)
Lemma resume_prefers_paused_snapshot_witness :
  ∃ st',
    QBackend.resumePumps [2]
      (QBackend.mk (PumpLink.create "COM4" 115200 [true])
         (PumpLink.create "COM6" 115200 [true])
         {[2 := Fin 20]} {[2 := Fin 10]} "" []) = Some st'
    ∧ PumpLink.sends (QBackend.link LinkB st') = [CmdFlow 1 (Fin 10)]
    ∧ PumpLink.sends (QBackend.link LinkA st') = []
    ∧ QBackend.last_flows st' !! 2 = Some (Fin 10).
Proof.
  destruct (resume_prefers_paused_snapshot
              (QBackend.mk (PumpLink.create "COM4" 115200 [true])
                 (PumpLink.create "COM6" 115200 [true])
                 {[2 := Fin 20]} {[2 := Fin 10]} "" [])
              [2] eq_refl)
    as (st' & resumed & H1 & H2 & H3 & _ & H4).
  { apply NoDup_singleton. }
  exists st'. split; [exact H1|].
  split; [rewrite (H3 LinkB), (H2 LinkB); reflexivity|].
  split; [rewrite (H3 LinkA), (H2 LinkA); reflexivity|].
  destruct (H4 2 LinkB 1) as (_ & _ & H5 & _);
    [apply list_elem_of_here | reflexivity | exact H5].
Defined.

(** Pumps 1 (flow 12) and 3 (flow 0) paused and resumed together. *)
Lemma pause_then_resume_restores_witness :
  ∃ st1 st2 (cmds : LinkId → list Cmd),
    QBackend.pausePumps [1; 3]
      (QBackend.mk (PumpLink.create "COM4" 115200 [true])
         (PumpLink.create "COM6" 115200 [true])
         {[1 := Fin 12; 3 := Fin 0]} ∅ "" []) = Some st1
    ∧ QBackend.resumePumps [1; 3] st1 = Some st2
    ∧ PumpLink.sends (QBackend.link LinkA st1) = [CmdStop 1]
    ∧ PumpLink.sends (QBackend.link LinkB st1) = [CmdStop 2]
    ∧ filter (λ c, cmd_pump c = Some 1) (cmds LinkA)
      = [CmdStop 1; CmdFlow 1 (Fin 12)]
    ∧ filter (λ c, cmd_pump c = Some 2) (cmds LinkB) = [CmdStop 2].
Proof.
  destruct (pause_then_resume_restores
              (QBackend.mk (PumpLink.create "COM4" 115200 [true])
                 (PumpLink.create "COM6" 115200 [true])
                 {[1 := Fin 12; 3 := Fin 0]} ∅ "" [])
              [1; 3] eq_refl)
    as (st1 & st2 & cmds & H1 & H2 & _ & H5 & _ & _ & H3).
  { apply (bool_decide_unpack _). reflexivity. }
  exists st1, st2, cmds. split; [exact H1|]. split; [exact H2|].
  split; [exact (H5 LinkA)|]. split; [exact (H5 LinkB)|]. split.
  - destruct (H3 1 LinkA 1 (Fin 12)) as (_ & H4 & _);
      [apply list_elem_of_here | reflexivity | reflexivity | exact H4].
  - destruct (H3 3 LinkB 2 (Fin 0)) as (_ & H4 & _);
      [apply list_elem_of_further, list_elem_of_here | reflexivity
      | reflexivity | exact H4].
Defined.
